(** * Parent selection operators of PyGAD (pygad/utils/parent_selection.py)

    A shallow embedding of the [ParentSelection] class and a verification of
    its behaviour.  The Python methods become computations in a small
    state-and-exception monad [M]:

    - NumPy arrays live in an explicit store ([heap]) and are passed around
      by reference, so that in-place writes such as [probs[i] = 99999999999]
      and the [.copy()] calls of the source are visible in the model;
    - the process-wide random generator is a pair of streams (one consulted
      by [numpy.random.randint], one by [rand]/[uniform]) with read
      positions kept in the state;
    - Python exceptions are the [Raise] outcome of a computation;
    - a number held in an array is a rational ([Q]), which every finite
      float and every integer is; the arithmetic on them is a parameter of
      the model (the class [arith]): the result of an addition,
      subtraction, multiplication or division is the exact result passed
      through the rounding [rnd], and [numpy.sum] is the function [np_sum].
      Comparisons are exact, as they are on floats.  Three instances are
      defined: [exact_arith], which does not round; [binary64_arith],
      IEEE 754 double precision with round-to-nearest-even (infinities and
      NaN, which no rational stands for, are outside the model); and
      [int64_arith], in which the sum is that of 64-bit integers.

    The two functions of [pygad.helper.nsga2] used by the NSGA-II selectors
    are not part of this file's source; they are parameters of the section
    [NSGA2]. *)

From Stdlib Require Import QArith Qminmax Qround Qabs Qpower Lqa Lia String.
From stdpp Require Import base list sorting.

Local Open Scope nat_scope.

(** ** Arithmetic

    What the program's arithmetic does to the numbers it computes with.
    [rnd] is the rounding applied to the exact result of every [+], [-],
    [*] and [/] (of Python floats and of NumPy arrays alike); [np_sum] is
    [numpy.sum], whose result depends on the element type of the array
    (an integer sum wraps around) and on the order in which NumPy adds. *)
Class arith := Arith {
  rnd : Q -> Q;
  np_sum : list Q -> Q
}.

Definition fadd {ar : arith} (x y : Q) : Q := rnd (x + y)%Q.
Definition fsub {ar : arith} (x y : Q) : Q := rnd (x - y)%Q.
Definition fmul {ar : arith} (x y : Q) : Q := rnd (x * y)%Q.
Definition fdiv {ar : arith} (x y : Q) : Q := rnd (x / y)%Q.

(** Arithmetic without rounding. *)
Definition Qsum (xs : list Q) : Q := foldr Qplus 0%Q xs.

Definition exact_arith : arith := Arith (fun x => x) Qsum.

(** IEEE 754 binary64, rounding to nearest, ties to even: 53 bits of
    precision, the least exponent of a bit being -1074. *)

(** The nearest integer, ties to the even one. *)
Definition round_half_even (x : Q) : Z :=
  let f := Qfloor x in
  match Qcompare (x - inject_Z f) (1 # 2) with
  | Lt => f
  | Gt => (f + 1)%Z
  | Eq => if Z.even f then f else (f + 1)%Z
  end.

(** For [x > 0], the [e] with [2^e <= x < 2^(e+1)]. *)
Definition ilog2 (x : Q) : Z :=
  let e := (Z.log2 (Qnum x) - Z.log2 (Zpos (Qden x)))%Z in
  if Qle_bool (2 ^ e) x then e else (e - 1)%Z.

(** The exponent of the last bit of the float nearest to [x]. *)
Definition exponent (x : Q) : Z := Z.max (ilog2 (Qabs x) - 52) (-1074).

Definition binary64 (x : Q) : Q :=
  if Qeq_bool x 0 then 0%Q
  else
    let e := exponent x in
    Qred (inject_Z (round_half_even (x / 2 ^ e)) * 2 ^ e)%Q.

(** [numpy.sum] of a float array adds from left to right when the array
    has fewer than eight elements (longer arrays are added in blocks). *)
Definition binary64_sum (xs : list Q) : Q :=
  foldl (fun acc x => binary64 (acc + x)%Q) 0%Q xs.

Definition binary64_arith : arith := Arith binary64 binary64_sum.

(** [numpy.sum] of an [int64] array is the sum modulo [2^64], taken in
    [[-2^63, 2^63)]; dividing such an array gives doubles. *)
Definition wrap64 (z : Z) : Z := ((z + 2 ^ 63) mod 2 ^ 64 - 2 ^ 63)%Z.

Definition int64_sum (xs : list Q) : Q := inject_Z (wrap64 (Qfloor (Qsum xs))).

Definition int64_arith : arith := Arith binary64 int64_sum.

(** ** Data model *)

Definition gene := Z.
Definition solution := list gene.

(** The [dtype] of a gene matrix: [self.gene_type[0]] or [object]. *)
Inductive dtype := DInt | DFloat | DObject.

(** A two-dimensional gene array.  A row is [None] while it still holds
    whatever [numpy.empty] left there. *)
Record matrix := Matrix {
  m_dtype : dtype;
  m_cols : nat;
  m_rows : list (option solution)
}.

Inductive array :=
| AFloat (xs : list Q)              (* 1-D numeric array *)
| AGenes (m : matrix)               (* population / parents *)
| AFloat2 (rows : list (list Q)).   (* multi-objective fitness *)

(** References into the store. *)
Abbreviation loc := nat.

Record rng := Rng {
  r_ints : nat -> nat;     (* successive results of randint *)
  r_floats : nat -> Q;     (* successive unit-interval samples *)
  r_icount : nat;          (* integers drawn so far *)
  r_fcount : nat           (* floats drawn so far *)
}.

Record state := State {
  heap : list array;
  gen : rng;
  log : list string;       (* messages sent to self.logger.error *)
  cd_calls : nat           (* invocations of nsga2.crowding_distance *)
}.

Inductive exn :=
| ZeroDivisionError (msg : string)
| IndexError
| ValueError
| UnboundLocalError
| TypeError.

Inductive result (A : Type) :=
| Ok (a : A)
| Raise (e : exn).
Arguments Ok {A} a.
Arguments Raise {A} e.

(** ** The monad *)

Definition M (A : Type) : Type := state -> result A * state.

Definition ret {A} (a : A) : M A := fun s => (Ok a, s).

Definition bind {A B} (m : M A) (f : A -> M B) : M B :=
  fun s => match m s with
           | (Ok a, s') => f a s'
           | (Raise e, s') => (Raise e, s')
           end.

Definition raise {A} (e : exn) : M A := fun s => (Raise e, s).

Notation "'let*' x ':=' m 'in' k" := (bind m (fun x => k))
  (at level 10, x name, m at level 100, k at level 200).
Notation "'let*' ' p ':=' m 'in' k" :=
  (bind m (fun x => match x with p => k end))
  (at level 10, p pattern, m at level 100, k at level 200).
Notation "m ';;' k" := (bind m (fun _ => k))
  (at level 100, k at level 200, right associativity).

(** [for x in xs: body], with the local variables the body updates threaded
    through as [v]. *)
Fixpoint for_each {A V} (xs : list A) (body : A -> V -> M V) (v : V) : M V :=
  match xs with
  | [] => ret v
  | x :: rest => let* v' := body x v in for_each rest body v'
  end.

(** The same with [break]: the body returns [true] when it ran [break]. *)
Fixpoint for_break {A V} (xs : list A) (body : A -> V -> M (V * bool)) (v : V)
  : M V :=
  match xs with
  | [] => ret v
  | x :: rest =>
      let* '(v', stop) := body x v in
      if stop then ret v' else for_break rest body v'
  end.

Fixpoint mapM {A B} (f : A -> M B) (xs : list A) : M (list B) :=
  match xs with
  | [] => ret []
  | x :: rest => let* y := f x in let* ys := mapM f rest in ret (y :: ys)
  end.

(** Python's short-circuit [and]. *)
Definition py_and (a b : M bool) : M bool :=
  let* x := a in if x then b else ret false.

(** ** Store primitives *)

Definition set_heap (h : list array) (s : state) : state :=
  State h (gen s) (log s) (cd_calls s).

Definition set_gen (g : rng) (s : state) : state :=
  State (heap s) g (log s) (cd_calls s).

Definition alloc (a : array) : M loc :=
  fun s => (Ok (length (heap s)), set_heap (heap s ++ [a]) s).

Definition load (l : loc) : M array :=
  fun s => match heap s !! l with
           | Some a => (Ok a, s)
           | None => (Raise TypeError, s)
           end.

Definition store (l : loc) (a : array) : M unit :=
  fun s => (Ok tt, set_heap (<[l:=a]> (heap s)) s).

Definition load_floats (l : loc) : M (list Q) :=
  let* a := load l in
  match a with AFloat xs => ret xs | _ => raise TypeError end.

Definition load_genes (l : loc) : M matrix :=
  let* a := load l in
  match a with AGenes m => ret m | _ => raise TypeError end.

Definition load_floats2 (l : loc) : M (list (list Q)) :=
  let* a := load l in
  match a with AFloat2 rows => ret rows | _ => raise TypeError end.

(** [xs[i]] on a Python list or an index array. *)
Definition list_get {A} (xs : list A) (i : nat) : M A :=
  match xs !! i with
  | Some x => ret x
  | None => raise IndexError
  end.

(** [a[i]] and [a[i] = v] on a 1-D array in the store. *)
Definition get_item (l : loc) (i : nat) : M Q :=
  let* xs := load_floats l in list_get xs i.

Definition set_item (l : loc) (i : nat) (v : Q) : M unit :=
  let* xs := load_floats l in
  if i <? length xs then store l (AFloat (<[i:=v]> xs)) else raise IndexError.

(** [a[i, :].copy()]: the contents of row [i], as a fresh value. *)
Definition get_row (l : loc) (i : nat) : M (option solution) :=
  let* m := load_genes l in list_get (m_rows m) i.

(** [a[i, :] = row]. *)
Definition set_row (l : loc) (i : nat) (row : option solution) : M unit :=
  let* m := load_genes l in
  if i <? length (m_rows m)
  then store l (AGenes (Matrix (m_dtype m) (m_cols m) (<[i:=row]> (m_rows m))))
  else raise IndexError.

(** ** NumPy *)

Definition np_len (l : loc) : M nat :=
  let* xs := load_floats l in ret (length xs).

(** [xs / d], elementwise.  A zero divisor, which NumPy answers with
    infinities or NaN and a warning, is outside the model: the two
    selectors that divide by the sum of the fitness refuse a zero sum
    first, and the ranks of rank selection add up to zero only if their
    sum wraps around. *)
Definition np_divide {ar : arith} (xs : list Q) (d : Q) : list Q :=
  map (fun x => fdiv x d) xs.

Definition np_arange (a b : nat) : list Q :=
  map (fun k => inject_Z (Z.of_nat k)) (seq a (b - a)).

Definition np_zeros (n : nat) : M loc := alloc (AFloat (replicate n 0%Q)).

Definition np_empty (rows cols : nat) (dt : dtype) : M loc :=
  alloc (AGenes (Matrix dt cols (replicate rows None))).

Definition np_copy (l : loc) : M loc :=
  let* a := load l in alloc a.

Definition np_min (xs : list Q) : M Q :=
  match xs with
  | [] => raise ValueError
  | x :: rest => ret (foldl Qmin x rest)
  end.

Definition np_max (xs : list Q) : M Q :=
  match xs with
  | [] => raise ValueError
  | x :: rest => ret (foldl Qmax x rest)
  end.

(** [xs == v], elementwise. *)
Definition np_eq (xs : list Q) (v : Q) : list bool :=
  map (fun x => Qeq_bool x v) xs.

Fixpoint where_from (k : nat) (bs : list bool) : list nat :=
  match bs with
  | [] => []
  | b :: rest => if b then k :: where_from (S k) rest else where_from (S k) rest
  end.

(** [numpy.where(bs)[0]]. *)
Definition np_where (bs : list bool) : list nat := where_from 0 bs.

(** [a[idxs]] with an index array. *)
Definition np_take (l : loc) (idxs : list nat) : M (list Q) :=
  let* xs := load_floats l in mapM (list_get xs) idxs.

Definition Qlt_bool (a b : Q) : bool := negb (Qle_bool b a).

(** ** The random generator *)

Definition next_float : M Q :=
  fun s =>
    let g := gen s in
    (Ok (r_floats g (r_fcount g)),
     set_gen (Rng (r_ints g) (r_floats g) (r_icount g) (S (r_fcount g))) s).

Definition draw_ints (k : nat) : M (list nat) :=
  fun s =>
    let g := gen s in
    (Ok (map (fun j => r_ints g (r_icount g + j)) (seq 0 k)),
     set_gen (Rng (r_ints g) (r_floats g) (r_icount g + k) (r_fcount g)) s).

(** [numpy.random.rand()]. *)
Definition np_random_rand : M Q := next_float.

(** [numpy.random.uniform(low, high)]. *)
Definition np_random_uniform {ar : arith} (low high : Q) : M Q :=
  let scale := fsub high low in
  let* u := next_float in ret (fadd low (fmul scale u)).

(** [numpy.random.randint(low=0, high=high, size=size)]: an empty request
    returns at once; an empty range is a [ValueError]. *)
Definition np_random_randint (high size : nat) : M (list nat) :=
  if size =? 0 then ret []
  else if high =? 0 then raise ValueError
  else draw_ints size.

Fixpoint chunks {A} (rows cols : nat) (xs : list A) : list (list A) :=
  match rows with
  | 0 => []
  | S r => take cols xs :: chunks r cols (drop cols xs)
  end.

(** [numpy.random.randint(low=0, high=high, size=(rows, cols))], filled in
    row-major order. *)
Definition np_random_randint2 (high rows cols : nat) : M (list (list nat)) :=
  if rows * cols =? 0 then ret (replicate rows [])
  else if high =? 0 then raise ValueError
  else let* xs := draw_ints (rows * cols) in ret (chunks rows cols xs).

Definition logger_error (msg : string) : M unit :=
  fun s => (Ok tt, State (heap s) (gen s) (log s ++ [msg]) (cd_calls s)).

(** [1.0 / n] for a Python integer [n]. *)
Definition py_inverse {ar : arith} (n : nat) : M Q :=
  if n =? 0 then raise (ZeroDivisionError "float division by zero")
  else ret (fdiv 1 (inject_Z (Z.of_nat n))).

(** ** The optimizer instance ([self]) *)

Record GA := {
  population : loc;
  gene_type_single : bool;
  gene_type : list dtype;
  sol_per_pop : nat;
  K_tournament : nat;
  num_parents_mating : nat
}.

(** The allocation of the output buffer, written out in every selector:
    [numpy.empty((num_parents, self.population.shape[1]), dtype=...)]. *)
Definition empty_parents (self : GA) (num_parents : nat) : M loc :=
  if gene_type_single self then
    let* pop := load_genes (population self) in
    let* dt := list_get (gene_type self) 0 in
    np_empty num_parents (m_cols pop) dt
  else
    let* pop := load_genes (population self) in
    np_empty num_parents (m_cols pop) DObject.

(** ** [sorted(range(len(fitness)), key=lambda k: fitness[k])]

    Python's sort is stable; a stable sort has one possible output, which
    the insertion sort below computes. *)
Fixpoint insert_by (key : nat -> Q) (k : nat) (l : list nat) : list nat :=
  match l with
  | [] => [k]
  | h :: t => if Qle_bool (key k) (key h) then k :: l else h :: insert_by key k t
  end.

Definition sorted_by (key : nat -> Q) (l : list nat) : list nat :=
  foldr (insert_by key) [] l.

Definition fitness_order (fs : list Q) : list nat :=
  sorted_by (fun k => nth k fs 0%Q) (seq 0 (length fs)).

(** ** Steady-state selection *)

Definition steady_state_selection (self : GA) (fitness : loc) (num_parents : nat)
  : M (loc * list nat) :=
  let* fs := load_floats fitness in
  let fitness_sorted := fitness_order fs in
  let fitness_sorted := rev fitness_sorted in
  let* parents := empty_parents self num_parents in
  for_each (seq 0 num_parents) (fun parent_num (_ : unit) =>
    let* i := list_get fitness_sorted parent_num in
    let* row := get_row (population self) i in
    set_row parents parent_num row) tt ;;
  ret (parents, take num_parents fitness_sorted).

(** ** The cumulative wheel *)

Definition sentinel : Q := 99999999999 # 1.

(** One pass of the wheel-building loop: the first position holding the
    current minimum gets the next range and is overwritten. *)
Definition wheel_step {ar : arith} (probs probs_start probs_end : loc) (curr : Q)
  : M Q :=
  let* ps := load_floats probs in
  let* lowest := np_min ps in
  let* min_probs_idx := list_get (np_where (np_eq ps lowest)) 0 in
  set_item probs_start min_probs_idx curr ;;
  let* p := get_item probs min_probs_idx in
  let curr := fadd curr p in
  set_item probs_end min_probs_idx curr ;;
  set_item probs min_probs_idx sentinel ;;
  ret curr.

Definition wheel_cumulative_probs {ar : arith} (self : GA) (probs : loc)
    (num_parents : nat) : M (loc * loc * loc) :=
  let* n := np_len probs in
  let* probs_start := np_zeros n in
  let* probs_end := np_zeros n in
  for_each (seq 0 n) (fun _ curr => wheel_step probs probs_start probs_end curr)
           0%Q ;;
  let* parents := empty_parents self num_parents in
  ret (probs_start, probs_end, parents).

(** The inner loop shared by rank, roulette-wheel and stochastic universal
    selection:
    [for idx in range(probs.shape[0]):
       if (r >= probs_start[idx] and r < probs_end[idx]): on_hit idx; break] *)
Definition scan_wheel {V} (probs probs_start probs_end : loc) (r : Q)
    (on_hit : nat -> V -> M V) (v : V) : M V :=
  let* n := np_len probs in
  for_break (seq 0 n) (fun idx v =>
    let* inside :=
      py_and (let* lo := get_item probs_start idx in ret (Qle_bool lo r))
             (let* hi := get_item probs_end idx in ret (Qlt_bool r hi)) in
    if inside then let* v' := on_hit idx v in ret (v', true)
    else ret (v, false)) v.

(** ** Rank selection *)

Definition rank_selection {ar : arith} (self : GA) (fitness : loc)
    (num_parents : nat) : M (loc * list nat) :=
  let* fs := load_floats fitness in
  let fitness_sorted := fitness_order fs in
  let rank := np_arange 1 (sol_per_pop self + 1) in
  let* probs := alloc (AFloat (np_divide rank (np_sum rank))) in
  let* probs_copy := np_copy probs in
  let* '(probs_start, probs_end, parents) :=
    wheel_cumulative_probs self probs_copy num_parents in
  let* parents_indices :=
    for_each (seq 0 num_parents) (fun parent_num parents_indices =>
      let* rand_prob := np_random_rand in
      scan_wheel probs probs_start probs_end rand_prob
        (fun idx parents_indices =>
           let* mapped_idx := list_get fitness_sorted idx in
           let* row := get_row (population self) mapped_idx in
           set_row parents parent_num row ;;
           ret (parents_indices ++ [mapped_idx]))
        parents_indices) [] in
  ret (parents, parents_indices).

(** ** Random selection *)

Definition random_selection (self : GA) (fitness : loc) (num_parents : nat)
  : M (loc * list nat) :=
  let* parents := empty_parents self num_parents in
  let* n := np_len fitness in
  let* rand_indices := np_random_randint n num_parents in
  for_each (seq 0 num_parents) (fun parent_num (_ : unit) =>
    let* i := list_get rand_indices parent_num in
    let* row := get_row (population self) i in
    set_row parents parent_num row) tt ;;
  ret (parents, rand_indices).

(** ** Tournament selection *)

Definition tournament_selection (self : GA) (fitness : loc) (num_parents : nat)
  : M (loc * list nat) :=
  let* parents := empty_parents self num_parents in
  let* parents_indices :=
    for_each (seq 0 num_parents) (fun parent_num parents_indices =>
      let* n := np_len fitness in
      let* rand_indices := np_random_randint n (K_tournament self) in
      let* K_fitnesses := np_take fitness rand_indices in
      let* best := np_max K_fitnesses in
      let* selected_parent_idx := list_get (np_where (np_eq K_fitnesses best)) 0 in
      let* winner := list_get rand_indices selected_parent_idx in
      let parents_indices := parents_indices ++ [winner] in
      let* row := get_row (population self) winner in
      set_row parents parent_num row ;;
      ret parents_indices) [] in
  ret (parents, parents_indices).

(** ** Roulette-wheel selection *)

Definition zero_sum_msg : string :=
  "Cannot proceed because the sum of fitness values is zero. Cannot divide by zero.".

Definition roulette_wheel_selection {ar : arith} (self : GA) (fitness : loc)
    (num_parents : nat) : M (loc * list nat) :=
  let* fs := load_floats fitness in
  let fitness_sum := np_sum fs in
  if Qeq_bool fitness_sum 0 then
    logger_error zero_sum_msg ;;
    raise (ZeroDivisionError zero_sum_msg)
  else
    let* probs := alloc (AFloat (np_divide fs fitness_sum)) in
    let* probs_copy := np_copy probs in
    let* '(probs_start, probs_end, parents) :=
      wheel_cumulative_probs self probs_copy num_parents in
    let* parents_indices :=
      for_each (seq 0 num_parents) (fun parent_num parents_indices =>
        let* rand_prob := np_random_rand in
        scan_wheel probs probs_start probs_end rand_prob
          (fun idx parents_indices =>
             let* row := get_row (population self) idx in
             set_row parents parent_num row ;;
             ret (parents_indices ++ [idx]))
          parents_indices) [] in
    ret (parents, parents_indices).

(** ** Stochastic universal selection *)

Definition stochastic_universal_selection {ar : arith} (self : GA)
    (fitness : loc) (num_parents : nat) : M (loc * list nat) :=
  let* fs := load_floats fitness in
  let fitness_sum := np_sum fs in
  if Qeq_bool fitness_sum 0 then
    logger_error zero_sum_msg ;;
    raise (ZeroDivisionError zero_sum_msg)
  else
    let* probs := alloc (AFloat (np_divide fs fitness_sum)) in
    let* n := np_len probs in
    let* probs_start := np_zeros n in
    let* probs_end := np_zeros n in
    for_each (seq 0 n) (fun _ curr => wheel_step probs probs_start probs_end curr)
             0%Q ;;
    let* pointers_distance := py_inverse (num_parents_mating self) in
    let* first_pointer := np_random_uniform 0 pointers_distance in
    let* parents := empty_parents self num_parents in
    let* parents_indices :=
      for_each (seq 0 num_parents) (fun parent_num parents_indices =>
        let rand_pointer :=
          fadd first_pointer
               (fmul (inject_Z (Z.of_nat parent_num)) pointers_distance) in
        scan_wheel probs probs_start probs_end rand_pointer
          (fun idx parents_indices =>
             let* row := get_row (population self) idx in
             set_row parents parent_num row ;;
             ret (parents_indices ++ [idx]))
          parents_indices) [] in
    ret (parents, parents_indices).

(** ** The NSGA-II selectors *)

(** A Pareto front: rows [[index in the population, fitness vector]]. *)
Definition front := list (nat * list Q).

(** What [nsga2.crowding_distance] returns: the per-objective table, the
    summed distances (rows [[index in the front, sum]]), the front-based
    order and the population-based order. *)
Definition crowding :=
  (list (list (nat * Q)) * list (nat * Q) * list nat * list nat)%type.

(** [l.index(x)] *)
Fixpoint index_from (k : nat) (l : list nat) (x : nat) : option nat :=
  match l with
  | [] => None
  | y :: rest => if y =? x then Some k else index_from (S k) rest x
  end.

Definition list_index (l : list nat) (x : nat) : M nat :=
  match index_from 0 l x with
  | Some k => ret k
  | None => raise ValueError
  end.

(** The local variables of [nsga2_selection] that change inside its loops.
    [sol_idx] is unbound until the first [for sol_idx in ...] assigns it. *)
Record nsga2_locals := Locals {
  num_remaining_parents : nat;
  sol_idx : option nat;
  parents_indices : list nat
}.

Definition read_sol_idx (st : nsga2_locals) : M nat :=
  match sol_idx st with
  | Some i => ret i
  | None => raise UnboundLocalError
  end.

Section NSGA2.
Context {ar : arith}.

(** The collaborators from [pygad.helper.nsga2], taken as given; they
    compute from their arguments and leave the store alone. *)
Variable non_dominated_sorting : list (list Q) -> list front * list nat.
Variable crowding_distance : front -> list (list Q) -> crowding.

Definition call_crowding_distance (pareto_front : front) (fit : list (list Q))
  : M crowding :=
  fun s => (Ok (crowding_distance pareto_front fit),
            State (heap s) (gen s) (log s) (S (cd_calls s))).

(** The body of the loop of [tournament_selection_nsga2] that picks
    [selected_parent_idx] from the candidates of one parent. *)
Definition nsga2_duel (fit : list (list Q)) (pareto_fronts : list front)
    (solutions_fronts_indices : list nat) (current_indices : list nat) : M nat :=
  let* parent_fronts_indices :=
    mapM (list_get solutions_fronts_indices) current_indices in
  let* f0 := list_get parent_fronts_indices 0 in
  let* f1 := list_get parent_fronts_indices 1 in
  if f0 <? f1 then list_get current_indices 0
  else if f1 <? f0 then list_get current_indices 1
  else
    let* pareto_front := list_get pareto_fronts f0 in
    if length pareto_front =? 1 then list_get current_indices 0
    else
      let* '(_, crowding_distance_sum, _, crowding_dist_pop_sorted_indices) :=
        call_crowding_distance pareto_front fit in
      let* c0 := list_get current_indices 0 in
      let* solution1_idx := list_index crowding_dist_pop_sorted_indices c0 in
      let* c1 := list_get current_indices 1 in
      let* solution2_idx := list_index crowding_dist_pop_sorted_indices c1 in
      let* d0 := list_get crowding_distance_sum solution1_idx in
      let* d1 := list_get crowding_distance_sum solution2_idx in
      if Qlt_bool (snd d1) (snd d0) then list_get current_indices 0
      else if Qlt_bool (snd d0) (snd d1) then list_get current_indices 1
      else
        let* rand_num := np_random_uniform 0 1 in
        if Qlt_bool rand_num (1 # 2) then list_get current_indices 0
        else list_get current_indices 1.

Definition tournament_selection_nsga2 (self : GA) (fitness : loc)
    (num_parents : nat) : M (loc * list nat) :=
  let* parents := empty_parents self num_parents in
  let* fit := load_floats2 fitness in
  let '(pareto_fronts, solutions_fronts_indices) := non_dominated_sorting fit in
  let* rand_indices :=
    np_random_randint2 (length solutions_fronts_indices) num_parents
                       (K_tournament self) in
  let* parents_indices :=
    for_each (seq 0 num_parents) (fun parent_num parents_indices =>
      let* current_indices := list_get rand_indices parent_num in
      let* selected_parent_idx :=
        nsga2_duel fit pareto_fronts solutions_fronts_indices current_indices in
      let parents_indices := parents_indices ++ [selected_parent_idx] in
      let* row := get_row (population self) selected_parent_idx in
      set_row parents parent_num row ;;
      ret parents_indices) [] in
  ret (parents, parents_indices).

(** The [while] loop of [nsga2_selection]; [fronts] is
    [pareto_fronts[pareto_front_idx:]]. *)
Fixpoint nsga2_while (self : GA) (fit : list (list Q)) (parents : loc)
    (fronts : list front) (st : nsga2_locals) : M nsga2_locals :=
  match fronts with
  | [] => ret st
  | current_pareto_front :: rest =>
      if num_remaining_parents st =? 0 then ret st
      else
        let* st :=
          if length current_pareto_front <=? num_remaining_parents st then
            let* st :=
              for_each (seq 0 (length current_pareto_front)) (fun i st =>
                let st := Locals (num_remaining_parents st) (Some i)
                                 (parents_indices st) in
                let* sol := list_get current_pareto_front i in
                let selected_solution_idx := fst sol in
                let* row := get_row (population self) selected_solution_idx in
                set_row parents i row ;;
                ret (Locals (num_remaining_parents st) (sol_idx st)
                            (parents_indices st ++ [selected_solution_idx]))) st in
            ret (Locals (num_remaining_parents st - length current_pareto_front)
                        (sol_idx st) (parents_indices st))
          else
            let* '(_, _, _, crowding_dist_pop_sorted_indices) :=
              call_crowding_distance current_pareto_front fit in
            let* st :=
              for_each (take (num_remaining_parents st)
                             crowding_dist_pop_sorted_indices)
                (fun selected_solution_idx st =>
                   let* row := get_row (population self) selected_solution_idx in
                   let* i := read_sol_idx st in
                   set_row parents i row ;;
                   ret (Locals (num_remaining_parents st) (sol_idx st)
                               (parents_indices st ++ [selected_solution_idx]))) st in
            ret (Locals (num_remaining_parents st - num_remaining_parents st)
                        (sol_idx st) (parents_indices st)) in
        nsga2_while self fit parents rest st
  end.

Definition nsga2_selection (self : GA) (fitness : loc) (num_parents : nat)
  : M (loc * list nat) :=
  let* parents := empty_parents self num_parents in
  let* fit := load_floats2 fitness in
  let '(pareto_fronts, _) := non_dominated_sorting fit in
  let* st := nsga2_while self fit parents pareto_fronts
                         (Locals num_parents None []) in
  ret (parents, parents_indices st).

(** The eight operators, as the optimizer picks one per generation. *)
Inductive selector :=
| SteadyState | Random | Rank | RouletteWheel | Tournament
| StochasticUniversal | TournamentNSGA2 | NSGA2Fronts.

Definition run_selector (sel : selector) : GA -> loc -> nat -> M (loc * list nat) :=
  match sel with
  | SteadyState => steady_state_selection
  | Random => random_selection
  | Rank => rank_selection
  | RouletteWheel => roulette_wheel_selection
  | Tournament => tournament_selection
  | StochasticUniversal => stochastic_universal_selection
  | TournamentNSGA2 => tournament_selection_nsga2
  | NSGA2Fronts => nsga2_selection
  end.

End NSGA2.

(** * Specification vocabulary *)

(** [wp m s Q]: running [m] from [s] ends in an outcome satisfying [Q]. *)
Definition wp {A} (m : M A) (s : state) (Q : result A -> state -> Prop) : Prop :=
  Q (m s).1 (m s).2.

(** [frames h0 m φ]: [m] leaves every array of the store [h0] as it was,
    whatever the outcome, and a value it returns satisfies [φ]. *)
Definition keeps (h0 : list array) (s : state) : Prop := h0 `prefix_of` heap s.

Definition fresh (h0 : list array) (l : loc) : Prop := length h0 <= l.

Definition frames {A} (h0 : list array) (m : M A) (φ : A -> Prop) : Prop :=
  forall s, keeps h0 s ->
    keeps h0 (m s).2 /\ forall a, (m s).1 = Ok a -> φ a.

Definition fresh3 (h0 : list array) (t : loc * loc * loc) : Prop :=
  fresh h0 t.1.1 /\ fresh h0 t.1.2 /\ fresh h0 t.2.

(** The parents returned are an array that did not exist at the call. *)
Definition fresh_parents (h0 : list array) (r : loc * list nat) : Prop :=
  fresh h0 r.1.

Definition any {A} : A -> Prop := fun _ => True.

(** [quiet m]: [m] never raises a [ZeroDivisionError] and never logs. *)
Definition is_zde (e : exn) : Prop := exists msg, e = ZeroDivisionError msg.

Definition quiet {A} (m : M A) : Prop :=
  forall s, log (m s).2 = log s /\
            forall e, (m s).1 = Raise e -> ~ is_zde e.

(** Postconditions that speak about normal returns only, or that also rule
    exceptions out. *)
Definition okpost {A} (P : A -> state -> Prop) (r : result A) (s : state) : Prop :=
  match r with Ok a => P a s | Raise _ => True end.

Definition totpost {A} (P : A -> state -> Prop) (r : result A) (s : state) : Prop :=
  match r with Ok a => P a s | Raise _ => False end.

(** [reads m]: [m] leaves the whole store as it is (it may draw random
    numbers or count a collaborator call). *)
Definition reads {A} (m : M A) : Prop := forall s, heap (m s).2 = heap s.

(** Parent [i] is the population row at index [idxs[i]]. *)
Definition aligned (pop : matrix) (rows : list (option solution))
    (idxs : list nat) : Prop :=
  forall i x, idxs !! i = Some x ->
    exists row, m_rows pop !! x = Some row /\ rows !! i = Some row.

(** The state of the output while a selector fills it, [h0] being the store
    at the call: after [k] passes the buffer at [parents] has [n] rows and
    [idxs] holds at most [k] indices, exactly [k] for a selector that
    appends on every pass; as long as no pass was skipped, rows and indices
    agree. *)
Definition filling (h0 : list array) (parents : loc) (pop : matrix) (n : nat)
    (exact : bool) (k : nat) (idxs : list nat) (s : state) : Prop :=
  keeps h0 s /\ fresh h0 parents /\
  exists par, heap s !! parents = Some (AGenes par) /\
    length (m_rows par) = n /\
    length idxs <= k /\
    (exact = true -> length idxs = k) /\
    (length idxs = k -> aligned pop (m_rows par) idxs).

(** What a selector promises on a normal return, [pop] being the
    population at the call. *)
Definition selected (pop : matrix) (n : nat) (exact agree : bool)
    (out : loc * list nat) (s' : state) : Prop :=
  exists par,
    heap s' !! out.1 = Some (AGenes par) /\
    length (m_rows par) = n /\
    length out.2 <= n /\
    (exact = true -> length out.2 = n) /\
    (agree = true -> length out.2 = n -> aligned pop (m_rows par) out.2).




(** ** The wheel, as values

    The three arrays the wheel-building loop works on and its running
    total; [wheel_pass] is what one pass of the loop does to them. *)
Record wheel := Wheel {
  w_probs : list Q;
  w_start : list Q;
  w_end : list Q;
  w_curr : Q
}.

(** [numpy.where(ps == numpy.min(ps))[0][0]] *)
Definition argmin_first (ps : list Q) : option nat :=
  match ps with
  | [] => None
  | x :: rest => head (np_where (np_eq ps (foldl Qmin x rest)))
  end.

Definition wheel_pass {ar : arith} (w : wheel) : wheel :=
  match argmin_first (w_probs w) with
  | Some i =>
      let c := fadd (w_curr w) (nth i (w_probs w) 0%Q) in
      Wheel (<[i:=sentinel]> (w_probs w)) (<[i:=w_curr w]> (w_start w))
            (<[i:=c]> (w_end w)) c
  | None => w
  end.

Definition wheel_init (ps : list Q) : wheel :=
  Wheel ps (replicate (length ps) 0%Q) (replicate (length ps) 0%Q) 0%Q.

Definition wheel_passes {ar : arith} (k : nat) (ps : list Q) : wheel :=
  Nat.iter k wheel_pass (wheel_init ps).

(** Where the wheel of [ps] ends: the running total once every slot has
    been given its range. *)
Definition wheel_end {ar : arith} (ps : list Q) : Q :=
  w_curr (wheel_passes (length ps) ps).

(** The wheel [w] is what the store holds at the three references. *)
Definition wheel_at (probs probs_start probs_end : loc) (w : wheel) (s : state)
  : Prop :=
  heap s !! probs = Some (AFloat (w_probs w)) /\
  heap s !! probs_start = Some (AFloat (w_start w)) /\
  heap s !! probs_end = Some (AFloat (w_end w)).

(** [s'] differs from [s] at most in the arrays at [ls]. *)
Definition same_but (ls : list loc) (s s' : state) : Prop :=
  gen s' = gen s /\ log s' = log s /\ cd_calls s' = cd_calls s /\
  length (heap s') = length (heap s) /\
  forall l, l ∉ ls -> heap s' !! l = heap s !! l.

(** The first range that contains [r], in index order. *)
Fixpoint find_from (idxs : list nat) (starts ends : list Q) (r : Q) : option nat :=
  match idxs with
  | [] => None
  | idx :: rest =>
      if Qle_bool (nth idx starts 0%Q) r && Qlt_bool r (nth idx ends 0%Q)
      then Some idx
      else find_from rest starts ends r
  end.

Definition find_range (starts ends : list Q) (r : Q) : option nat :=
  find_from (seq 0 (length starts)) starts ends r.

(** The running total of the wheel before position [a] of the order in
    which the slots were consumed: the probabilities of the slots before,
    added one after the other as the program adds them. *)
Definition psum {ar : arith} (ps : list Q) (order : list nat) (a : nat) : Q :=
  foldl (fun c i => fadd c (nth i ps 0%Q)) 0%Q (take a order).

(** The state of the wheel after the slots [order] were consumed, in this
    order, out of the probabilities [ps]. *)
Record consumed {ar : arith} (ps : list Q) (w : wheel) (order : list nat)
  : Prop := {
  c_nodup : NoDup order;
  c_bound : forall i, i ∈ order -> i < length ps;
  c_len : length (w_probs w) = length ps /\
          length (w_start w) = length ps /\ length (w_end w) = length ps;
  c_done : forall i, i ∈ order -> w_probs w !! i = Some sentinel;
  c_left : forall i, i ∉ order -> w_probs w !! i = ps !! i;
  c_range : forall a i, order !! a = Some i ->
      nth i (w_start w) 0%Q = psum ps order a /\
      nth i (w_end w) 0%Q = psum ps order (S a);
  c_curr : w_curr w = psum ps order (length order);
  c_sorted : forall a b i j, a <= b ->
      order !! a = Some i -> order !! b = Some j ->
      (nth i ps 0 <= nth j ps 0)%Q;
  c_least : forall i j, i ∈ order -> j ∉ order -> j < length ps ->
      (nth i ps 0 <= nth j ps 0)%Q
}.

(** What some results below ask of the rounding: that it is monotone and
    that 0, 1 and any number it has produced are rounded to themselves.
    Rounding to the nearest double is such a rounding ([binary64_rounding]
    below), and so is not rounding at all. *)
Record rounding {ar : arith} : Prop := {
  rnd_mono : forall x y, (x <= y)%Q -> (rnd x <= rnd y)%Q;
  rnd_idem : forall x, (rnd (rnd x) == rnd x)%Q;
  rnd_zero : (rnd 0 == 0)%Q;
  rnd_one : (rnd 1 == 1)%Q
}.

(** What double precision does to a number [s] of at least [2^-1021] that
    it represents, scaled by a factor of at most [1 - 2^-53], the largest
    double below 1: the rounded product is below [s]
    ([binary64_shrinking] below). *)
Definition shrinking {ar : arith} : Prop :=
  forall s u, (2 ^ (-1021) <= s)%Q -> (rnd s == s)%Q ->
    (u <= 1 - 2 ^ (-53))%Q -> (rnd (s * u) < s)%Q.

(** Number of entries strictly below the sentinel. *)
Fixpoint count_below (ps : list Q) : nat :=
  match ps with
  | [] => 0
  | p :: rest => (if Qlt_bool p sentinel then 1 else 0) + count_below rest
  end.

(** Half-open ranges [[start_i, end_i)] that share no point. *)
Definition disjoint_ranges (starts ends : list Q) : Prop :=
  forall i j x, i < length starts -> j < length starts -> i <> j ->
    ~ ((nth i starts 0 <= x)%Q /\ (x < nth i ends 0)%Q /\
       (nth j starts 0 <= x)%Q /\ (x < nth j ends 0)%Q).

Definition widths (starts ends : list Q) : list Q :=
  zip_with Qminus ends starts.

(** The configuration names a gene type whenever [gene_type_single] says
    there is one. *)
Definition wf_ga (self : GA) : Prop :=
  gene_type_single self = true -> gene_type self <> [].

Definition parents_dtype (self : GA) : dtype :=
  if gene_type_single self then default DObject (gene_type self !! 0)
  else DObject.

(** The buffer [empty_parents] allocates. *)
Definition blank_parents (self : GA) (pop : matrix) (n : nat) : array :=
  AGenes (Matrix (parents_dtype self) (m_cols pop) (replicate n None)).

(** [before fs i j]: solution [i] comes before solution [j] when the
    solutions are listed by ascending fitness, equal fitness by ascending
    index. *)
Definition before (fs : list Q) (i j : nat) : Prop :=
  (nth i fs 0 < nth j fs 0)%Q \/ ((nth i fs 0 == nth j fs 0)%Q /\ i < j).

(** [numpy.where(xs == numpy.max(xs))[0][0]] *)
Definition argmax_first (xs : list Q) : option nat :=
  match xs with
  | [] => None
  | x :: rest => head (np_where (np_eq xs (foldl Qmax x rest)))
  end.

(** The [j]-th candidate drawn for parent [p] when [K] are drawn per parent,
    [g] being the generator at the call. *)
Definition candidate (g : rng) (K p j : nat) : nat :=
  r_ints g (r_icount g + p * K + j).

(** [w] is the first of the [K] candidates [cand 0 .. cand (K-1)] that has
    the highest fitness among them. *)
Definition wins (fs : list Q) (cand : nat -> nat) (K : nat) (w : nat) : Prop :=
  exists j, j < K /\ w = cand j /\
    (forall j', j' < K -> (nth (cand j') fs 0 <= nth (cand j) fs 0)%Q) /\
    (forall j', j' < j -> (nth (cand j') fs 0 < nth (cand j) fs 0)%Q).

(** ** Stochastic universal selection, after its wheel is built

    What the method does from the computation of the pointer spacing on,
    given where its three arrays are. *)
Definition sus_sampling {ar : arith} (self : GA)
    (probs probs_start probs_end : loc) (num_parents : nat)
  : M (loc * list nat) :=
  let* pointers_distance := py_inverse (num_parents_mating self) in
  let* first_pointer := np_random_uniform 0 pointers_distance in
  let* parents := empty_parents self num_parents in
  let* parents_indices :=
    for_each (seq 0 num_parents) (fun parent_num parents_indices =>
      let rand_pointer :=
        fadd first_pointer
             (fmul (inject_Z (Z.of_nat parent_num)) pointers_distance) in
      scan_wheel probs probs_start probs_end rand_pointer
        (fun idx parents_indices =>
           let* row := get_row (population self) idx in
           set_row parents parent_num row ;;
           ret (parents_indices ++ [idx]))
        parents_indices) [] in
  ret (parents, parents_indices).

(** The range of slot [idx] contains [r]. *)
Definition contains (starts ends : list Q) (idx : nat) (r : Q) : Prop :=
  (nth idx starts 0 <= r)%Q /\ (r < nth idx ends 0)%Q.

(** The pointers of stochastic universal selection and what they select. *)
Definition sus_pointer {ar : arith} (first distance : Q) (i : nat) : Q :=
  fadd first (fmul (inject_Z (Z.of_nat i)) distance).

Definition sus_indices {ar : arith} (starts ends : list Q) (first distance : Q)
    (n : nat) : list nat :=
  omap (fun i => find_range starts ends (sus_pointer first distance i)) (seq 0 n).

Definition float_division_msg : string := "float division by zero".

(** The call ended in a [ZeroDivisionError]. *)
Definition raises_zde {A} (out : result A * state) : Prop :=
  exists msg, out.1 = Raise (ZeroDivisionError msg).

(** What a selector leaves behind when it refuses a population whose
    fitness sums to zero: the error is logged, nothing else changes. *)
Definition refused (s : state) : state :=
  State (heap s) (gen s) (log s ++ [zero_sum_msg]) (cd_calls s).

(** ** The duel of the NSGA-II tournament *)

(** The parts of what [nsga2.crowding_distance] returns that the selectors
    read. *)
Definition cd_sum (c : crowding) : list (nat * Q) := c.1.1.2.
Definition cd_pop_sorted (c : crowding) : list nat := c.2.

(** The state after one call of [nsga2.crowding_distance], and after one
    draw of a float. *)
Definition counted (s : state) : state :=
  State (heap s) (gen s) (log s) (S (cd_calls s)).

Definition tossed (s : state) : state :=
  set_gen (Rng (r_ints (gen s)) (r_floats (gen s)) (r_icount (gen s))
               (S (r_fcount (gen s)))) s.

(** The candidates drawn for parent [p]. *)
Definition candidates (g : rng) (K p : nat) : list nat :=
  map (candidate g K p) (seq 0 K).

(** Every solution belongs to a front that exists and, unless it is alone
    there, is listed in the crowding-distance results of that front. *)
Definition listed (c : crowding) (x : nat) : bool :=
  match index_from 0 (cd_pop_sorted c) x with
  | Some i => match cd_sum c !! i with Some _ => true | None => false end
  | None => false
  end.

Definition duel_ready (crowding_distance : front -> list (list Q) -> crowding)
    (fit : list (list Q)) (pareto_fronts : list front)
    (solutions_fronts_indices : list nat) : bool :=
  forallb (fun c =>
             match solutions_fronts_indices !! c with
             | Some f =>
                 match pareto_fronts !! f with
                 | Some pf =>
                     (length pf =? 1) || listed (crowding_distance pf fit) c
                 | None => false
                 end
             | None => true
             end)
          (seq 0 (length solutions_fronts_indices)).

(** ** Calls on which every draw of a wheel-based selector finds a range *)

(** [r] lies on the wheel of [ps]: at or after 0 and before its end. *)
Definition on_wheel {ar : arith} (ps : list Q) (r : Q) : Prop :=
  (0 <= r)%Q /\ (r < wheel_end ps)%Q.


(** What the sampling loops of the wheel-based selectors rely on: the three
    arrays of the wheel and an output buffer of [n] rows. *)
Definition sampling (probs probs_start probs_end parents : loc)
    (xs starts ends : list Q) (n : nat) (s : state) : Prop :=
  heap s !! probs = Some (AFloat xs) /\
  heap s !! probs_start = Some (AFloat starts) /\
  heap s !! probs_end = Some (AFloat ends) /\
  exists m, heap s !! parents = Some (AGenes m) /\ length (m_rows m) = n.

(** ** The walk of the front-based selector over the fronts

    What [nsga2_selection] appends to [parents_indices], as a function of
    the fronts and of the number of parents still wanted: a front that fits
    contributes all its solutions, the first front that does not fit
    contributes the head of its crowding-distance order and ends the walk. *)
Fixpoint front_walk (crowding_distance : front -> list (list Q) -> crowding)
    (fit : list (list Q)) (fronts : list front) (remaining : nat) : list nat :=
  match fronts with
  | [] => []
  | current_pareto_front :: rest =>
      if remaining =? 0 then []
      else if length current_pareto_front <=? remaining then
        map fst current_pareto_front
          ++ front_walk crowding_distance fit rest
               (remaining - length current_pareto_front)
      else
        take remaining
             (cd_pop_sorted (crowding_distance current_pareto_front fit))
  end.

(** [calm m]: [m] draws no random number, logs nothing and does not call
    the crowding distance, whatever its outcome. *)
Definition calm {A} (m : M A) : Prop :=
  forall s, gen (m s).2 = gen s /\ log (m s).2 = log s /\
            cd_calls (m s).2 = cd_calls s.

(** * Concrete inputs *)

(** A generator whose every integer is 0 and whose every float is 1/2. *)
Definition demo_rng : rng := Rng (fun _ => 0) (fun _ => (1 # 2)%Q) 0 0.

(** Five one-gene solutions with fitness [3, 1, 4, 1, 5]. *)
Definition demo_population : matrix :=
  Matrix DInt 1 [Some [10%Z]; Some [11%Z]; Some [12%Z]; Some [13%Z]; Some [14%Z]].

Definition demo_state : state :=
  State [AGenes demo_population; AFloat [3 # 1; 1 # 1; 4 # 1; 1 # 1; 5 # 1]%Q]
        demo_rng [] 0.

Definition demo_ga : GA :=
  {| population := 0; gene_type_single := true; gene_type := [DInt];
     sol_per_pop := 5; K_tournament := 2; num_parents_mating := 2 |}.





(** A probability array with an entry above the sentinel. *)
Definition oversized_state : state :=
  State [AGenes demo_population; AFloat [200000000000 # 1; 1 # 1]%Q]
        demo_rng [] 0.

(** Two entries above the sentinel. *)
Definition oversized_pair_state : state :=
  State [AGenes demo_population;
         AFloat [200000000000 # 1; 300000000000 # 1]%Q]
        demo_rng [] 0.

(** The configuration of [demo_ga] with a mating pool of size zero. *)
Definition empty_pool_ga : GA :=
  {| population := 0; gene_type_single := true; gene_type := [DInt];
     sol_per_pop := 5; K_tournament := 2; num_parents_mating := 0 |}.

(** Six solutions with two objectives: solutions 0 and 1 dominate the
    others, solutions 2, 3 and 4 dominate solution 5. *)
Definition six_population : matrix :=
  Matrix DInt 1 [Some [20%Z]; Some [21%Z]; Some [22%Z]; Some [23%Z];
                 Some [24%Z]; Some [25%Z]].

Definition six_fitness : list (list Q) :=
  [[40 # 1; 10 # 1]; [10 # 1; 40 # 1]; [30 # 1; 5 # 1]; [5 # 1; 30 # 1];
   [9 # 1; 9 # 1]; [1 # 1; 1 # 1]]%Q.

Definition six_fronts : list front :=
  [[(0, [40 # 1; 10 # 1]%Q); (1, [10 # 1; 40 # 1]%Q)];
   [(2, [30 # 1; 5 # 1]%Q); (3, [5 # 1; 30 # 1]%Q); (4, [9 # 1; 9 # 1]%Q)];
   [(5, [1 # 1; 1 # 1]%Q)]].

(** A sorting that finds the three fronts of [six_fitness], of sizes 2, 3
    and 1. *)
Definition six_sorting : list (list Q) -> list front * list nat :=
  fun _ => (six_fronts, [0; 0; 1; 1; 1; 2]).

(** A crowding distance that ranks the solutions of a front in the order in
    which the front lists them, the first one the most isolated. *)
Definition listing_crowding : front -> list (list Q) -> crowding :=
  fun pf _ =>
    ([], imap (fun i _ => (i, inject_Z (Z.of_nat (length pf - i)))) pf,
     seq 0 (length pf), map fst pf).

(** The generator draws the solutions 2, 3, 0 and then 0 for ever. *)
Definition six_rng : rng :=
  Rng (fun k => nth k [2; 3; 0] 0) (fun _ => (1 # 2)%Q) 0 0.

Definition six_state : state :=
  State [AGenes six_population; AFloat2 six_fitness] six_rng [] 0.

Definition three_way_ga : GA :=
  {| population := 0; gene_type_single := true; gene_type := [DInt];
     sol_per_pop := 6; K_tournament := 3; num_parents_mating := 1 |}.

Definition two_way_ga : GA :=
  {| population := 0; gene_type_single := true; gene_type := [DInt];
     sol_per_pop := 6; K_tournament := 2; num_parents_mating := 1 |}.

(** Three solutions none of which dominates another: one front. *)
Definition trio_population : matrix :=
  Matrix DInt 1 [Some [30%Z]; Some [31%Z]; Some [32%Z]].

Definition trio_fitness : list (list Q) :=
  [[3 # 1; 1 # 1]; [2 # 1; 2 # 1]; [1 # 1; 3 # 1]]%Q.

Definition trio_sorting : list (list Q) -> list front * list nat :=
  fun _ => ([[(0, [3 # 1; 1 # 1]%Q); (1, [2 # 1; 2 # 1]%Q);
              (2, [1 # 1; 3 # 1]%Q)]],
            [0; 0; 0]).

Definition trio_state : state :=
  State [AGenes trio_population; AFloat2 trio_fitness] demo_rng [] 0.

Definition trio_ga : GA :=
  {| population := 0; gene_type_single := true; gene_type := [DInt];
     sol_per_pop := 3; K_tournament := 2; num_parents_mating := 2 |}.

(** A tournament of one candidate per parent. *)
Definition one_way_ga : GA :=
  {| population := 0; gene_type_single := true; gene_type := [DInt];
     sol_per_pop := 6; K_tournament := 1; num_parents_mating := 1 |}.

(** A population without solutions. *)
Definition barren_state : state :=
  State [AGenes (Matrix DInt 1 []); AFloat []] demo_rng [] 0.

(** Three probabilities, each the float nearest to its decimal: they add up
    to 1 in floating point whichever way they are added. *)
Definition tenths : list Q := map binary64 [23 # 100; 68 # 100; 9 # 100]%Q.

Definition tenths_state : state :=
  State [AGenes demo_population; AFloat tenths] demo_rng [] 0.

(** A generator whose every float is the largest below 1. *)
Definition brink_rng : rng :=
  Rng (fun _ => 0) (fun _ => (1 - 1 / 2 ^ 53)%Q) 0 0.

(** Four solutions with fitness [1, 2, 2, 2]. *)
Definition brink_state : state :=
  State [AGenes demo_population; AFloat [1 # 1; 2 # 1; 2 # 1; 2 # 1]%Q]
        brink_rng [] 0.

Definition brink_ga : GA :=
  {| population := 0; gene_type_single := true; gene_type := [DInt];
     sol_per_pop := 4; K_tournament := 2; num_parents_mating := 1 |}.

(** Six solutions and the same generator. *)
Definition sextet_state : state :=
  State [AGenes six_population;
         AFloat [1 # 1; 2 # 1; 2 # 1; 2 # 1; 3 # 1; 4 # 1]%Q]
        brink_rng [] 0.

Definition sextet_ga : GA :=
  {| population := 0; gene_type_single := true; gene_type := [DInt];
     sol_per_pop := 6; K_tournament := 2; num_parents_mating := 1 |}.

(** A fitness whose sum in floating point is zero, the 1 being lost when it
    is added to [10^16]. *)
Definition absorbed_state : state :=
  State [AGenes demo_population;
         AFloat [10000000000000000 # 1; 1 # 1; -10000000000000000 # 1]%Q]
        demo_rng [] 0.

(** An integer fitness whose sum, [2^64], wraps around to zero. *)
Definition wrapped_state : state :=
  State [AGenes demo_population;
         AFloat [9223372036854775807 # 1; 9223372036854775807 # 1; 2 # 1]%Q]
        demo_rng [] 0.

(** One solution of fitness 1, a mating pool of 49 and a generator whose
    every float is 0. *)
Definition crowded_state : state :=
  State [AGenes (Matrix DInt 1 [Some [7%Z]]); AFloat [1 # 1]%Q]
        (Rng (fun _ => 0) (fun _ => 0%Q) 0 0) [] 0.

Definition crowded_ga : GA :=
  {| population := 0; gene_type_single := true; gene_type := [DInt];
     sol_per_pop := 1; K_tournament := 2; num_parents_mating := 49 |}.

(** * Reasoning rules *)

Lemma wp_ret {A} (a : A) s Q : Q (Ok a) s -> wp (ret a) s Q.
Proof. done. Qed.

Lemma wp_raise {A} e s (Q : result A -> state -> Prop) :
  Q (Raise e) s -> wp (raise e) s Q.
Proof. done. Qed.

Lemma wp_bind {A B} (m : M A) (f : A -> M B) s Q :
  wp m s (fun r s1 => match r with
                      | Ok a => wp (f a) s1 Q
                      | Raise e => Q (Raise e) s1
                      end) ->
  wp (bind m f) s Q.
Proof. unfold wp, bind. by destruct (m s) as [[a|e] s1]. Qed.

Lemma wp_mono {A} (m : M A) s (Q Q' : result A -> state -> Prop) :
  wp m s Q -> (forall r s', Q r s' -> Q' r s') -> wp m s Q'.
Proof. unfold wp. auto. Qed.

Lemma wp_run {A} (m : M A) s r s' Q : wp m s Q -> m s = (r, s') -> Q r s'.
Proof. unfold wp. intros H E. by rewrite E in H. Qed.

(** ** Framing *)

Section FrameRules.
Context (h0 : list array).

Lemma frames_ret {A} (a : A) (φ : A -> Prop) : φ a -> frames h0 (ret a) φ.
Proof. intros H s Hs. split; [done|]. by intros a' [= <-]. Qed.

Lemma frames_raise {A} e (φ : A -> Prop) : frames h0 (raise e) φ.
Proof. intros s Hs. by split. Qed.

Lemma frames_bind {A B} (m : M A) (f : A -> M B) φ ψ :
  frames h0 m φ -> (forall a, φ a -> frames h0 (f a) ψ) ->
  frames h0 (bind m f) ψ.
Proof.
  intros Hm Hf s Hs. destruct (Hm s Hs) as [H1 H2]. unfold bind.
  destruct (m s) as [[a|e] s1]; simpl in *; [|by split].
  by apply Hf; [apply H2|].
Qed.

Lemma frames_weaken {A} (m : M A) (φ ψ : A -> Prop) :
  frames h0 m φ -> (forall a, φ a -> ψ a) -> frames h0 m ψ.
Proof. intros Hm Hw s Hs. destruct (Hm s Hs). split; auto. Qed.

Lemma frames_any {A} (m : M A) (φ : A -> Prop) : frames h0 m φ -> frames h0 m any.
Proof. intros H. by apply (frames_weaken m φ). Qed.

Lemma frames_alloc a : frames h0 (alloc a) (fresh h0).
Proof.
  intros s Hs. split; simpl.
  - by apply prefix_app_r.
  - intros l [= <-]. by apply prefix_length.
Qed.

Lemma frames_load l : frames h0 (load l) any.
Proof. intros s Hs. unfold load. by destruct (heap s !! l). Qed.

Lemma frames_store l a : fresh h0 l -> frames h0 (store l a) any.
Proof.
  intros Hl s [k Hk]. split; [|done]. simpl. unfold keeps. simpl.
  rewrite Hk, insert_app_r_alt by done. by eexists.
Qed.

Lemma frames_list_get {A} (xs : list A) i : frames h0 (list_get xs i) any.
Proof. unfold list_get. destruct (xs !! i); [by apply frames_ret | apply frames_raise]. Qed.

Lemma frames_state_only {A} (m : M A) (φ : A -> Prop) :
  (forall s, heap (m s).2 = heap s) -> (forall s a, (m s).1 = Ok a -> φ a) ->
  frames h0 m φ.
Proof. intros H1 H2 s Hs. unfold keeps. rewrite H1. eauto. Qed.

End FrameRules.

Create HintDb frames discriminated.
#[local] Hint Resolve frames_alloc frames_load frames_store frames_list_get
  frames_raise : frames.

(** One step of a framing proof: split a sequence, or case on a test. *)
Ltac frames_step :=
  lazymatch goal with
  | |- frames _ (bind _ _) _ => eapply frames_bind; [ | intros ? ? ]
  | |- frames _ (ret _) ?φ =>
      first [ is_evar φ; refine (frames_ret _ _ any I)
            | apply frames_ret; first [ exact I | idtac ] ]
  | |- frames _ (raise _) _ => apply frames_raise
  | |- frames _ (if ?b then _ else _) _ => destruct b
  | |- frames _ (match ?x with _ => _ end) _ => destruct x
  | |- frames _ _ any => solve [ eauto with frames | eapply frames_any; eauto with frames ]
  | |- frames _ _ _ => solve [ eauto with frames ]
  end.

Ltac frames_go := repeat frames_step.

Section FrameOps.
Context {ar : arith} (h0 : list array).

Lemma frames_load_floats l : frames h0 (load_floats l) any.
Proof. unfold load_floats. frames_go. Qed.

Lemma frames_load_genes l : frames h0 (load_genes l) any.
Proof. unfold load_genes. frames_go. Qed.

Lemma frames_load_floats2 l : frames h0 (load_floats2 l) any.
Proof. unfold load_floats2. frames_go. Qed.

Hint Resolve frames_load_floats frames_load_genes frames_load_floats2 : frames.

Lemma frames_get_item l i : frames h0 (get_item l i) any.
Proof. unfold get_item. frames_go. Qed.

Lemma frames_set_item l i v : fresh h0 l -> frames h0 (set_item l i v) any.
Proof. intros. unfold set_item. frames_go. Qed.

Lemma frames_get_row l i : frames h0 (get_row l i) any.
Proof. unfold get_row. frames_go. Qed.

Lemma frames_set_row l i r : fresh h0 l -> frames h0 (set_row l i r) any.
Proof. intros. unfold set_row. frames_go. Qed.

Lemma frames_np_len l : frames h0 (np_len l) any.
Proof. unfold np_len. frames_go. Qed.

Lemma frames_np_zeros n : frames h0 (np_zeros n) (fresh h0).
Proof. apply frames_alloc. Qed.

Lemma frames_np_empty r c dt : frames h0 (np_empty r c dt) (fresh h0).
Proof. apply frames_alloc. Qed.

Lemma frames_np_copy l : frames h0 (np_copy l) (fresh h0).
Proof. unfold np_copy. frames_go. Qed.

Lemma frames_np_min xs : frames h0 (np_min xs) any.
Proof. unfold np_min. frames_go. Qed.

Lemma frames_np_max xs : frames h0 (np_max xs) any.
Proof. unfold np_max. frames_go. Qed.

Lemma frames_next_float : frames h0 next_float any.
Proof. by apply frames_state_only. Qed.

Lemma frames_draw_ints k : frames h0 (draw_ints k) any.
Proof. by apply frames_state_only. Qed.

Lemma frames_logger_error msg : frames h0 (logger_error msg) any.
Proof. by apply frames_state_only. Qed.

Hint Resolve frames_get_item frames_set_item frames_get_row frames_set_row
  frames_np_len frames_np_zeros frames_np_empty frames_np_copy frames_np_min
  frames_np_max frames_next_float frames_draw_ints frames_logger_error : frames.

Lemma frames_np_random_rand : frames h0 np_random_rand any.
Proof. apply frames_next_float. Qed.

Lemma frames_np_random_uniform lo hi : frames h0 (np_random_uniform lo hi) any.
Proof. unfold np_random_uniform. frames_go. Qed.

Lemma frames_np_random_randint high size :
  frames h0 (np_random_randint high size) any.
Proof. unfold np_random_randint. frames_go. Qed.

Lemma frames_np_random_randint2 high rows cols :
  frames h0 (np_random_randint2 high rows cols) any.
Proof. unfold np_random_randint2. frames_go. Qed.

Lemma frames_py_inverse n : frames h0 (py_inverse n) any.
Proof. unfold py_inverse. frames_go. Qed.

Lemma frames_list_index l x : frames h0 (list_index l x) any.
Proof. unfold list_index. frames_go. Qed.

Lemma frames_read_sol_idx st : frames h0 (read_sol_idx st) any.
Proof. unfold read_sol_idx. frames_go. Qed.

Lemma frames_for_each {A V} (xs : list A) (body : A -> V -> M V) v :
  (forall x v, frames h0 (body x v) any) -> frames h0 (for_each xs body v) any.
Proof.
  intros Hb. revert v. induction xs as [|x xs IH]; intros v; simpl.
  - by apply frames_ret.
  - eapply frames_bind; [apply Hb | intros; apply IH].
Qed.

Lemma frames_for_break {A V} (xs : list A) (body : A -> V -> M (V * bool)) v :
  (forall x v, frames h0 (body x v) any) -> frames h0 (for_break xs body v) any.
Proof.
  intros Hb. revert v. induction xs as [|x xs IH]; intros v; simpl.
  - by apply frames_ret.
  - eapply frames_bind; [apply Hb | intros [v' []] _]; [by apply frames_ret | apply IH].
Qed.

Lemma frames_mapM {A B} (f : A -> M B) xs :
  (forall x, frames h0 (f x) any) -> frames h0 (mapM f xs) any.
Proof.
  intros Hf. induction xs as [|x xs IH]; simpl.
  - by apply frames_ret.
  - eapply frames_bind; [apply Hf | intros].
    eapply frames_bind; [apply IH | intros]. by apply frames_ret.
Qed.

Lemma frames_py_and a b :
  frames h0 a any -> frames h0 b any -> frames h0 (py_and a b) any.
Proof. intros. unfold py_and. frames_go. Qed.

Hint Resolve frames_np_random_rand frames_np_random_uniform
  frames_np_random_randint frames_np_random_randint2 frames_py_inverse
  frames_list_index frames_read_sol_idx : frames.

Lemma frames_np_take l idxs : frames h0 (np_take l idxs) any.
Proof.
  unfold np_take. frames_go. apply frames_mapM. intros. apply frames_list_get.
Qed.

Lemma frames_empty_parents self n : frames h0 (empty_parents self n) (fresh h0).
Proof. unfold empty_parents. frames_go. Qed.

Hint Resolve frames_np_take frames_empty_parents : frames.

Lemma frames_wheel_step probs ps pe curr :
  fresh h0 probs -> fresh h0 ps -> fresh h0 pe ->
  frames h0 (wheel_step probs ps pe curr) any.
Proof. intros. unfold wheel_step. frames_go. Qed.

Lemma frames_wheel_cumulative_probs self probs n :
  fresh h0 probs -> frames h0 (wheel_cumulative_probs self probs n) (fresh3 h0).
Proof.
  intros. unfold wheel_cumulative_probs. frames_go.
  - apply frames_for_each. intros. by apply frames_wheel_step.
  - by unfold fresh3.
Qed.

Lemma frames_scan_wheel {V} probs ps pe r (on_hit : nat -> V -> M V) v :
  (forall idx v, frames h0 (on_hit idx v) any) ->
  frames h0 (scan_wheel probs ps pe r on_hit v) any.
Proof.
  intros Hh. unfold scan_wheel. frames_go.
  apply frames_for_break. intros. frames_go.
  apply frames_py_and; frames_go.
Qed.

End FrameOps.

#[local] Hint Resolve frames_load_floats frames_load_genes frames_load_floats2
  frames_get_item frames_set_item frames_get_row frames_set_row
  frames_np_len frames_np_zeros frames_np_empty frames_np_copy frames_np_min
  frames_np_max frames_next_float frames_draw_ints frames_logger_error
  frames_np_random_rand frames_np_random_uniform
  frames_np_random_randint frames_np_random_randint2 frames_py_inverse
  frames_list_index frames_read_sol_idx frames_np_take frames_empty_parents
  : frames.

(** Framing proofs for whole methods: loops are entered as well. *)
Ltac frames_auto :=
  repeat first
    [ lazymatch goal with
      | |- frames _ (for_each _ _ _) _ => apply frames_for_each; intros
      | |- frames _ (for_break _ _ _) _ => apply frames_for_break; intros
      | |- frames _ (mapM _ _) _ => apply frames_mapM; intros
      | |- frames _ (py_and _ _) _ => apply frames_py_and
      | |- frames _ (scan_wheel _ _ _ _ _ _) _ => apply frames_scan_wheel; intros
      | |- frames _ (wheel_step _ _ _ _) _ => apply frames_wheel_step
      | |- frames _ (wheel_cumulative_probs _ _ _) _ =>
          apply frames_wheel_cumulative_probs
      | |- frames _ (list_get _ _) _ => apply frames_list_get
      | H : fresh3 _ _ |- _ => destruct H as (? & ? & ?); simpl in *
      | |- fresh_parents _ _ => unfold fresh_parents; simpl; assumption
      | |- fresh _ _ => assumption
      end
    | frames_step ].

Section FrameSelectors.
Context {ar : arith} (h0 : list array) (self : GA) (fitness : loc) (num_parents : nat).

Lemma frames_steady_state_selection :
  frames h0 (steady_state_selection self fitness num_parents) (fresh_parents h0).
Proof.
  unfold steady_state_selection. frames_auto.
Qed.

Lemma frames_random_selection :
  frames h0 (random_selection self fitness num_parents) (fresh_parents h0).
Proof.
  unfold random_selection. frames_auto.
Qed.

Lemma frames_tournament_selection :
  frames h0 (tournament_selection self fitness num_parents) (fresh_parents h0).
Proof.
  unfold tournament_selection. frames_auto.
Qed.

Lemma frames_rank_selection :
  frames h0 (rank_selection self fitness num_parents) (fresh_parents h0).
Proof.
  unfold rank_selection. frames_auto.
Qed.

Lemma frames_roulette_wheel_selection :
  frames h0 (roulette_wheel_selection self fitness num_parents) (fresh_parents h0).
Proof.
  unfold roulette_wheel_selection. frames_auto.
Qed.

Lemma frames_stochastic_universal_selection :
  frames h0 (stochastic_universal_selection self fitness num_parents)
         (fresh_parents h0).
Proof.
  unfold stochastic_universal_selection. frames_auto.
Qed.

Context (non_dominated_sorting : list (list Q) -> list front * list nat)
        (crowding_distance : front -> list (list Q) -> crowding).

Lemma frames_call_crowding_distance pf fit :
  frames h0 (call_crowding_distance crowding_distance pf fit) any.
Proof. by apply frames_state_only. Qed.

Hint Resolve frames_call_crowding_distance : frames.

Lemma frames_nsga2_duel fit fronts sfi cur :
  frames h0 (nsga2_duel crowding_distance fit fronts sfi cur) any.
Proof.
  unfold nsga2_duel. frames_auto.
Qed.

Lemma frames_tournament_selection_nsga2 :
  frames h0 (tournament_selection_nsga2 non_dominated_sorting crowding_distance
               self fitness num_parents) (fresh_parents h0).
Proof.
  unfold tournament_selection_nsga2. frames_auto.
  apply frames_nsga2_duel.
Qed.

Lemma frames_nsga2_while parents fit fronts st :
  fresh h0 parents ->
  frames h0 (nsga2_while crowding_distance self fit parents fronts st) any.
Proof.
  intros Hp. revert st. induction fronts as [|cur rest IH]; intros st; simpl.
  - by apply frames_ret.
  - frames_auto; apply IH.
Qed.

Lemma frames_nsga2_selection :
  frames h0 (nsga2_selection non_dominated_sorting crowding_distance
               self fitness num_parents) (fresh_parents h0).
Proof.
  unfold nsga2_selection. frames_auto.
  by apply frames_nsga2_while.
Qed.

Lemma frames_run_selector sel :
  frames h0 (run_selector non_dominated_sorting crowding_distance sel
               self fitness num_parents) (fresh_parents h0).
Proof.
  destruct sel; simpl.
  - apply frames_steady_state_selection.
  - apply frames_random_selection.
  - apply frames_rank_selection.
  - apply frames_roulette_wheel_selection.
  - apply frames_tournament_selection.
  - apply frames_stochastic_universal_selection.
  - apply frames_tournament_selection_nsga2.
  - apply frames_nsga2_selection.
Qed.

End FrameSelectors.

(** ** Computations that neither log nor divide by zero *)

Lemma quiet_ret {A} (a : A) : quiet (ret a).
Proof. intros s. split; [done|]. by intros e [=]. Qed.

Lemma quiet_raise {A} e : ~ is_zde e -> quiet (@raise A e).
Proof. intros H s. split; [done|]. by intros e' [= <-]. Qed.

Lemma quiet_bind {A B} (m : M A) (f : A -> M B) :
  quiet m -> (forall a, quiet (f a)) -> quiet (bind m f).
Proof.
  intros Hm Hf s. destruct (Hm s) as [H1 H2]. unfold bind.
  destruct (m s) as [[a|e] s1]; simpl in *.
  - destruct (Hf a s1) as [H3 H4]. split; [congruence | done].
  - split; [done|]. intros e' [= <-]. by apply H2.
Qed.

Lemma quiet_state_only {A} (m : M A) :
  (forall s, log (m s).2 = log s) -> (forall s, exists a, (m s).1 = Ok a) ->
  quiet m.
Proof.
  intros H1 H2 s. split; [done|]. intros e He. destruct (H2 s) as [a Ha].
  congruence.
Qed.

Lemma not_zde_IndexError : ~ is_zde IndexError.
Proof. by intros [? ?]. Qed.
Lemma not_zde_ValueError : ~ is_zde ValueError.
Proof. by intros [? ?]. Qed.
Lemma not_zde_TypeError : ~ is_zde TypeError.
Proof. by intros [? ?]. Qed.
Lemma not_zde_UnboundLocalError : ~ is_zde UnboundLocalError.
Proof. by intros [? ?]. Qed.

Create HintDb quiet discriminated.
#[local] Hint Resolve not_zde_IndexError not_zde_ValueError not_zde_TypeError
  not_zde_UnboundLocalError quiet_ret quiet_raise : quiet.

Lemma quiet_alloc a : quiet (alloc a).
Proof. apply quiet_state_only; eauto. Qed.

Lemma quiet_load l : quiet (load l).
Proof.
  intros s. unfold load. destruct (heap s !! l); simpl; split; try done.
  intros e [= <-]. apply not_zde_TypeError.
Qed.

Lemma quiet_store l a : quiet (store l a).
Proof. apply quiet_state_only; eauto. Qed.

Lemma quiet_list_get {A} (xs : list A) i : quiet (list_get xs i).
Proof. unfold list_get. destruct (xs !! i); eauto with quiet. Qed.

Lemma quiet_next_float : quiet next_float.
Proof. apply quiet_state_only; eauto. Qed.

Lemma quiet_draw_ints k : quiet (draw_ints k).
Proof. apply quiet_state_only; eauto. Qed.

#[local] Hint Resolve quiet_alloc quiet_load quiet_store quiet_list_get
  quiet_next_float quiet_draw_ints : quiet.

Lemma quiet_for_each {A V} (xs : list A) (body : A -> V -> M V) v :
  (forall x v, quiet (body x v)) -> quiet (for_each xs body v).
Proof.
  intros Hb. revert v. induction xs as [|x xs IH]; intros v; simpl.
  - apply quiet_ret.
  - apply quiet_bind; [apply Hb | intros; apply IH].
Qed.

Lemma quiet_for_break {A V} (xs : list A) (body : A -> V -> M (V * bool)) v :
  (forall x v, quiet (body x v)) -> quiet (for_break xs body v).
Proof.
  intros Hb. revert v. induction xs as [|x xs IH]; intros v; simpl.
  - apply quiet_ret.
  - apply quiet_bind; [apply Hb | intros [v' []]]; [apply quiet_ret | apply IH].
Qed.

Lemma quiet_mapM {A B} (f : A -> M B) xs :
  (forall x, quiet (f x)) -> quiet (mapM f xs).
Proof.
  intros Hf. induction xs as [|x xs IH]; simpl.
  - apply quiet_ret.
  - apply quiet_bind; [apply Hf | intros].
    apply quiet_bind; [apply IH | intros]. apply quiet_ret.
Qed.

Lemma quiet_py_and a b : quiet a -> quiet b -> quiet (py_and a b).
Proof.
  intros Ha Hb. unfold py_and. apply quiet_bind; [done|].
  intros []; [done | apply quiet_ret].
Qed.

(** Quietness is a matter of syntax: walk through the program. *)
Ltac quiet_auto :=
  repeat first
    [ lazymatch goal with
      | |- quiet (bind _ _) => apply quiet_bind; [ | intros ? ]
      | |- quiet (ret _) => apply quiet_ret
      | |- quiet (raise _) => apply quiet_raise; eauto with quiet
      | |- quiet (for_each _ _ _) => apply quiet_for_each; intros
      | |- quiet (for_break _ _ _) => apply quiet_for_break; intros
      | |- quiet (mapM _ _) => apply quiet_mapM; intros
      | |- quiet (py_and _ _) => apply quiet_py_and
      | |- quiet (if ?b then _ else _) => destruct b
      | |- quiet (match ?x with _ => _ end) => destruct x
      end
    | solve [ eauto with quiet ] ].

Lemma quiet_load_floats l : quiet (load_floats l).
Proof. unfold load_floats. quiet_auto. Qed.
Lemma quiet_load_genes l : quiet (load_genes l).
Proof. unfold load_genes. quiet_auto. Qed.
Lemma quiet_load_floats2 l : quiet (load_floats2 l).
Proof. unfold load_floats2. quiet_auto. Qed.
#[local] Hint Resolve quiet_load_floats quiet_load_genes quiet_load_floats2 : quiet.

Lemma quiet_get_item l i : quiet (get_item l i).
Proof. unfold get_item. quiet_auto. Qed.
Lemma quiet_set_item l i v : quiet (set_item l i v).
Proof. unfold set_item. quiet_auto. Qed.
Lemma quiet_get_row l i : quiet (get_row l i).
Proof. unfold get_row. quiet_auto. Qed.
Lemma quiet_set_row l i r : quiet (set_row l i r).
Proof. unfold set_row. quiet_auto. Qed.
Lemma quiet_np_len l : quiet (np_len l).
Proof. unfold np_len. quiet_auto. Qed.
Lemma quiet_np_zeros n : quiet (np_zeros n).
Proof. apply quiet_alloc. Qed.
Lemma quiet_np_empty r c dt : quiet (np_empty r c dt).
Proof. apply quiet_alloc. Qed.
Lemma quiet_np_copy l : quiet (np_copy l).
Proof. unfold np_copy. quiet_auto. Qed.
Lemma quiet_np_min xs : quiet (np_min xs).
Proof. unfold np_min. quiet_auto. Qed.
Lemma quiet_np_max xs : quiet (np_max xs).
Proof. unfold np_max. quiet_auto. Qed.
Lemma quiet_np_random_rand : quiet np_random_rand.
Proof. apply quiet_next_float. Qed.
Lemma quiet_np_random_uniform {ar : arith} lo hi : quiet (np_random_uniform lo hi).
Proof. unfold np_random_uniform. quiet_auto. Qed.
Lemma quiet_np_random_randint high size : quiet (np_random_randint high size).
Proof. unfold np_random_randint. quiet_auto. Qed.
Lemma quiet_np_random_randint2 high rows cols :
  quiet (np_random_randint2 high rows cols).
Proof. unfold np_random_randint2. quiet_auto. Qed.
Lemma quiet_list_index l x : quiet (list_index l x).
Proof. unfold list_index. quiet_auto. Qed.
Lemma quiet_read_sol_idx st : quiet (read_sol_idx st).
Proof. unfold read_sol_idx. quiet_auto. Qed.

#[local] Hint Resolve quiet_get_item quiet_set_item quiet_get_row quiet_set_row
  quiet_np_len quiet_np_zeros quiet_np_empty quiet_np_copy quiet_np_min
  quiet_np_max quiet_np_random_rand quiet_np_random_uniform
  quiet_np_random_randint quiet_np_random_randint2 quiet_list_index
  quiet_read_sol_idx : quiet.

Lemma quiet_py_inverse {ar : arith} n : n <> 0 -> quiet (py_inverse n).
Proof.
  intros Hn. unfold py_inverse. destruct (Nat.eqb_spec n 0); [done|].
  apply quiet_ret.
Qed.

Lemma quiet_np_take l idxs : quiet (np_take l idxs).
Proof. unfold np_take. quiet_auto. Qed.

Lemma quiet_empty_parents self n : quiet (empty_parents self n).
Proof. unfold empty_parents. quiet_auto. Qed.

Lemma quiet_wheel_step {ar : arith} probs ps pe curr : quiet (wheel_step probs ps pe curr).
Proof. unfold wheel_step. quiet_auto. Qed.

#[local] Hint Resolve quiet_np_take quiet_empty_parents quiet_wheel_step
  : quiet.

Lemma quiet_wheel_cumulative_probs {ar : arith} self probs n :
  quiet (wheel_cumulative_probs self probs n).
Proof. unfold wheel_cumulative_probs. quiet_auto. Qed.

Lemma quiet_scan_wheel {V} probs ps pe r (on_hit : nat -> V -> M V) v :
  (forall idx v, quiet (on_hit idx v)) ->
  quiet (scan_wheel probs ps pe r on_hit v).
Proof. intros Hh. unfold scan_wheel. quiet_auto. Qed.

#[local] Hint Resolve quiet_wheel_cumulative_probs : quiet.

Section QuietSelectors.
Context {ar : arith} (self : GA) (fitness : loc) (num_parents : nat).

Lemma quiet_steady_state_selection :
  quiet (steady_state_selection self fitness num_parents).
Proof. unfold steady_state_selection. quiet_auto. Qed.

Lemma quiet_random_selection :
  quiet (random_selection self fitness num_parents).
Proof. unfold random_selection. quiet_auto. Qed.

Lemma quiet_tournament_selection :
  quiet (tournament_selection self fitness num_parents).
Proof. unfold tournament_selection. quiet_auto. Qed.

Lemma quiet_rank_selection :
  quiet (rank_selection self fitness num_parents).
Proof.
  unfold rank_selection. quiet_auto. apply quiet_scan_wheel. intros. quiet_auto.
Qed.

Context (non_dominated_sorting : list (list Q) -> list front * list nat)
        (crowding_distance : front -> list (list Q) -> crowding).

Lemma quiet_call_crowding_distance pf fit :
  quiet (call_crowding_distance crowding_distance pf fit).
Proof. apply quiet_state_only; eauto. Qed.

Hint Resolve quiet_call_crowding_distance : quiet.

Lemma quiet_nsga2_duel fit fronts sfi cur :
  quiet (nsga2_duel crowding_distance fit fronts sfi cur).
Proof. unfold nsga2_duel. quiet_auto. Qed.

Hint Resolve quiet_nsga2_duel : quiet.

Lemma quiet_tournament_selection_nsga2 :
  quiet (tournament_selection_nsga2 non_dominated_sorting crowding_distance
           self fitness num_parents).
Proof. unfold tournament_selection_nsga2. quiet_auto. Qed.

Lemma quiet_nsga2_while parents fit fronts st :
  quiet (nsga2_while crowding_distance self fit parents fronts st).
Proof.
  revert st. induction fronts as [|cur rest IH]; intros st; simpl.
  - apply quiet_ret.
  - quiet_auto; apply IH.
Qed.

Lemma quiet_nsga2_selection :
  quiet (nsga2_selection non_dominated_sorting crowding_distance
           self fitness num_parents).
Proof. unfold nsga2_selection. quiet_auto. apply quiet_nsga2_while. Qed.

End QuietSelectors.

(** ** Weakest preconditions of the primitives *)

Lemma wp_alloc a s Q :
  Q (Ok (length (heap s))) (set_heap (heap s ++ [a]) s) -> wp (alloc a) s Q.
Proof. done. Qed.

Lemma wp_load l s Q :
  match heap s !! l with
  | Some a => Q (Ok a) s
  | None => Q (Raise TypeError) s
  end -> wp (load l) s Q.
Proof. unfold wp, load. by destruct (heap s !! l). Qed.

Lemma wp_store l a s Q :
  Q (Ok tt) (set_heap (<[l:=a]> (heap s)) s) -> wp (store l a) s Q.
Proof. done. Qed.

Lemma wp_load_floats l s Q :
  match heap s !! l with
  | Some (AFloat xs) => Q (Ok xs) s
  | _ => Q (Raise TypeError) s
  end -> wp (load_floats l) s Q.
Proof. unfold wp, load_floats, bind, load. by destruct (heap s !! l) as [[]|]. Qed.

Lemma wp_load_genes l s Q :
  match heap s !! l with
  | Some (AGenes m) => Q (Ok m) s
  | _ => Q (Raise TypeError) s
  end -> wp (load_genes l) s Q.
Proof. unfold wp, load_genes, bind, load. by destruct (heap s !! l) as [[]|]. Qed.

Lemma wp_load_floats2 l s Q :
  match heap s !! l with
  | Some (AFloat2 rows) => Q (Ok rows) s
  | _ => Q (Raise TypeError) s
  end -> wp (load_floats2 l) s Q.
Proof. unfold wp, load_floats2, bind, load. by destruct (heap s !! l) as [[]|]. Qed.

Lemma wp_list_get {A} (xs : list A) i s Q :
  match xs !! i with
  | Some x => Q (Ok x) s
  | None => Q (Raise IndexError) s
  end -> wp (list_get xs i) s Q.
Proof. unfold wp, list_get. by destruct (xs !! i). Qed.

Lemma wp_get_item l i s Q :
  match heap s !! l with
  | Some (AFloat xs) =>
      match xs !! i with
      | Some x => Q (Ok x) s
      | None => Q (Raise IndexError) s
      end
  | _ => Q (Raise TypeError) s
  end -> wp (get_item l i) s Q.
Proof.
  intros H. unfold get_item. apply wp_bind, wp_load_floats.
  destruct (heap s !! l) as [[]|]; try done. by apply wp_list_get.
Qed.

Lemma wp_set_item l i v s Q :
  match heap s !! l with
  | Some (AFloat xs) =>
      if i <? length xs
      then Q (Ok tt) (set_heap (<[l:=AFloat (<[i:=v]> xs)]> (heap s)) s)
      else Q (Raise IndexError) s
  | _ => Q (Raise TypeError) s
  end -> wp (set_item l i v) s Q.
Proof.
  intros H. unfold set_item. apply wp_bind, wp_load_floats.
  destruct (heap s !! l) as [[]|]; try done. by destruct (i <? length xs).
Qed.

Lemma wp_get_row l i s Q :
  match heap s !! l with
  | Some (AGenes m) =>
      match m_rows m !! i with
      | Some x => Q (Ok x) s
      | None => Q (Raise IndexError) s
      end
  | _ => Q (Raise TypeError) s
  end -> wp (get_row l i) s Q.
Proof.
  intros H. unfold get_row. apply wp_bind, wp_load_genes.
  destruct (heap s !! l) as [[]|]; try done. by apply wp_list_get.
Qed.

Lemma wp_set_row l i row s Q :
  match heap s !! l with
  | Some (AGenes m) =>
      if i <? length (m_rows m)
      then Q (Ok tt)
             (set_heap (<[l:=AGenes (Matrix (m_dtype m) (m_cols m)
                                            (<[i:=row]> (m_rows m)))]> (heap s)) s)
      else Q (Raise IndexError) s
  | _ => Q (Raise TypeError) s
  end -> wp (set_row l i row) s Q.
Proof.
  intros H. unfold set_row. apply wp_bind, wp_load_genes.
  destruct (heap s !! l) as [[]|]; try done. by destruct (i <? length (m_rows m)).
Qed.

Lemma wp_np_len l s Q :
  match heap s !! l with
  | Some (AFloat xs) => Q (Ok (length xs)) s
  | _ => Q (Raise TypeError) s
  end -> wp (np_len l) s Q.
Proof.
  intros H. unfold np_len. apply wp_bind, wp_load_floats.
  by destruct (heap s !! l) as [[]|].
Qed.

(** Loops, with an invariant indexed by the number of completed passes. *)
Lemma wp_for_each {A V} (I : nat -> V -> state -> Prop)
    (xs : list A) (body : A -> V -> M V) v s Q :
  I 0 v s ->
  (forall k x v s, xs !! k = Some x -> I k v s ->
     wp (body x v) s (fun r s' => match r with
                                  | Ok v' => I (S k) v' s'
                                  | Raise e => Q (Raise e) s'
                                  end)) ->
  (forall v s, I (length xs) v s -> Q (Ok v) s) ->
  wp (for_each xs body v) s Q.
Proof.
  revert I v s. induction xs as [|x xs IH]; intros I v s H0 Hstep Hend; simpl.
  - by apply Hend.
  - apply wp_bind. eapply wp_mono; [by apply (Hstep 0 x)|].
    intros [v'|e] s' H; simpl in *; [|done].
    apply (IH (fun k => I (S k))); [done| |done].
    intros k y v1 s1 Hy. by apply (Hstep (S k)).
Qed.


(** A computation that only inspects the state. *)
Lemma wp_mapM_list_get {A} (xs : list A) idxs s Q :
  (forall ys, Forall2 (fun i y => xs !! i = Some y) idxs ys -> Q (Ok ys) s) ->
  (Exists (fun i => xs !! i = None) idxs -> Q (Raise IndexError) s) ->
  wp (mapM (list_get xs) idxs) s Q.
Proof.
  revert Q. induction idxs as [|i idxs IH]; intros Q Hok Herr; simpl.
  - apply wp_ret, Hok. constructor.
  - apply wp_bind, wp_list_get. destruct (xs !! i) as [y|] eqn:E.
    + apply wp_bind, IH.
      * intros ys Hys. apply wp_ret, Hok. by constructor.
      * intros Hex. apply Herr. by right.
    + apply Herr. by left.
Qed.

(** ** Computations that leave the store alone *)

Lemma reads_ret {A} (a : A) : reads (ret a).
Proof. done. Qed.

Lemma reads_raise {A} e : reads (@raise A e).
Proof. done. Qed.

Lemma reads_bind {A B} (m : M A) (f : A -> M B) :
  reads m -> (forall a, reads (f a)) -> reads (bind m f).
Proof.
  intros Hm Hf s. specialize (Hm s). unfold bind.
  destruct (m s) as [[a|e] s1]; simpl in *; [|done].
  by rewrite Hf.
Qed.

Lemma reads_load l : reads (load l).
Proof. intros s. unfold load. by destruct (heap s !! l). Qed.

Lemma reads_list_get {A} (xs : list A) i : reads (list_get xs i).
Proof. unfold list_get. by destruct (xs !! i). Qed.

Lemma reads_next_float : reads next_float.
Proof. done. Qed.

Lemma reads_draw_ints k : reads (draw_ints k).
Proof. done. Qed.

Lemma reads_mapM {A B} (f : A -> M B) xs :
  (forall x, reads (f x)) -> reads (mapM f xs).
Proof.
  intros Hf. induction xs as [|x xs IH]; simpl; [done|].
  apply reads_bind; [done|]. intros. apply reads_bind; [done|]. done.
Qed.

Create HintDb reads discriminated.
#[local] Hint Resolve reads_ret reads_raise reads_load reads_list_get
  reads_next_float reads_draw_ints : reads.

Ltac reads_auto :=
  repeat first
    [ lazymatch goal with
      | |- reads (bind _ _) => apply reads_bind; [ | intros ? ]
      | |- reads (mapM _ _) => apply reads_mapM; intros
      | |- reads (if ?b then _ else _) => destruct b
      | |- reads (match ?x with _ => _ end) => destruct x
      end
    | solve [ eauto with reads ] ].

Lemma reads_load_floats l : reads (load_floats l).
Proof. unfold load_floats. reads_auto. Qed.
Lemma reads_load_genes l : reads (load_genes l).
Proof. unfold load_genes. reads_auto. Qed.
Lemma reads_load_floats2 l : reads (load_floats2 l).
Proof. unfold load_floats2. reads_auto. Qed.
#[local] Hint Resolve reads_load_floats reads_load_genes reads_load_floats2 : reads.

Lemma reads_get_item l i : reads (get_item l i).
Proof. unfold get_item. reads_auto. Qed.
Lemma reads_get_row l i : reads (get_row l i).
Proof. unfold get_row. reads_auto. Qed.
Lemma reads_np_len l : reads (np_len l).
Proof. unfold np_len. reads_auto. Qed.
Lemma reads_np_min xs : reads (np_min xs).
Proof. unfold np_min. reads_auto. Qed.
Lemma reads_np_max xs : reads (np_max xs).
Proof. unfold np_max. reads_auto. Qed.
Lemma reads_np_take l idxs : reads (np_take l idxs).
Proof. unfold np_take. reads_auto. Qed.
Lemma reads_np_random_rand : reads np_random_rand.
Proof. done. Qed.
Lemma reads_np_random_uniform {ar : arith} lo hi : reads (np_random_uniform lo hi).
Proof. unfold np_random_uniform. reads_auto. Qed.
Lemma reads_np_random_randint high size : reads (np_random_randint high size).
Proof. unfold np_random_randint. reads_auto. Qed.
Lemma reads_np_random_randint2 high rows cols :
  reads (np_random_randint2 high rows cols).
Proof. unfold np_random_randint2. reads_auto. Qed.
Lemma reads_list_index l x : reads (list_index l x).
Proof. unfold list_index. reads_auto. Qed.
Lemma reads_read_sol_idx st : reads (read_sol_idx st).
Proof. unfold read_sol_idx. reads_auto. Qed.
Lemma reads_py_inverse {ar : arith} n : reads (py_inverse n).
Proof. unfold py_inverse. reads_auto. Qed.
Lemma reads_logger_error msg : reads (logger_error msg).
Proof. done. Qed.

#[local] Hint Resolve reads_get_item reads_get_row reads_np_len reads_np_min
  reads_np_max reads_np_take reads_np_random_rand reads_np_random_uniform
  reads_np_random_randint reads_np_random_randint2 reads_list_index
  reads_read_sol_idx reads_py_inverse reads_logger_error : reads.

Lemma reads_call_crowding_distance cd pf fit :
  reads (call_crowding_distance cd pf fit).
Proof. done. Qed.

#[local] Hint Resolve reads_call_crowding_distance : reads.

Lemma reads_nsga2_duel {ar : arith} cd fit fronts sfi cur :
  reads (nsga2_duel cd fit fronts sfi cur).
Proof. unfold nsga2_duel. reads_auto. Qed.

#[local] Hint Resolve reads_nsga2_duel : reads.

(** Stepping over a reading computation. *)
Lemma wp_reads {A} (m : M A) s Q :
  reads m -> (forall r s', heap s' = heap s -> Q r s') -> wp m s Q.
Proof. intros Hm H. apply H, Hm. Qed.

Lemma wp_bind_ok {A B} (m : M A) (f : A -> M B) s P :
  wp m s (okpost (fun a s1 => wp (f a) s1 (okpost P))) ->
  wp (bind m f) s (okpost P).
Proof.
  intros H. apply wp_bind. eapply wp_mono; [exact H|]. by intros [a|e] s1.
Qed.

Lemma wp_reads_ok {A} (m : M A) s (P : A -> state -> Prop) :
  reads m -> (forall a s', heap s' = heap s -> P a s') -> wp m s (okpost P).
Proof. intros Hm H. apply wp_reads; [done|]. intros [a|e] s' Hs; simpl; auto. Qed.

(** ** Filling the output buffer *)

Lemma wp_frames {A} h0 (m : M A) φ s Q :
  frames h0 m φ -> keeps h0 s ->
  (forall r s', keeps h0 s' -> (forall a, r = Ok a -> φ a) -> Q r s') ->
  wp m s Q.
Proof. intros Hm Hs H. destruct (Hm s Hs) as [H1 H2]. by apply H. Qed.

Lemma keeps_heap h0 s s' : heap s' = heap s -> keeps h0 s -> keeps h0 s'.
Proof. unfold keeps. by intros ->. Qed.

Lemma keeps_lookup h0 s l a : keeps h0 s -> h0 !! l = Some a -> heap s !! l = Some a.
Proof. intros Hk Hl. by eapply prefix_lookup_Some. Qed.

Lemma filling_heap h0 parents pop n exact k idxs s s' :
  heap s' = heap s ->
  filling h0 parents pop n exact k idxs s ->
  filling h0 parents pop n exact k idxs s'.
Proof.
  intros Hh (Hk & Hf & par & H). unfold filling. rewrite Hh.
  split; [by eapply keeps_heap|]. eauto.
Qed.


Lemma filling_start h0 pop n exact s dt cols :
  keeps h0 s ->
  filling h0 (length (heap s)) pop n exact 0 []
    (set_heap (heap s ++ [AGenes (Matrix dt cols (replicate n None))]) s).
Proof.
  intros Hk. split; [by apply prefix_app_r|]. split; [by apply prefix_length|].
  eexists. simpl. split.
  - by rewrite lookup_app_r, Nat.sub_diag.
  - simpl. rewrite length_replicate. by repeat split.
Qed.

Lemma filling_commit h0 pop_loc parents pop n exact k idxs w s :
  h0 !! pop_loc = Some (AGenes pop) -> k < n ->
  filling h0 parents pop n exact k idxs s ->
  wp (get_row pop_loc w) s (okpost (fun row s1 =>
    wp (set_row parents k row) s1 (okpost (fun _ s2 =>
      filling h0 parents pop n exact (S k) (idxs ++ [w]) s2)))).
Proof.
  intros Hpop Hkn (Hk & Hf & par & Hp & Hn & Hlen & Hex & Hal).
  apply wp_get_row. rewrite (keeps_lookup _ _ _ _ Hk Hpop).
  destruct (m_rows pop !! w) as [row|] eqn:Hw; [|done]. simpl.
  apply wp_set_row. rewrite Hp, Hn. destruct (Nat.ltb_spec k n); [|lia]. simpl.
  assert (parents < length (heap s)) by by eapply lookup_lt_Some.
  split; [|split; [done|]].
  - destruct Hk as [t Ht]. unfold keeps. simpl.
    rewrite Ht, insert_app_r_alt by done. by eexists.
  - eexists. simpl. split; [by apply list_lookup_insert_eq|]. simpl.
    rewrite length_insert, length_app. simpl. repeat split; try lia.
    + intros He. specialize (Hex He). lia.
    + intros Hl i x Hi. assert (length idxs = k) as Hk' by lia.
      destruct (decide (i = k)) as [->|Hne].
      * rewrite <- Hk', lookup_app_r, Nat.sub_diag in Hi by done.
        injection Hi as <-. exists row. split; [done|].
        apply list_lookup_insert_eq. lia.
      * assert (i < k).
        { apply lookup_lt_Some in Hi. rewrite length_app in Hi. simpl in Hi. lia. }
        rewrite lookup_app_l in Hi by lia.
        destruct (Hal Hk' i x Hi) as (r & Hr1 & Hr2). exists r. split; [done|].
        by rewrite list_lookup_insert_ne.
Qed.

Lemma filling_selected h0 parents pop n exact idxs s :
  filling h0 parents pop n exact n idxs s ->
  selected pop n exact true (parents, idxs) s.
Proof.
  intros (Hk & Hf & par & Hp & Hn & Hlen & Hex & Hal). exists par. simpl.
  repeat split; auto.
Qed.

Lemma wp_empty_parents_filling h0 self n exact s pop :
  keeps h0 s -> h0 !! population self = Some (AGenes pop) ->
  wp (empty_parents self n) s (okpost (fun parents s' =>
    filling h0 parents pop n exact 0 [] s')).
Proof.
  intros Hk Hpop. unfold empty_parents.
  destruct (gene_type_single self).
  - apply wp_bind_ok, wp_load_genes. rewrite (keeps_lookup _ _ _ _ Hk Hpop). simpl.
    apply wp_bind_ok, wp_list_get. destruct (gene_type self !! 0); [|done]. simpl.
    apply wp_alloc. by apply filling_start.
  - apply wp_bind_ok, wp_load_genes. rewrite (keeps_lookup _ _ _ _ Hk Hpop). simpl.
    apply wp_alloc. by apply filling_start.
Qed.


Lemma wp_ok_mono {A} (m : M A) s (P P' : A -> state -> Prop) :
  wp m s (okpost P) -> (forall a s', P a s' -> P' a s') -> wp m s (okpost P').
Proof. intros H HP. eapply wp_mono; [exact H|]. intros [a|e] s'; simpl; auto. Qed.

Lemma wp_for_each_ok {A V} (I : nat -> V -> state -> Prop)
    (xs : list A) (body : A -> V -> M V) v s (P : V -> state -> Prop) :
  I 0 v s ->
  (forall k x v s, xs !! k = Some x -> I k v s ->
     wp (body x v) s (okpost (I (S k)))) ->
  (forall v s, I (length xs) v s -> P v s) ->
  wp (for_each xs body v) s (okpost P).
Proof.
  intros H0 Hstep Hend. apply (wp_for_each I); [done| |done].
  intros k x v1 s1 Hx HI. eapply wp_mono; [by apply Hstep|].
  by intros [a|e] s'.
Qed.


(** Stepping over a reading computation while the buffer is being filled. *)
Ltac step_read :=
  apply wp_bind_ok, wp_reads_ok; [ solve [ eauto with reads ] | intros ? ? ? ];
  repeat match goal with
         | Hh : heap ?s' = heap ?s, Hf : filling _ _ _ _ _ _ _ ?s |- _ =>
             apply (filling_heap _ _ _ _ _ _ _ _ _ Hh) in Hf
         end.



Lemma keeps_refl s : keeps (heap s) s.
Proof. by unfold keeps. Qed.

#[local] Hint Resolve keeps_refl : core.



(** ** What each selector returns *)

Section Selected.
Context {ar : arith} (self : GA) (fitness : loc) (n : nat) (pop : matrix) (s : state).
Hypothesis Hpop : heap s !! population self = Some (AGenes pop).





Lemma tournament_selected :
  wp (tournament_selection self fitness n) s (okpost (selected pop n true true)).
Proof.
  unfold tournament_selection.
  apply wp_bind_ok. eapply wp_ok_mono; [by apply (wp_empty_parents_filling (heap s) _ _ true)|].
  intros parents s1 Hfill. cbv beta in Hfill. apply wp_bind_ok.
  apply (wp_for_each_ok (fun k idxs s' =>
           filling (heap s) parents pop n true k idxs s')); [done| |].
  - intros k x idxs s2 Hx HI. apply lookup_seq in Hx as [-> Hk]. simpl.
    do 6 step_read.
    apply wp_bind_ok. eapply wp_ok_mono; [by eapply filling_commit|].
    intros row s9 Hrow. apply wp_bind_ok. eapply wp_ok_mono; [exact Hrow|].
    intros [] s10 Hf. by apply wp_ret.
  - intros idxs s2 HI. rewrite length_seq in HI. apply wp_ret. simpl.
    by eapply filling_selected.
Qed.




Context (non_dominated_sorting : list (list Q) -> list front * list nat)
        (crowding_distance : front -> list (list Q) -> crowding).


End Selected.

(** ** The front-based selector: the size of what it returns *)





Section SelectedNSGA2.
Context (non_dominated_sorting : list (list Q) -> list front * list nat)
        (crowding_distance : front -> list (list Q) -> crowding).
Context (self : GA) (h0 : list array) (parents : loc) (n : nat).


End SelectedNSGA2.



(** ** The wheel-building loop computes [wheel_passes] *)

Lemma where_from_head k bs i :
  head (where_from k bs) = Some i ->
  exists j, i = k + j /\ bs !! j = Some true /\
            forall j', j' < j -> bs !! j' = Some false.
Proof.
  revert k. induction bs as [|b bs IH]; intros k H; simpl in *; [done|].
  destruct b; simpl in *.
  - injection H as <-. exists 0. split; [lia|]. split; [done|]. lia.
  - destruct (IH _ H) as (j & -> & Hj & Hlt). exists (S j).
    split; [lia|]. split; [done|]. intros [|j'] ?; [done|]. apply Hlt. lia.
Qed.

Lemma where_from_head_true k bs j :
  bs !! j = Some true -> is_Some (head (where_from k bs)).
Proof.
  revert k j. induction bs as [|b bs IH]; intros k j H; [done|]. simpl.
  destruct b; [by eexists|]. destruct j; [done|]. by eapply IH.
Qed.

Lemma foldl_Qmin_le x rest :
  (foldl Qmin x rest <= x)%Q /\ Forall (fun y => (foldl Qmin x rest <= y)%Q) rest.
Proof.
  revert x. induction rest as [|y rest IH]; intros x; simpl.
  - split; [apply Qle_refl | constructor].
  - destruct (IH (Qmin x y)) as [H1 H2]. split.
    + eapply Qle_trans; [exact H1 | apply Q.le_min_l].
    + constructor; [|done]. eapply Qle_trans; [exact H1 | apply Q.le_min_r].
Qed.

Lemma foldl_Qmin_elem x rest :
  Exists (fun y => (y == foldl Qmin x rest)%Q) (x :: rest).
Proof.
  revert x. induction rest as [|y rest IH]; intros x; simpl.
  - left. reflexivity.
  - specialize (IH (Qmin x y)). apply Exists_cons in IH as [H|H].
    + destruct (Q.min_spec x y) as [[_ Hm]|[_ Hm]].
      * left. by rewrite <- H, Hm.
      * right. left. by rewrite <- H, Hm.
    + by do 2 right.
Qed.

Lemma argmin_first_spec ps i :
  argmin_first ps = Some i ->
  exists x, ps !! i = Some x /\
    Forall (fun y => (x <= y)%Q) ps /\
    forall j y, j < i -> ps !! j = Some y -> ~ (y == x)%Q.
Proof.
  unfold argmin_first. destruct ps as [|p rest]; [done|].
  set (m := foldl Qmin p rest). intros H.
  apply where_from_head in H as (j & -> & Hj & Hlt). simpl.
  unfold np_eq in Hj. rewrite list_lookup_fmap in Hj.
  destruct ((p :: rest) !! j) as [x|] eqn:Hx; [|done]. simpl in Hj.
  injection Hj as Hj. apply Qeq_bool_iff in Hj. exists x. split; [done|]. split.
  - destruct (foldl_Qmin_le p rest) as [H1 H2]. fold m in H1, H2.
    constructor; [by rewrite Hj|].
    eapply Forall_impl; [exact H2|]. intros y Hy. simpl in Hy. by rewrite Hj.
  - intros j' y Hj' Hy Heq. specialize (Hlt j' Hj').
    unfold np_eq in Hlt. rewrite list_lookup_fmap, Hy in Hlt. simpl in Hlt.
    injection Hlt as Hlt. apply not_true_iff_false in Hlt. apply Hlt.
    apply Qeq_bool_iff. by rewrite Heq.
Qed.

Lemma argmin_first_is_Some ps : ps <> [] -> is_Some (argmin_first ps).
Proof.
  destruct ps as [|p rest]; [done|]. intros _. unfold argmin_first.
  pose proof (foldl_Qmin_elem p rest) as H.
  apply Exists_exists in H as (y & Hy & Heq).
  apply list_elem_of_lookup in Hy as [j Hj].
  apply (where_from_head_true _ _ j). unfold np_eq.
  rewrite list_lookup_fmap, Hj. simpl. f_equal. by apply Qeq_bool_iff.
Qed.

Lemma argmin_first_lt ps i : argmin_first ps = Some i -> i < length ps.
Proof.
  intros H. apply argmin_first_spec in H as (x & Hx & _). by eapply lookup_lt_Some.
Qed.

Lemma wheel_pass_lengths {ar : arith} w :
  length (w_probs (wheel_pass w)) = length (w_probs w) /\
  length (w_start (wheel_pass w)) = length (w_start w) /\
  length (w_end (wheel_pass w)) = length (w_end w).
Proof.
  unfold wheel_pass. destruct (argmin_first (w_probs w)); simpl; [|done].
  by rewrite !length_insert.
Qed.

Lemma wheel_passes_lengths {ar : arith} k ps :
  length (w_probs (wheel_passes k ps)) = length ps /\
  length (w_start (wheel_passes k ps)) = length ps /\
  length (w_end (wheel_passes k ps)) = length ps.
Proof.
  induction k as [|k IH]; simpl.
  - by rewrite !length_replicate.
  - unfold wheel_passes in *. simpl.
    destruct (wheel_pass_lengths (Nat.iter k wheel_pass (wheel_init ps)))
      as (-> & -> & ->). done.
Qed.

Lemma same_but_refl ls s : same_but ls s s.
Proof. by repeat split. Qed.

Lemma same_but_trans ls s1 s2 s3 :
  same_but ls s1 s2 -> same_but ls s2 s3 -> same_but ls s1 s3.
Proof.
  intros (Ha & Hb & Hc & Hd & He) (Ha' & Hb' & Hc' & Hd' & He').
  repeat split; try congruence. intros l Hl. by rewrite He', He.
Qed.

Lemma wp_wheel_step {ar : arith} probs ps pe w s :
  NoDup [probs; ps; pe] ->
  wheel_at probs ps pe w s ->
  length (w_start w) = length (w_probs w) ->
  length (w_end w) = length (w_probs w) ->
  w_probs w <> [] ->
  wp (wheel_step probs ps pe (w_curr w)) s (totpost (fun c s' =>
    c = w_curr (wheel_pass w) /\
    wheel_at probs ps pe (wheel_pass w) s' /\
    same_but [probs; ps; pe] s s')).
Proof.
  intros Hnd (Hp & Hs & He) Hls Hle Hne.
  assert (probs <> ps /\ probs <> pe /\ ps <> pe) as (Hn1 & Hn2 & Hn3).
  { apply NoDup_cons in Hnd as [H1 Hnd]. apply NoDup_cons in Hnd as [H2 _].
    apply not_elem_of_cons in H1 as [? H1]. apply not_elem_of_cons in H1 as [? _].
    by apply not_elem_of_cons in H2 as [? _]. }
  assert (probs < length (heap s)) by by eapply lookup_lt_Some.
  assert (ps < length (heap s)) by by eapply lookup_lt_Some.
  assert (pe < length (heap s)) by by eapply lookup_lt_Some.
  unfold wheel_step, wheel_pass.
  destruct (argmin_first_is_Some _ Hne) as [i Hi]. rewrite Hi.
  pose proof (argmin_first_lt _ _ Hi) as Hlt.
  apply wp_bind, wp_load_floats. rewrite Hp.
  unfold argmin_first in Hi. unfold np_min.
  destruct (w_probs w) as [|x rest] eqn:Hw; [done|]. rewrite <- Hw in *.
  apply wp_bind, wp_ret, wp_bind, wp_list_get.
  rewrite <- head_lookup, Hi.
  apply wp_bind, wp_set_item. rewrite Hs, Hls.
  destruct (Nat.ltb_spec i (length (w_probs w))); [|lia].
  apply wp_bind, wp_get_item. simpl.
  rewrite list_lookup_insert_ne, Hp by done.
  destruct (lookup_lt_is_Some_2 (w_probs w) i Hlt) as [p Hpi]. rewrite Hpi.
  rewrite (nth_lookup_Some _ _ _ _ Hpi).
  apply wp_bind, wp_set_item. simpl.
  rewrite list_lookup_insert_ne, He, Hle by done.
  destruct (Nat.ltb_spec i (length (w_probs w))); [|lia].
  apply wp_bind, wp_set_item. simpl.
  rewrite !list_lookup_insert_ne, Hp by done.
  destruct (Nat.ltb_spec i (length (w_probs w))); [|lia].
  apply wp_ret. simpl. split; [done|]. split.
  - unfold wheel_at. simpl. split; [|split].
    + apply list_lookup_insert_eq. by rewrite !length_insert.
    + rewrite !list_lookup_insert_ne by done. by apply list_lookup_insert_eq.
    + rewrite list_lookup_insert_ne by done.
      apply list_lookup_insert_eq. by rewrite length_insert.
  - repeat split; simpl; try done.
    + by rewrite !length_insert.
    + intros l Hl. apply not_elem_of_cons in Hl as [? Hl].
      apply not_elem_of_cons in Hl as [? Hl]. apply not_elem_of_cons in Hl as [? _].
      by rewrite !list_lookup_insert_ne.
Qed.

Lemma NoDup_3 {A} (a b c : A) : a <> b -> a <> c -> b <> c -> NoDup [a; b; c].
Proof.
  intros. apply NoDup_cons. split.
  - rewrite !not_elem_of_cons. repeat split; try done. apply not_elem_of_nil.
  - apply NoDup_cons. split; [|apply NoDup_singleton].
    rewrite not_elem_of_cons. split; [done | apply not_elem_of_nil].
Qed.

Lemma not_elem_of_3 {A} (x a b c : A) : x <> a -> x <> b -> x <> c -> x ∉ [a; b; c].
Proof.
  intros. rewrite !not_elem_of_cons. repeat split; try done. apply not_elem_of_nil.
Qed.

Lemma wp_wheel_loop {ar : arith} probs ps pe xs s :
  NoDup [probs; ps; pe] ->
  wheel_at probs ps pe (wheel_init xs) s ->
  wp (for_each (seq 0 (length xs))
               (fun _ curr => wheel_step probs ps pe curr) 0%Q) s
     (totpost (fun c s' =>
        c = w_curr (wheel_passes (length xs) xs) /\
        wheel_at probs ps pe (wheel_passes (length xs) xs) s' /\
        same_but [probs; ps; pe] s s')).
Proof.
  intros Hnd Hat.
  apply (wp_for_each (fun k c s' =>
           k <= length xs /\
           c = w_curr (wheel_passes k xs) /\
           wheel_at probs ps pe (wheel_passes k xs) s' /\
           same_but [probs; ps; pe] s s')).
  - split; [lia|]. split; [done|]. split; [done|]. apply same_but_refl.
  - intros k x c s1 Hx (Hk & -> & Hat1 & Hsb).
    apply lookup_seq in Hx as [_ Hx].
    destruct (wheel_passes_lengths k xs) as (Hl1 & Hl2 & Hl3).
    eapply wp_mono.
    + apply wp_wheel_step; [done|done| | |]; try congruence.
      intros Hnil. rewrite Hnil in Hl1. simpl in Hl1. lia.
    + intros [c'|e] s2; simpl; [|done]. intros (-> & Hat2 & Hsb2).
      split; [lia|]. split; [done|]. split; [done|].
      by eapply same_but_trans.
  - intros c s1 (_ & H). by rewrite length_seq in H.
Qed.

Lemma wp_empty_parents_tot self n s pop :
  heap s !! population self = Some (AGenes pop) -> wf_ga self ->
  wp (empty_parents self n) s (totpost (fun l s' =>
    l = length (heap s) /\
    s' = set_heap (heap s ++ [blank_parents self pop n]) s)).
Proof.
  intros Hpop Hwf. unfold empty_parents, blank_parents, parents_dtype, wf_ga in *.
  destruct (gene_type_single self).
  - apply wp_bind, wp_load_genes. rewrite Hpop.
    apply wp_bind, wp_list_get.
    destruct (gene_type self) as [|dt ?]; [by destruct Hwf|]. simpl.
    by apply wp_alloc.
  - apply wp_bind, wp_load_genes. rewrite Hpop. by apply wp_alloc.
Qed.

(** The helper, run on an array [xs] at [probs]: it allocates the start
    and end arrays and the output buffer, in this order, and leaves the
    consumed probabilities at [probs]. *)
Lemma wp_wheel_cumulative_probs {ar : arith} self probs n s xs pop :
  heap s !! probs = Some (AFloat xs) ->
  heap s !! population self = Some (AGenes pop) -> wf_ga self ->
  wp (wheel_cumulative_probs self probs n) s (totpost (fun out s' =>
    let w := wheel_passes (length xs) xs in
    out = (length (heap s), S (length (heap s)), S (S (length (heap s)))) /\
    heap s' = <[probs:=AFloat (w_probs w)]> (heap s)
                ++ [AFloat (w_start w); AFloat (w_end w);
                    blank_parents self pop n] /\
    gen s' = gen s /\ log s' = log s /\ cd_calls s' = cd_calls s)).
Proof.
  intros Hp Hpop Hwf. unfold wheel_cumulative_probs.
  assert (probs < length (heap s)) as Hlt by by eapply lookup_lt_Some.
  assert (population self < length (heap s)) as Hlt' by by eapply lookup_lt_Some.
  apply wp_bind, wp_np_len. rewrite Hp.
  apply wp_bind, wp_alloc, wp_bind, wp_alloc. simpl.
  rewrite length_app. simpl. rewrite Nat.add_1_r.
  set (L := length (heap s)).
  apply wp_bind. eapply wp_mono.
  { apply (wp_wheel_loop probs L (S L) xs).
    - apply NoDup_3; unfold L; lia.
    - unfold wheel_at. simpl. rewrite <- !app_assoc. simpl. split; [|split].
      + by rewrite lookup_app_l.
      + by rewrite lookup_app_r, Nat.sub_diag.
      + rewrite lookup_app_r by (unfold L; lia).
        by replace (S L - length (heap s)) with 1 by (unfold L; lia). }
  intros [c|e] s1; simpl; [|done]. intros (_ & (Ha & Hb & Hc) & Hsb).
  destruct Hsb as (Hg & Hlg & Hcd & Hlen & Hoth). simpl in *.
  rewrite !length_app in Hlen. simpl in Hlen.
  assert (heap s1 = <[probs:=AFloat (w_probs (wheel_passes (length xs) xs))]> (heap s)
            ++ [AFloat (w_start (wheel_passes (length xs) xs));
                AFloat (w_end (wheel_passes (length xs) xs))]) as Hh1.
  { apply list_eq. intros l.
    destruct (decide (l = probs)) as [->|Hn1].
    { rewrite Ha, lookup_app_l by (rewrite length_insert; lia).
      symmetry. by apply list_lookup_insert_eq. }
    destruct (decide (l = L)) as [->|Hn2].
    { rewrite Hb, lookup_app_r by (rewrite length_insert; unfold L; lia).
      by rewrite length_insert, Nat.sub_diag. }
    destruct (decide (l = S L)) as [->|Hn3].
    { rewrite Hc, lookup_app_r by (rewrite length_insert; unfold L; lia).
      rewrite length_insert.
      by replace (S L - length (heap s)) with 1 by (unfold L; lia). }
    rewrite Hoth by by apply not_elem_of_3.
    destruct (decide (l < L)).
    - rewrite <- app_assoc, !lookup_app_l by (rewrite ?length_insert; unfold L in *; lia).
      by rewrite list_lookup_insert_ne.
    - rewrite !lookup_ge_None_2; [done| |];
        rewrite !length_app, ?length_insert; simpl; unfold L in *; lia. }
  apply wp_bind. eapply wp_mono.
  { apply (wp_empty_parents_tot self n s1 pop); [|done].
    rewrite Hoth.
    - rewrite <- app_assoc. by rewrite lookup_app_l.
    - apply not_elem_of_3; try (unfold L; lia).
      intros Heq. rewrite Heq, Hp in Hpop. done. }
  intros [lp|e] s2; simpl; [|done]. intros [-> ->]. apply wp_ret. simpl.
  split; [f_equal; unfold L; lia|].
  split; [|done]. by rewrite Hh1, <- app_assoc.
Qed.

(** ** Properties of the wheel *)

Lemma Qlt_bool_iff a b : Qlt_bool a b = true <-> (a < b)%Q.
Proof.
  unfold Qlt_bool. rewrite negb_true_iff, <- not_true_iff_false, Qle_bool_iff.
  split; [apply Qnot_le_lt | apply Qlt_not_le].
Qed.

Lemma Qsum_app xs ys : (Qsum (xs ++ ys) == Qsum xs + Qsum ys)%Q.
Proof.
  induction xs as [|x xs IH]; simpl.
  - ring.
  - unfold Qsum in *. simpl. rewrite IH. ring.
Qed.

Lemma Qsum_nonneg xs : Forall (fun x => (0 <= x)%Q) xs -> (0 <= Qsum xs)%Q.
Proof.
  induction 1 as [|x xs Hx _ IH]; simpl; [apply Qle_refl|].
  unfold Qsum in *. simpl. lra.
Qed.

Section RunningTotal.
Context {ar : arith}.

Lemma psum_0 ps order : psum ps order 0 = 0%Q.
Proof. unfold psum. by rewrite take_0. Qed.

Lemma psum_S ps order a i :
  order !! a = Some i ->
  psum ps order (S a) = fadd (psum ps order a) (nth i ps 0%Q).
Proof.
  intros H. unfold psum. by rewrite (take_S_r _ _ _ H), foldl_app.
Qed.

Lemma psum_all ps order a :
  length order <= a -> psum ps order a = psum ps order (length order).
Proof. intros H. unfold psum. by rewrite !take_ge by lia. Qed.

Lemma psum_app_l ps order i a :
  a <= length order -> psum ps (order ++ [i]) a = psum ps order a.
Proof. intros H. unfold psum. by rewrite take_app_le. Qed.

(** A running total is a number the rounding leaves as it is. *)
Lemma psum_fixed ps order a :
  rounding -> (rnd (psum ps order a) == psum ps order a)%Q.
Proof.
  intros Hr. destruct (decide (a <= length order)) as [Ha|Ha].
  - destruct a as [|a]; [rewrite psum_0; apply Hr|].
    destruct (lookup_lt_is_Some_2 order a) as [i Hi]; [lia|].
    rewrite (psum_S _ _ _ _ Hi). apply Hr.
  - rewrite psum_all by lia.
    destruct (length order) as [|n] eqn:E; [rewrite psum_0; apply Hr|].
    destruct (lookup_lt_is_Some_2 order n) as [i Hi]; [lia|].
    rewrite (psum_S _ _ _ _ Hi). apply Hr.
Qed.

(** Adding a probability does not take the running total back. *)
Lemma psum_mono ps order a b :
  rounding -> Forall (fun p => (0 <= p)%Q) ps -> a <= b ->
  (psum ps order a <= psum ps order b)%Q.
Proof.
  intros Hr Hps Hab. induction Hab as [|b Hab IH]; [apply Qle_refl|].
  eapply Qle_trans; [exact IH|].
  destruct (order !! b) as [i|] eqn:Hi.
  - rewrite (psum_S _ _ _ _ Hi). unfold fadd.
    rewrite <- (psum_fixed ps order b Hr) at 1. apply Hr.
    assert (0 <= nth i ps 0)%Q; [|lra].
    rewrite nth_lookup. destruct (ps !! i) as [p|] eqn:Hp; simpl; [|apply Qle_refl].
    by eapply (Forall_lookup_1 _ ps).
  - apply lookup_ge_None in Hi.
    rewrite (psum_all _ _ b), (psum_all _ _ (S b)) by lia. apply Qle_refl.
Qed.

Lemma nth_insert_eq {A} (l : list A) i v d :
  i < length l -> nth i (<[i:=v]> l) d = v.
Proof. intros. by rewrite nth_lookup, list_lookup_insert_eq. Qed.

Lemma nth_insert_ne {A} (l : list A) i j v d :
  i <> j -> nth j (<[i:=v]> l) d = nth j l d.
Proof. intros. by rewrite !nth_lookup, list_lookup_insert_ne. Qed.

Lemma consumed_init ps : consumed ps (wheel_init ps) [].
Proof.
  split; simpl.
  - constructor.
  - intros i Hi. by apply elem_of_nil in Hi.
  - by rewrite !length_replicate.
  - intros i Hi. by apply elem_of_nil in Hi.
  - done.
  - done.
  - by rewrite psum_0.
  - done.
  - intros i j Hi. by apply elem_of_nil in Hi.
Qed.

(** Fewer slots consumed than there are: one is left. *)
Lemma slot_left (order : list nat) n :
  NoDup order -> length order < n -> exists j, j < n /\ j ∉ order.
Proof.
  intros Hnd Hlen.
  destruct (decide (Forall (fun j => j ∈ order) (seq 0 n))) as [Hall|Hex].
  - assert (seq 0 n ⊆+ order) as Hsub.
    { apply NoDup_submseteq; [apply NoDup_seq|].
      intros x Hx. by eapply Forall_forall in Hall. }
    apply submseteq_length in Hsub. rewrite length_seq in Hsub. lia.
  - apply not_Forall_Exists in Hex; [|solve_decision].
    apply Exists_exists in Hex as (j & Hj & Hn). exists j. split; [|done].
    apply elem_of_seq in Hj. lia.
Qed.

(** One pass consumes the least of the slots that are left. *)
Lemma consumed_pass ps w order :
  Forall (fun p => (0 <= p)%Q /\ (p < sentinel)%Q) ps ->
  consumed ps w order -> length order < length ps ->
  exists i, consumed ps (wheel_pass w) (order ++ [i]).
Proof.
  intros Hps [Hnd Hbound (Hl1 & Hl2 & Hl3) Hdone Hleft Hrange Hcurr Hsorted Hleast] Hlen.
  destruct (slot_left order (length ps) Hnd Hlen) as (j & Hj & Hjn).
  assert (w_probs w <> []) as Hne.
  { intros Hnil. rewrite Hnil in Hl1. simpl in Hl1. lia. }
  destruct (argmin_first_is_Some _ Hne) as [i Hi].
  destruct (argmin_first_spec _ _ Hi) as (x & Hx & Hmin & _).
  destruct (lookup_lt_is_Some_2 ps j Hj) as [pj Hpj].
  assert (w_probs w !! j = Some pj) as Hwj by by rewrite Hleft.
  destruct (Forall_lookup_1 _ _ _ _ Hps Hpj) as [_ HpjS].
  pose proof (Forall_lookup_1 _ _ _ _ Hmin Hwj) as Hxj. simpl in Hxj.
  assert (i ∉ order) as Hin.
  { intros Hin. rewrite (Hdone i Hin) in Hx. injection Hx as <-. lra. }
  assert (ps !! i = Some x) as Hpi by by rewrite <- Hleft.
  assert (i < length ps) as Hilt by by eapply lookup_lt_Some.
  assert (forall i', i' ∈ order -> i <> i') as Hdiff by (by intros i' ? <-).
  assert ((order ++ [i]) !! length order = Some i) as Hlast
    by by rewrite lookup_app_r, Nat.sub_diag.
  exists i. unfold wheel_pass. rewrite Hi, (nth_lookup_Some _ _ _ _ Hx).
  split; simpl.
  - apply NoDup_app. split; [done|]. split; [|apply NoDup_singleton].
    intros y Hy Hy'. apply list_elem_of_singleton in Hy' as ->. done.
  - intros i' Hi'. apply elem_of_app in Hi' as [?|Hi']; [auto|].
    by apply list_elem_of_singleton in Hi' as ->.
  - by rewrite !length_insert.
  - intros i' Hi'. apply elem_of_app in Hi' as [?|Hi'].
    + rewrite list_lookup_insert_ne by auto. auto.
    + apply list_elem_of_singleton in Hi' as ->.
      apply list_lookup_insert_eq. lia.
  - intros i' Hn. apply not_elem_of_app in Hn as [Hn1 Hn2].
    rewrite list_elem_of_singleton in Hn2.
    rewrite list_lookup_insert_ne by done. auto.
  - intros a i' Ha. destruct (decide (a < length order)) as [Hlt|Hge].
    + rewrite lookup_app_l in Ha by done.
      assert (i <> i') by (apply Hdiff; by eapply list_elem_of_lookup_2).
      rewrite !nth_insert_ne by done. rewrite !psum_app_l by lia. auto.
    + assert (a = length order) as ->.
      { apply lookup_lt_Some in Ha. rewrite length_app in Ha. simpl in Ha. lia. }
      rewrite Hlast in Ha. injection Ha as <-.
      rewrite !nth_insert_eq by lia. split.
      * rewrite psum_app_l by lia. exact Hcurr.
      * rewrite (psum_S _ _ _ _ Hlast), psum_app_l by lia.
        rewrite (nth_lookup_Some _ _ _ _ Hpi), Hcurr. reflexivity.
  - rewrite length_app. simpl. rewrite Nat.add_1_r.
    rewrite (psum_S _ _ _ _ Hlast), psum_app_l by lia.
    rewrite (nth_lookup_Some _ _ _ _ Hpi), Hcurr. reflexivity.
  - intros a b i' j' Hab Ha Hb.
    destruct (decide (b < length order)) as [Hlt|Hge].
    + rewrite lookup_app_l in Ha, Hb by lia. eauto.
    + assert (b = length order) as ->.
      { apply lookup_lt_Some in Hb. rewrite length_app in Hb. simpl in Hb. lia. }
      rewrite Hlast in Hb. injection Hb as <-.
      destruct (decide (a < length order)) as [Hlt|Hge'].
      * rewrite lookup_app_l in Ha by lia.
        apply Hleast; [by eapply list_elem_of_lookup_2|done|done].
      * assert (a = length order) as -> by lia.
        rewrite Hlast in Ha. injection Ha as <-. apply Qle_refl.
  - intros i' j' Hi' Hj' Hj'lt. apply not_elem_of_app in Hj' as [Hj1 Hj2].
    apply elem_of_app in Hi' as [?|Hi']; [auto|].
    apply list_elem_of_singleton in Hi' as ->.
    destruct (lookup_lt_is_Some_2 ps j' Hj'lt) as [pj' Hpj'].
    assert (w_probs w !! j' = Some pj') as Hwj' by by rewrite Hleft.
    pose proof (Forall_lookup_1 _ _ _ _ Hmin Hwj') as Hle. simpl in Hle.
    by rewrite (nth_lookup_Some _ _ _ _ Hpi), (nth_lookup_Some _ _ _ _ Hpj').
Qed.

Lemma consumed_passes ps k :
  Forall (fun p => (0 <= p)%Q /\ (p < sentinel)%Q) ps -> k <= length ps ->
  exists order, length order = k /\ consumed ps (wheel_passes k ps) order.
Proof.
  intros Hps. induction k as [|k IH]; intros Hk.
  - exists []. split; [done|]. apply consumed_init.
  - destruct IH as (order & Hlen & Hc); [lia|].
    destruct (consumed_pass ps _ order Hps Hc) as [i Hi]; [lia|].
    exists (order ++ [i]). split; [|done]. rewrite length_app. simpl. lia.
Qed.

(** Once every slot is consumed, the order is a permutation of the slots. *)
Lemma consumed_all_Permutation ps w order :
  consumed ps w order -> length order = length ps ->
  order ≡ₚ seq 0 (length ps).
Proof.
  intros Hc Hlen. apply submseteq_length_Permutation.
  - apply NoDup_submseteq; [apply Hc|]. intros i Hi. apply elem_of_seq.
    pose proof (c_bound _ _ _ Hc i Hi). lia.
  - rewrite length_seq. lia.
Qed.

Lemma consumed_all_position ps w order i :
  consumed ps w order -> length order = length ps -> i < length ps ->
  exists a, order !! a = Some i.
Proof.
  intros Hc Hlen Hi. apply list_elem_of_lookup.
  rewrite (consumed_all_Permutation _ _ _ Hc Hlen). apply elem_of_seq. lia.
Qed.

Lemma consumed_width ps w order a i :
  consumed ps w order -> order !! a = Some i ->
  nth i (w_end w) 0%Q = fadd (nth i (w_start w) 0%Q) (nth i ps 0%Q).
Proof.
  intros Hc Ha. destruct (c_range _ _ _ Hc a i Ha) as [-> ->].
  by apply psum_S.
Qed.

Lemma consumed_disjoint ps w order :
  rounding -> Forall (fun p => (0 <= p)%Q) ps ->
  consumed ps w order -> length order = length ps ->
  disjoint_ranges (w_start w) (w_end w).
Proof.
  intros Hr Hps Hc Hlen i j x Hi Hj Hne (H1 & H2 & H3 & H4).
  destruct (c_len _ _ _ Hc) as (_ & Hl & _). rewrite Hl in Hi, Hj.
  destruct (consumed_all_position _ _ _ i Hc Hlen Hi) as [a Ha].
  destruct (consumed_all_position _ _ _ j Hc Hlen Hj) as [b Hb].
  destruct (c_range _ _ _ Hc a i Ha) as [Hsi Hei].
  destruct (c_range _ _ _ Hc b j Hb) as [Hsj Hej].
  rewrite Hsi, Hei, Hsj, Hej in *.
  assert (a <> b) by (intros ->; congruence).
  destruct (decide (a < b)).
  - pose proof (psum_mono ps order (S a) b Hr Hps ltac:(lia)). lra.
  - pose proof (psum_mono ps order (S b) a Hr Hps ltac:(lia)). lra.
Qed.

End RunningTotal.

(** ** Entries that do not exceed the sentinel all end up consumed *)

Lemma count_below_insert l i x :
  l !! i = Some x ->
  count_below (<[i:=sentinel]> l) + (if Qlt_bool x sentinel then 1 else 0)
  = count_below l.
Proof.
  revert i. induction l as [|y l IH]; intros i H; [done|].
  destruct i as [|i]; simpl in *.
  - injection H as ->. change (Qlt_bool sentinel sentinel) with false. lia.
  - rewrite <- (IH i H). lia.
Qed.

Lemma count_below_length l : count_below l <= length l.
Proof. induction l as [|y l IH]; simpl; [done|]. destruct (Qlt_bool y sentinel); lia. Qed.

Lemma count_below_exists l :
  0 < count_below l -> exists e, e ∈ l /\ (e < sentinel)%Q.
Proof.
  induction l as [|y l IH]; simpl; [lia|].
  destruct (Qlt_bool y sentinel) eqn:E.
  - intros _. exists y. split; [left|]. by apply Qlt_bool_iff.
  - intros H. destruct IH as (e & He & Hlt); [lia|]. exists e. split; [by right|done].
Qed.

Lemma count_below_0 l :
  count_below l = 0 -> Forall (fun p => (p <= sentinel)%Q) l ->
  Forall (fun p => (p == sentinel)%Q) l.
Proof.
  induction l as [|y l IH]; simpl; intros H Hall; [constructor|].
  apply Forall_cons in Hall as [Hy Hall].
  destruct (Qlt_bool y sentinel) eqn:E; [lia|].
  constructor; [|by apply IH].
  apply not_true_iff_false in E. rewrite Qlt_bool_iff in E.
  apply Qle_antisym; [done|]. by apply Qnot_lt_le.
Qed.

Lemma capped_pass {ar : arith} w :
  Forall (fun p => (p <= sentinel)%Q) (w_probs w) -> w_probs w <> [] ->
  Forall (fun p => (p <= sentinel)%Q) (w_probs (wheel_pass w)) /\
  count_below (w_probs (wheel_pass w)) = count_below (w_probs w) - 1.
Proof.
  intros Hall Hne. destruct (argmin_first_is_Some _ Hne) as [i Hi].
  destruct (argmin_first_spec _ _ Hi) as (x & Hx & Hmin & _).
  unfold wheel_pass. rewrite Hi. simpl. split.
  - apply Forall_insert; [done | apply Qle_refl].
  - pose proof (count_below_insert _ _ _ Hx) as Hc.
    destruct (Qlt_bool x sentinel) eqn:E; [lia|].
    destruct (decide (0 < count_below (w_probs w))) as [Hpos|]; [|lia].
    destruct (count_below_exists _ Hpos) as (e & He & Hlt).
    pose proof (proj1 (Forall_forall _ _) Hmin e He) as Hle. simpl in Hle.
    apply not_true_iff_false in E. destruct E. apply Qlt_bool_iff. lra.
Qed.

Lemma capped_passes {ar : arith} ps k :
  Forall (fun p => (p <= sentinel)%Q) ps -> k <= length ps ->
  Forall (fun p => (p <= sentinel)%Q) (w_probs (wheel_passes k ps)) /\
  count_below (w_probs (wheel_passes k ps)) = count_below ps - k.
Proof.
  intros Hall. induction k as [|k IH]; intros Hk.
  - simpl. split; [done|lia].
  - destruct IH as [H1 H2]; [lia|].
    destruct (wheel_passes_lengths k ps) as (Hl & _).
    destruct (capped_pass (wheel_passes k ps) H1) as [H3 H4].
    { intros Hnil. rewrite Hnil in Hl. simpl in Hl. lia. }
    split; [done|]. unfold wheel_passes in *. simpl. rewrite H4, H2. lia.
Qed.

Lemma capped_all_consumed {ar : arith} ps :
  Forall (fun p => (p <= sentinel)%Q) ps ->
  Forall (fun p => (p == sentinel)%Q) (w_probs (wheel_passes (length ps) ps)).
Proof.
  intros Hall. destruct (capped_passes ps (length ps) Hall) as [H1 H2]; [done|].
  apply count_below_0; [|done]. pose proof (count_below_length ps). lia.
Qed.

(** ** The callers of the helper keep their own probabilities *)

(** What follows the call of the helper in rank and roulette-wheel
    selection writes to the output buffer only. *)
Lemma wp_after_wheel {ar : arith} self h n s xs pop (k : loc * loc * loc -> M (loc * list nat)) :
  heap s = h ++ [AFloat xs; AFloat xs] ->
  h !! population self = Some (AGenes pop) -> wf_ga self ->
  (forall h1 out, fresh h1 out.2 -> frames h1 (k out) any) ->
  wp (let* out := wheel_cumulative_probs self (S (length h)) n in k out) s
     (fun _ s' =>
        heap s' !! length h = Some (AFloat xs) /\
        heap s' !! S (length h)
          = Some (AFloat (w_probs (wheel_passes (length xs) xs)))).
Proof.
  intros Hh Hpop Hwf Hk.
  set (w := wheel_passes (length xs) xs).
  assert (population self < length h) by by eapply lookup_lt_Some.
  assert (heap s !! S (length h) = Some (AFloat xs)) as Hcopy.
  { rewrite Hh, lookup_app_r by lia.
    by replace (S (length h) - length h) with 1 by lia. }
  assert (heap s !! population self = Some (AGenes pop)) as Hpop'.
  { by rewrite Hh, lookup_app_l. }
  apply wp_bind. eapply wp_mono; [by apply (wp_wheel_cumulative_probs _ _ _ _ xs pop)|].
  intros [out|e] s1; simpl; [|done]. intros (-> & Hh1 & _).
  assert (h ++ [AFloat xs; AFloat (w_probs w)] `prefix_of` heap s1) as Hpre.
  { rewrite Hh1. apply prefix_app_r. rewrite Hh.
    rewrite insert_app_r_alt by lia.
    by replace (S (length h) - length h) with 1 by lia. }
  eapply wp_frames; [apply Hk|exact Hpre|].
  { unfold fresh. simpl. rewrite Hh, !length_app. simpl. lia. }
  intros r s2 Hk2 _. split.
  - eapply keeps_lookup; [done|]. by rewrite lookup_app_r, Nat.sub_diag.
  - eapply keeps_lookup; [done|]. rewrite lookup_app_r by lia.
    by replace (S (length h) - length h) with 1 by lia.
Qed.

Lemma rank_selection_probs {ar : arith} self fitness n s fs pop :
  heap s !! fitness = Some (AFloat fs) ->
  heap s !! population self = Some (AGenes pop) -> wf_ga self ->
  let rank := np_arange 1 (sol_per_pop self + 1) in
  let probs := np_divide rank (np_sum rank) in
  let s' := (rank_selection self fitness n s).2 in
  heap s' !! length (heap s) = Some (AFloat probs) /\
  heap s' !! S (length (heap s))
    = Some (AFloat (w_probs (wheel_passes (length probs) probs))).
Proof.
  intros Hfit Hpop Hwf rank probs s'.
  assert (population self < length (heap s)) by by eapply lookup_lt_Some.
  assert (wp (rank_selection self fitness n) s (fun _ s' =>
    heap s' !! length (heap s) = Some (AFloat probs) /\
    heap s' !! S (length (heap s))
      = Some (AFloat (w_probs (wheel_passes (length probs) probs))))) as H0;
    [|exact H0].
  unfold rank_selection. apply wp_bind, wp_load_floats. rewrite Hfit.
  apply wp_bind, wp_alloc. unfold np_copy.
  apply wp_bind, wp_bind, wp_load. simpl.
  rewrite lookup_app_r, Nat.sub_diag by done. simpl.
  apply wp_alloc. simpl. rewrite length_app. simpl. rewrite Nat.add_1_r.
  apply (wp_after_wheel self (heap s) n _ probs pop); simpl; try done.
  - by rewrite <- app_assoc.
  - intros h1 [[ps pe] parents] Hf. simpl in Hf. frames_auto.
Qed.

Lemma roulette_wheel_selection_probs {ar : arith} self fitness n s fs pop :
  heap s !! fitness = Some (AFloat fs) ->
  heap s !! population self = Some (AGenes pop) -> wf_ga self ->
  ~ (np_sum fs == 0)%Q ->
  let probs := np_divide fs (np_sum fs) in
  let s' := (roulette_wheel_selection self fitness n s).2 in
  heap s' !! length (heap s) = Some (AFloat probs) /\
  heap s' !! S (length (heap s))
    = Some (AFloat (w_probs (wheel_passes (length probs) probs))).
Proof.
  intros Hfit Hpop Hwf Hsum probs s'.
  assert (population self < length (heap s)) by by eapply lookup_lt_Some.
  assert (wp (roulette_wheel_selection self fitness n) s (fun _ s' =>
    heap s' !! length (heap s) = Some (AFloat probs) /\
    heap s' !! S (length (heap s))
      = Some (AFloat (w_probs (wheel_passes (length probs) probs))))) as H0;
    [|exact H0].
  unfold roulette_wheel_selection. apply wp_bind, wp_load_floats. rewrite Hfit.
  destruct (Qeq_bool (np_sum fs) 0) eqn:E; [by apply Qeq_bool_iff in E|].
  apply wp_bind, wp_alloc. unfold np_copy.
  apply wp_bind, wp_bind, wp_load. simpl.
  rewrite lookup_app_r, Nat.sub_diag by done. simpl.
  apply wp_alloc. simpl. rewrite length_app. simpl. rewrite Nat.add_1_r.
  apply (wp_after_wheel self (heap s) n _ probs pop); simpl; try done.
  - by rewrite <- app_assoc.
  - intros h1 [[ps pe] parents] Hf. simpl in Hf. frames_auto.
Qed.

(** ** The stable sort of the indices *)

Lemma insert_by_Permutation key x l : insert_by key x l ≡ₚ x :: l.
Proof.
  induction l as [|h t IH]; simpl; [done|].
  destruct (Qle_bool (key x) (key h)); [done|].
  rewrite IH. apply perm_swap.
Qed.

Lemma sorted_by_Permutation key l : sorted_by key l ≡ₚ l.
Proof.
  induction l as [|x l IH]; simpl; [done|].
  by rewrite insert_by_Permutation, IH.
Qed.

Lemma before_le fs i j : before fs i j -> (nth i fs 0 <= nth j fs 0)%Q.
Proof. intros [H|[H _]]; [by apply Qlt_le_weak | by rewrite H; apply Qle_refl]. Qed.

Lemma insert_by_sorted fs x l :
  StronglySorted (before fs) l -> Forall (fun y => x < y) l ->
  StronglySorted (before fs) (insert_by (fun k => nth k fs 0%Q) x l).
Proof.
  induction 1 as [|h t Hs IH Hh]; intros Hx; simpl.
  - repeat constructor.
  - apply Forall_cons in Hx as [Hxh Hxt].
    destruct (Qle_bool (nth x fs 0%Q) (nth h fs 0%Q)) eqn:E.
    + apply Qle_bool_iff in E. constructor; [by constructor|].
      assert (forall y, y ∈ h :: t -> (nth h fs 0 <= nth y fs 0)%Q) as Hle.
      { intros y Hy. apply elem_of_cons in Hy as [->|Hy]; [apply Qle_refl|].
        apply before_le. by eapply Forall_forall in Hh. }
      apply Forall_forall. intros y Hy. specialize (Hle y Hy).
      assert (x < y) by (by eapply Forall_forall in Hy; [|by constructor]).
      destruct (Qlt_le_dec (nth x fs 0%Q) (nth y fs 0%Q)) as [Hlt|Hge]; [by left|].
      right. split; [|done]. apply Qle_antisym; [|done].
      by eapply Qle_trans.
    + apply not_true_iff_false in E. rewrite Qle_bool_iff in E.
      apply Qnot_le_lt in E. constructor; [by apply IH|].
      apply Forall_forall. intros y Hy.
      rewrite insert_by_Permutation in Hy.
      apply elem_of_cons in Hy as [->|Hy]; [by left|].
      by eapply Forall_forall in Hh.
Qed.

Lemma sorted_by_sorted fs l :
  StronglySorted lt l ->
  StronglySorted (before fs) (sorted_by (fun k => nth k fs 0%Q) l).
Proof.
  induction 1 as [|x l Hs IH Hx]; simpl; [constructor|].
  apply insert_by_sorted; [done|]. by rewrite sorted_by_Permutation.
Qed.

Lemma seq_sorted j n : StronglySorted lt (seq j n).
Proof.
  revert j. induction n as [|n IH]; intros j; simpl; constructor; [done|].
  apply Forall_forall. intros y Hy. apply elem_of_seq in Hy. lia.
Qed.

Lemma fitness_order_sorted fs : StronglySorted (before fs) (fitness_order fs).
Proof. apply sorted_by_sorted, seq_sorted. Qed.

Lemma fitness_order_Permutation fs : fitness_order fs ≡ₚ seq 0 (length fs).
Proof. apply sorted_by_Permutation. Qed.

Lemma StronglySorted_rev {A} (R : relation A) l :
  StronglySorted R l -> StronglySorted (flip R) (rev l).
Proof.
  induction 1 as [|x l Hs IH Hx]; simpl; [constructor|].
  apply StronglySorted_app_2; [|done|repeat constructor].
  intros x1 x2 H1 H2. apply list_elem_of_singleton in H2 as ->.
  apply list_elem_of_In, in_rev, list_elem_of_In in H1. unfold flip.
  by eapply Forall_forall in Hx.
Qed.

Lemma StronglySorted_lookup_lt {A} (R : relation A) l a b x y :
  StronglySorted R l -> a < b -> l !! a = Some x -> l !! b = Some y -> R x y.
Proof.
  intros Hs Hab Ha Hb. rewrite <- (take_drop b l) in Hs.
  eapply StronglySorted_app_1_elem_of; [exact Hs| |].
  - apply elem_of_take. eauto.
  - apply list_elem_of_lookup. exists 0. by rewrite lookup_drop, Nat.add_0_r.
Qed.

(** The indices by descending fitness, as steady-state selection ranks
    them. *)
Lemma ranking_facts fs n :
  let ranking := rev (fitness_order fs) in
  n <= length fs ->
  length (take n ranking) = n /\
  NoDup (take n ranking) /\
  (forall i, i ∈ take n ranking -> i < length fs) /\
  (forall a b i j, a < b ->
     take n ranking !! a = Some i -> take n ranking !! b = Some j ->
     before fs j i) /\
  (forall i j, i ∈ take n ranking -> j < length fs -> j ∉ take n ranking ->
     before fs j i).
Proof.
  intros ranking Hn.
  assert (ranking ≡ₚ seq 0 (length fs)) as Hperm.
  { unfold ranking. rewrite rev_alt. change (rev_append ?l []) with (reverse l).
    by rewrite reverse_Permutation, fitness_order_Permutation. }
  assert (StronglySorted (flip (before fs)) ranking) as Hsorted
    by apply StronglySorted_rev, fitness_order_sorted.
  assert (length ranking = length fs) as Hlen by by rewrite Hperm, length_seq.
  assert (NoDup ranking) as Hnd by (rewrite Hperm; apply NoDup_seq).
  split; [rewrite length_take; lia|].
  split. { rewrite <- (take_drop n ranking) in Hnd. by apply NoDup_app in Hnd as [? _]. }
  split. { intros i Hi. apply elem_of_take in Hi as (a & Ha & _).
           apply list_elem_of_lookup_2 in Ha. rewrite Hperm in Ha.
           apply elem_of_seq in Ha. lia. }
  split.
  - intros a b i j Hab Ha Hb.
    apply (StronglySorted_lookup_lt (flip (before fs)) (take n ranking) a b i j);
      try done.
    rewrite <- (take_drop n ranking) in Hsorted.
    by apply StronglySorted_app_1_l in Hsorted.
  - intros i j Hi Hj Hnj.
    assert (j ∈ ranking) as Hjr by (rewrite Hperm; apply elem_of_seq; lia).
    rewrite <- (take_drop n ranking) in Hjr, Hsorted.
    apply elem_of_app in Hjr as [?|Hjd]; [done|].
    by apply (StronglySorted_app_1_elem_of _ _ _ i j Hsorted).
Qed.

(** ** Steady-state selection, run to the end *)

Lemma steady_state_total self fitness n s fs pop :
  heap s !! fitness = Some (AFloat fs) ->
  heap s !! population self = Some (AGenes pop) -> wf_ga self ->
  n <= length fs -> length fs <= length (m_rows pop) ->
  wp (steady_state_selection self fitness n) s (totpost (fun out s' =>
    out = (length (heap s), take n (rev (fitness_order fs))) /\
    gen s' = gen s /\ log s' = log s)).
Proof.
  intros Hfit Hpop Hwf Hn Hrows.
  assert (population self < length (heap s)) as Hlt by by eapply lookup_lt_Some.
  destruct (ranking_facts fs n Hn) as (Hlen & _ & Hbound & _).
  unfold steady_state_selection. apply wp_bind, wp_load_floats. rewrite Hfit.
  set (L := rev (fitness_order fs)) in *.
  apply wp_bind. eapply wp_mono; [by apply (wp_empty_parents_tot _ _ _ pop)|].
  intros [l|e] s1; simpl; [|done]. intros [-> ->].
  apply wp_bind.
  apply (wp_for_each (fun k _ s' =>
           gen s' = gen s /\ log s' = log s /\
           heap s' !! population self = Some (AGenes pop) /\
           exists par, heap s' !! length (heap s) = Some (AGenes par) /\
                       length (m_rows par) = n)).
  - simpl. repeat split; try done.
    + by rewrite lookup_app_l.
    + eexists. rewrite lookup_app_r, Nat.sub_diag by done. split; [done|].
      simpl. by rewrite length_replicate.
  - intros k x [] s2 Hx (Hg & Hl & Hp & par & Hpar & Hrn).
    apply lookup_seq in Hx as [-> Hk]. simpl.
    destruct (lookup_lt_is_Some_2 (take n L) k) as [i Hi]; [lia|].
    assert (i < length fs) as Hib by (apply Hbound; by eapply list_elem_of_lookup_2).
    rewrite lookup_take in Hi. destruct (decide (k < n)); [|lia].
    apply wp_bind, wp_list_get. rewrite Hi.
    apply wp_bind, wp_get_row. rewrite Hp.
    destruct (lookup_lt_is_Some_2 (m_rows pop) i) as [row Hrow]; [lia|]. rewrite Hrow.
    apply wp_set_row. rewrite Hpar, Hrn.
    destruct (Nat.ltb_spec k n); [|lia]. simpl.
    assert (length (heap s) < length (heap s2)) by by eapply lookup_lt_Some.
    repeat split; try done.
    + rewrite list_lookup_insert_ne by lia. done.
    + eexists. split; [by apply list_lookup_insert_eq|]. simpl.
      by rewrite length_insert.
  - intros [] s2 (Hg & Hl & _). by apply wp_ret.
Qed.

(** ** Tournament selection, run to the end *)

Lemma foldl_Qmax_ge x rest :
  (x <= foldl Qmax x rest)%Q /\ Forall (fun y => (y <= foldl Qmax x rest)%Q) rest.
Proof.
  revert x. induction rest as [|y rest IH]; intros x; simpl.
  - split; [apply Qle_refl | constructor].
  - destruct (IH (Qmax x y)) as [H1 H2]. split.
    + eapply Qle_trans; [apply Q.le_max_l | exact H1].
    + constructor; [|done]. eapply Qle_trans; [apply Q.le_max_r | exact H1].
Qed.

Lemma foldl_Qmax_elem x rest :
  Exists (fun y => (y == foldl Qmax x rest)%Q) (x :: rest).
Proof.
  revert x. induction rest as [|y rest IH]; intros x; simpl.
  - left. reflexivity.
  - specialize (IH (Qmax x y)). apply Exists_cons in IH as [H|H].
    + destruct (Q.max_spec x y) as [[_ Hm]|[_ Hm]].
      * right. left. by rewrite <- H, Hm.
      * left. by rewrite <- H, Hm.
    + by do 2 right.
Qed.

Lemma argmax_first_spec xs j :
  argmax_first xs = Some j ->
  exists m, xs !! j = Some m /\
    Forall (fun y => (y <= m)%Q) xs /\
    forall j' y, j' < j -> xs !! j' = Some y -> (y < m)%Q.
Proof.
  unfold argmax_first. destruct xs as [|p rest]; [done|].
  set (m := foldl Qmax p rest). intros H.
  apply where_from_head in H as (i & -> & Hi & Hlt). simpl.
  unfold np_eq in Hi. rewrite list_lookup_fmap in Hi.
  destruct ((p :: rest) !! i) as [x|] eqn:Hx; [|done]. simpl in Hi.
  injection Hi as Hi. apply Qeq_bool_iff in Hi. exists x. split; [done|].
  destruct (foldl_Qmax_ge p rest) as [H1 H2]. fold m in H1, H2.
  assert (Forall (fun y => (y <= m)%Q) (p :: rest)) as Hall by by constructor.
  split.
  - eapply Forall_impl; [exact Hall|]. intros y Hy. simpl in Hy. by rewrite Hi.
  - intros j' y Hj' Hy. specialize (Hlt j' Hj').
    unfold np_eq in Hlt. rewrite list_lookup_fmap, Hy in Hlt. simpl in Hlt.
    injection Hlt as Hlt. apply not_true_iff_false in Hlt.
    rewrite Qeq_bool_iff in Hlt.
    pose proof (Forall_lookup_1 _ _ _ _ Hall Hy) as Hle. simpl in Hle.
    rewrite Hi. apply Qle_lteq in Hle as [?|?]; done.
Qed.

Lemma argmax_first_is_Some xs : xs <> [] -> is_Some (argmax_first xs).
Proof.
  destruct xs as [|p rest]; [done|]. intros _. unfold argmax_first.
  pose proof (foldl_Qmax_elem p rest) as H.
  apply Exists_exists in H as (y & Hy & Heq).
  apply list_elem_of_lookup in Hy as [j Hj].
  apply (where_from_head_true _ _ j). unfold np_eq.
  rewrite list_lookup_fmap, Hj. simpl. f_equal. by apply Qeq_bool_iff.
Qed.

Lemma wp_np_take_tot l idxs s xs (Q' : result (list Q) -> state -> Prop) :
  heap s !! l = Some (AFloat xs) ->
  Forall (fun i => i < length xs) idxs ->
  Q' (Ok (map (fun i => nth i xs 0%Q) idxs)) s ->
  wp (np_take l idxs) s Q'.
Proof.
  intros Hl Hall HQ. unfold np_take. apply wp_bind, wp_load_floats. rewrite Hl.
  apply wp_mapM_list_get.
  - intros ys Hys. replace ys with (map (fun i => nth i xs 0%Q) idxs); [done|].
    clear HQ Hall. induction Hys as [|i y idxs ys Hi _ IH]; simpl; [done|].
    by rewrite IH, (nth_lookup_Some _ _ _ _ Hi).
  - intros Hex. apply Exists_exists in Hex as (i & Hi & Hn).
    apply lookup_ge_None in Hn.
    pose proof (proj1 (Forall_forall _ _) Hall i Hi). simpl in *. lia.
Qed.

Section TournamentRun.
Context (self : GA) (fitness : loc) (n : nat) (s : state)
        (fs : list Q) (pop : matrix).
Hypothesis Hfit : heap s !! fitness = Some (AFloat fs).
Hypothesis Hpop : heap s !! population self = Some (AGenes pop).
Hypothesis Hwf : wf_ga self.
Hypothesis HK : 0 < K_tournament self.
Hypothesis Hdraws : forall k, r_ints (gen s) k < length fs.
Hypothesis Hrows : length fs <= length (m_rows pop).

Lemma tournament_total :
  wp (tournament_selection self fitness n) s (totpost (fun out s' =>
    length out.2 = n /\
    (forall p w, out.2 !! p = Some w ->
       wins fs (candidate (gen s) (K_tournament self) p) (K_tournament self) w) /\
    r_icount (gen s') = r_icount (gen s) + n * K_tournament self)).
Proof.
  set (K := K_tournament self) in *.
  assert (population self < length (heap s)) as Hlt by by eapply lookup_lt_Some.
  assert (fitness < length (heap s)) as Hlt' by by eapply lookup_lt_Some.
  assert (0 < length fs) as Hfs by (pose proof (Hdraws 0); lia).
  unfold tournament_selection.
  apply wp_bind. eapply wp_mono; [by apply (wp_empty_parents_tot _ _ _ pop)|].
  intros [l|e] s1; simpl; [|done]. intros [-> ->].
  apply wp_bind.
  apply (wp_for_each (fun k idxs s' =>
           r_ints (gen s') = r_ints (gen s) /\
           r_icount (gen s') = r_icount (gen s) + k * K /\
           heap s' !! fitness = Some (AFloat fs) /\
           heap s' !! population self = Some (AGenes pop) /\
           (exists par, heap s' !! length (heap s) = Some (AGenes par) /\
                        length (m_rows par) = n) /\
           length idxs = k /\
           forall p w, idxs !! p = Some w ->
             wins fs (candidate (gen s) K p) K w)).
  - simpl. repeat split; try done.
    + by rewrite lookup_app_l.
    + by rewrite lookup_app_l.
    + eexists. rewrite lookup_app_r, Nat.sub_diag by done. split; [done|].
      simpl. by rewrite length_replicate.
  - intros k x idxs s2 Hx (Hri & Hrc & Hf & Hp & (par & Hpar & Hrn) & Hlen & Hwin).
    apply lookup_seq in Hx as [-> Hk]. simpl.
    apply wp_bind, wp_np_len. rewrite Hf.
    unfold np_random_randint. fold K.
    destruct (Nat.eqb_spec K 0) as [?|_]; [lia|].
    destruct (Nat.eqb_spec (length fs) 0) as [?|_]; [lia|].
    apply wp_bind. unfold wp at 1. simpl.
    set (cands := map (fun j => r_ints (gen s2) (r_icount (gen s2) + j)) (seq 0 K)).
    set (s3 := set_gen _ s2).
    assert (forall j, j < K -> cands !! j = Some (candidate (gen s) K k j)) as Hc.
    { intros j Hj. unfold cands. rewrite list_lookup_fmap, lookup_seq_lt by done.
      simpl. unfold candidate. by rewrite Hri, Hrc. }
    assert (length cands = K) as Hlc by (unfold cands; by rewrite length_map, length_seq).
    apply wp_bind, (wp_np_take_tot _ _ _ fs); [done| |].
    { apply Forall_forall. intros i Hi. unfold cands in Hi.
      apply list_elem_of_fmap in Hi as (j & -> & _). rewrite Hri. apply Hdraws. }
    set (Kf := map (fun i => nth i fs 0%Q) cands).
    assert (Kf <> []) as Hne.
    { intros Hnil. apply (f_equal length) in Hnil. unfold Kf in Hnil.
      rewrite length_map in Hnil. simpl in Hnil. lia. }
    destruct (argmax_first_is_Some _ Hne) as [j Hj].
    destruct (argmax_first_spec _ _ Hj) as (m & Hm & Hmax & Hfirst).
    assert (j < K) as HjK.
    { apply lookup_lt_Some in Hm. unfold Kf in Hm. rewrite length_map in Hm. lia. }
    unfold argmax_first in Hj. unfold np_max.
    destruct Kf as [|x0 rest] eqn:HKf; [done|]. rewrite <- HKf in *.
    apply wp_bind, wp_ret, wp_bind, wp_list_get. rewrite <- head_lookup, Hj.
    apply wp_bind, wp_list_get. rewrite (Hc j HjK).
    set (w := candidate (gen s) K k j).
    assert (w < length fs) as Hw by (unfold w, candidate; apply Hdraws).
    assert (forall j', j' < K ->
              Kf !! j' = Some (nth (candidate (gen s) K k j') fs 0%Q)) as HKf'.
    { intros j' Hj'. unfold Kf. by rewrite list_lookup_fmap, (Hc j' Hj'). }
    assert (m = nth w fs 0%Q) as Hmw.
    { rewrite (HKf' j HjK) in Hm. by injection Hm. }
    apply wp_bind, wp_get_row. simpl. rewrite Hp.
    destruct (lookup_lt_is_Some_2 (m_rows pop) w) as [row Hrow]; [lia|]. rewrite Hrow.
    apply wp_bind, wp_set_row. simpl. rewrite Hpar, Hrn.
    destruct (Nat.ltb_spec k n); [|lia]. apply wp_ret. simpl.
    assert (length (heap s) < length (heap s2)) by by eapply lookup_lt_Some.
    repeat split; try done.
    + lia.
    + by rewrite list_lookup_insert_ne by lia.
    + by rewrite list_lookup_insert_ne by lia.
    + eexists. split; [by apply list_lookup_insert_eq|]. simpl.
      by rewrite length_insert.
    + rewrite length_app. simpl. lia.
    + intros p w' Hp'. destruct (decide (p < length idxs)) as [Hpl|Hpl].
      * rewrite lookup_app_l in Hp' by done. by apply Hwin.
      * assert (p = length idxs) as ->.
        { apply lookup_lt_Some in Hp'. rewrite length_app in Hp'. simpl in Hp'. lia. }
        rewrite lookup_app_r, Nat.sub_diag in Hp' by done. injection Hp' as <-.
        rewrite Hlen. exists j. split; [done|]. split; [done|]. fold w. split.
        -- intros j' Hj'. rewrite <- Hmw.
           apply (Forall_lookup_1 _ _ _ _ Hmax (HKf' j' Hj')).
        -- intros j' Hj'. rewrite <- Hmw.
           apply (Hfirst j' _ Hj'). apply HKf'. lia.
  - intros idxs s2 (_ & Hrc & _ & _ & _ & Hlen & Hwin).
    rewrite length_seq in *. by apply wp_ret.
Qed.

End TournamentRun.

(** ** Stochastic universal selection, run to the end *)

Lemma bind_run_ok {A B} (m : M A) (f : A -> M B) s a s1 :
  m s = (Ok a, s1) -> bind m f s = f a s1.
Proof. intros H. unfold bind. by rewrite H. Qed.

Lemma bind_run_raise {A B} (m : M A) (f : A -> M B) s e s1 :
  m s = (Raise e, s1) -> bind m f s = (Raise e, s1).
Proof. intros H. unfold bind. by rewrite H. Qed.

Lemma wp_tot_run {A} (m : M A) s (P : A -> state -> Prop) :
  wp m s (totpost P) -> exists a s', m s = (Ok a, s') /\ P a s'.
Proof.
  unfold wp. destruct (m s) as [[a|e] s']; simpl; [|done]. intros H. by exists a, s'.
Qed.

Lemma find_from_spec idxs starts ends r :
  match find_from idxs starts ends r with
  | Some idx => idx ∈ idxs /\ contains starts ends idx r
  | None => forall idx, idx ∈ idxs -> ~ contains starts ends idx r
  end.
Proof.
  induction idxs as [|i idxs IH]; simpl.
  - intros idx Hidx. by apply elem_of_nil in Hidx.
  - destruct (Qle_bool (nth i starts 0%Q) r && Qlt_bool r (nth i ends 0%Q)) eqn:E.
    + apply andb_true_iff in E as [E1 E2].
      apply Qle_bool_iff in E1. apply Qlt_bool_iff in E2.
      split; [left|done].
    + destruct (find_from idxs starts ends r) as [idx|].
      * destruct IH as [H1 H2]. split; [by right|done].
      * intros idx Hidx [H1 H2]. apply elem_of_cons in Hidx as [->|Hidx].
        -- apply andb_false_iff in E as [E|E]; apply not_true_iff_false in E.
           ++ by rewrite Qle_bool_iff in E.
           ++ by rewrite Qlt_bool_iff in E.
        -- by apply (IH idx Hidx).
Qed.

Lemma find_range_Some starts ends r idx :
  find_range starts ends r = Some idx ->
  idx < length starts /\ contains starts ends idx r.
Proof.
  intros H. unfold find_range in H.
  pose proof (find_from_spec (seq 0 (length starts)) starts ends r) as Hs.
  rewrite H in Hs. destruct Hs as [Hin Hc]. split; [|done].
  apply elem_of_seq in Hin. lia.
Qed.

Lemma find_range_None starts ends r :
  find_range starts ends r = None ->
  forall idx, idx < length starts -> ~ contains starts ends idx r.
Proof.
  intros H idx Hidx. unfold find_range in H.
  pose proof (find_from_spec (seq 0 (length starts)) starts ends r) as Hs.
  rewrite H in Hs. apply Hs, elem_of_seq. lia.
Qed.

(** The scan of the wheel is [find_range]. *)
Lemma wp_scan_wheel_find {V} probs ps pe r (on_hit : nat -> V -> M V) v s
    xs starts ends Q' :
  heap s !! probs = Some (AFloat xs) ->
  heap s !! ps = Some (AFloat starts) ->
  heap s !! pe = Some (AFloat ends) ->
  length starts = length xs -> length ends = length xs ->
  match find_range starts ends r with
  | Some idx => wp (on_hit idx v) s Q'
  | None => Q' (Ok v) s
  end ->
  wp (scan_wheel probs ps pe r on_hit v) s Q'.
Proof.
  intros Hp Hs He Hls Hle H. unfold scan_wheel. unfold find_range in H.
  apply wp_bind, wp_np_len. rewrite Hp. rewrite Hls in H.
  assert (Forall (fun i => i < length xs) (seq 0 (length xs))) as Hall.
  { apply Forall_forall. intros i Hi. apply elem_of_seq in Hi. lia. }
  revert Hall H. generalize (seq 0 (length xs)) as idxs.
  induction idxs as [|i idxs IH]; intros Hall H; simpl in *.
  - by apply wp_ret.
  - apply Forall_cons in Hall as [Hi Hall].
    apply wp_bind, wp_bind. unfold py_and.
    apply wp_bind, wp_bind, wp_get_item. rewrite Hs.
    destruct (lookup_lt_is_Some_2 starts i) as [lo Hlo]; [lia|]. rewrite Hlo.
    rewrite (nth_lookup_Some _ _ _ _ Hlo) in H.
    destruct (lookup_lt_is_Some_2 ends i) as [hi Hhi]; [lia|].
    rewrite (nth_lookup_Some _ _ _ _ Hhi) in H.
    apply wp_ret. destruct (Qle_bool lo r); simpl in *.
    + apply wp_bind, wp_get_item. rewrite He, Hhi. apply wp_ret.
      destruct (Qlt_bool r hi); simpl.
      * apply wp_bind. eapply wp_mono; [exact H|]. by intros [a|e] s1.
      * apply wp_ret. by apply IH.
    + apply wp_ret. simpl. apply wp_ret. by apply IH.
Qed.

Lemma lookup_app_at {A} (h : list A) (t : list A) i :
  (h ++ t) !! (length h + i) = t !! i.
Proof. rewrite lookup_app_r by lia. f_equal. lia. Qed.

(** Up to the wheel: the normalised fitness and the two range arrays are
    allocated after the store of the call, nothing else changes, and the
    sampling starts from there. *)
Lemma wp_sus_wheel {ar : arith} self fitness n s fs Q' :
  heap s !! fitness = Some (AFloat fs) ->
  Qeq_bool (np_sum fs) 0 = false ->
  (forall s4,
     let P := np_divide fs (np_sum fs) in
     let W := wheel_passes (length P) P in
     heap s4 = heap s ++ [AFloat (w_probs W); AFloat (w_start W); AFloat (w_end W)] ->
     gen s4 = gen s -> log s4 = log s -> cd_calls s4 = cd_calls s ->
     wp (sus_sampling self (length (heap s)) (S (length (heap s)))
                      (S (S (length (heap s)))) n) s4 Q') ->
  wp (stochastic_universal_selection self fitness n) s Q'.
Proof.
  intros Hfit Hsum Hrest. unfold stochastic_universal_selection.
  apply wp_bind, wp_load_floats. rewrite Hfit, Hsum.
  set (P := np_divide fs (np_sum fs)) in *.
  apply wp_bind, wp_alloc, wp_bind, wp_np_len. simpl.
  rewrite list_lookup_middle by done.
  apply wp_bind, wp_alloc, wp_bind, wp_alloc. simpl.
  rewrite !length_app. simpl. rewrite <- !app_assoc. simpl.
  rewrite !Nat.add_1_r.
  set (L := length (heap s)) in *.
  apply wp_bind. eapply wp_mono.
  { apply (wp_wheel_loop L (S L) (S (S L)) P).
    - apply NoDup_3; lia.
    - unfold wheel_at. simpl.
      replace L with (L + 0) at 1 by lia.
      replace (S L) with (L + 1) by lia. replace (S (L + 1)) with (L + 2) by lia.
      unfold L. by rewrite !lookup_app_at. }
  intros [c|e] s4; simpl; [|done]. intros (_ & (Ha & Hb & Hc) & Hsb).
  destruct Hsb as (Hg & Hlg & Hcd & Hlen & Hoth). simpl in *.
  rewrite !length_app in Hlen. simpl in Hlen.
  apply Hrest; try done.
  apply list_eq. intros l.
  destruct (decide (l < L)) as [Hl|Hl].
  - rewrite Hoth by (apply not_elem_of_3; lia).
    by rewrite !lookup_app_l.
  - destruct (decide (l = L)) as [->|Hn1].
    { rewrite Ha. replace L with (L + 0) at 1 by lia. unfold L.
      by rewrite lookup_app_at. }
    destruct (decide (l = S L)) as [->|Hn2].
    { rewrite Hb. replace (S L) with (L + 1) by lia. unfold L.
      by rewrite lookup_app_at. }
    destruct (decide (l = S (S L))) as [->|Hn3].
    { rewrite Hc. replace (S (S L)) with (L + 2) by lia. unfold L.
      by rewrite lookup_app_at. }
    rewrite !lookup_ge_None_2; [done| |]; rewrite ?length_app; simpl; fold L; lia.
Qed.

Lemma sus_indices_S {ar : arith} starts ends first d k :
  sus_indices starts ends first d (S k) =
  sus_indices starts ends first d k
    ++ match find_range starts ends (sus_pointer first d k) with
       | Some idx => [idx]
       | None => []
       end.
Proof.
  unfold sus_indices. rewrite seq_S, omap_app. simpl.
  by destruct (find_range starts ends (sus_pointer first d k)).
Qed.

(** The sampling: one uniform draw, then one scan of the wheel for each of
    the [n] pointers. *)
Lemma wp_sus_sampling {ar : arith} self n s h P ws we pop :
  heap s = h ++ [AFloat P; AFloat ws; AFloat we] ->
  h !! population self = Some (AGenes pop) -> wf_ga self ->
  num_parents_mating self <> 0 ->
  length ws = length P -> length we = length P ->
  length P <= length (m_rows pop) ->
  wp (sus_sampling self (length h) (S (length h)) (S (S (length h))) n) s
     (totpost (fun out s' =>
        let d := fdiv 1 (inject_Z (Z.of_nat (num_parents_mating self))) in
        let u := r_floats (gen s) (r_fcount (gen s)) in
        let first := fadd 0 (fmul (fsub d 0) u) in
        out.1 = length h + 3 /\
        out.2 = sus_indices ws we first d n /\
        gen s' = Rng (r_ints (gen s)) (r_floats (gen s)) (r_icount (gen s))
                     (S (r_fcount (gen s))) /\
        log s' = log s /\ cd_calls s' = cd_calls s /\
        exists rows,
          heap s' = h ++ [AFloat P; AFloat ws; AFloat we;
                          AGenes (Matrix (parents_dtype self) (m_cols pop) rows)] /\
          length rows = n /\
          forall i, i < n ->
            rows !! i = match find_range ws we (sus_pointer first d i) with
                        | Some idx => m_rows pop !! idx
                        | None => Some None
                        end)).
Proof.
  intros Hh Hpop Hwf Hnpm Hlws Hlwe Hrows. unfold sus_sampling.
  apply wp_bind. unfold py_inverse.
  destruct (Nat.eqb_spec (num_parents_mating self) 0) as [|_]; [done|].
  apply wp_ret, wp_bind. unfold np_random_uniform. apply wp_bind.
  unfold wp at 1. simpl. apply wp_ret.
  set (d := fdiv 1 (inject_Z (Z.of_nat (num_parents_mating self)))).
  set (first := fadd 0 (fmul (fsub d 0) (r_floats (gen s) (r_fcount (gen s))))).
  set (g := Rng _ _ _ _).
  apply wp_bind. eapply wp_mono.
  { apply (wp_empty_parents_tot self n _ pop); [|done].
    simpl. rewrite Hh. by apply lookup_app_l_Some. }
  intros [lp|e] s2; simpl; [|done]. intros [-> ->].
  rewrite Hh, length_app. simpl. rewrite <- app_assoc. simpl.
  set (L := length h).
  apply wp_bind.
  apply (wp_for_each (fun k idxs s' =>
           idxs = sus_indices ws we first d k /\
           gen s' = g /\ log s' = log s /\ cd_calls s' = cd_calls s /\
           exists rows,
             length rows = n /\
             heap s' = h ++ [AFloat P; AFloat ws; AFloat we;
                             AGenes (Matrix (parents_dtype self) (m_cols pop) rows)] /\
             (forall i, i < k ->
                rows !! i = match find_range ws we (sus_pointer first d i) with
                            | Some idx => m_rows pop !! idx
                            | None => Some None
                            end) /\
             (forall i, k <= i < n -> rows !! i = Some None))).
  - repeat split; try done. exists (replicate n None).
    rewrite length_replicate. split; [done|]. split; [done|].
    split; [lia|]. intros i Hi. apply lookup_replicate_2. lia.
  - intros k x idxs s' Hx (-> & Hg & Hlg & Hcd & rows & Hlen & Hs' & Hdone & Hrest).
    apply lookup_seq in Hx as [-> Hk]. simpl.
    assert (heap s' !! L = Some (AFloat P)) as H0.
    { rewrite Hs'. replace L with (L + 0) by lia. unfold L. by rewrite lookup_app_at. }
    assert (heap s' !! S L = Some (AFloat ws)) as H1.
    { rewrite Hs'. replace (S L) with (L + 1) by lia. unfold L. by rewrite lookup_app_at. }
    assert (heap s' !! S (S L) = Some (AFloat we)) as H2.
    { rewrite Hs'. replace (S (S L)) with (L + 2) by lia. unfold L.
      by rewrite lookup_app_at. }
    eapply wp_scan_wheel_find; [exact H0|exact H1|exact H2|done|done|].
    rewrite sus_indices_S. fold (sus_pointer first d k).
    destruct (find_range ws we (sus_pointer first d k)) as [idx|] eqn:E.
    + pose proof (find_range_Some _ _ _ _ E) as [Hidx _].
      apply wp_bind, wp_get_row.
      rewrite Hs', (lookup_app_l_Some _ _ _ _ Hpop).
      destruct (lookup_lt_is_Some_2 (m_rows pop) idx) as [row Hrow]; [lia|].
      rewrite Hrow. apply wp_bind, wp_set_row.
      assert ((h ++ [AFloat P; AFloat ws; AFloat we;
                     AGenes (Matrix (parents_dtype self) (m_cols pop) rows)])
                !! (L + 3) =
              Some (AGenes (Matrix (parents_dtype self) (m_cols pop) rows))) as H3.
      { unfold L. by rewrite lookup_app_at. }
      rewrite Hs', H3. simpl.
      destruct (Nat.ltb_spec k (length rows)) as [_|?]; [|lia].
      apply wp_ret. simpl. repeat split; try done.
      exists (<[k:=row]> rows). split; [by rewrite length_insert|].
      split; [unfold L; by rewrite insert_app_r|].
      split.
      * intros i Hi. destruct (decide (i = k)) as [->|Hne].
        -- rewrite list_lookup_insert_eq by lia. by rewrite E.
        -- rewrite list_lookup_insert_ne by done. apply Hdone. lia.
      * intros i Hi. rewrite list_lookup_insert_ne by lia. apply Hrest. lia.
    + rewrite app_nil_r. repeat split; try done. exists rows.
      split; [done|]. split; [done|]. split.
      * intros i Hi. destruct (decide (i = k)) as [->|Hne].
        -- rewrite E. apply Hrest. lia.
        -- apply Hdone. lia.
      * intros i Hi. apply Hrest. lia.
  - intros idxs s' (-> & Hg & Hlg & Hcd & rows & Hlen & Hs' & Hdone & _).
    apply wp_ret. simpl. rewrite length_seq in *.
    split; [unfold L; lia|]. repeat split; try done. by exists rows.
Qed.

Lemma find_from_seq_first a len starts ends r idx :
  find_from (seq a len) starts ends r = Some idx ->
  forall j, a <= j < idx -> ~ contains starts ends j r.
Proof.
  revert a. induction len as [|len IH]; intros a; simpl; [done|].
  destruct (Qle_bool (nth a starts 0%Q) r && Qlt_bool r (nth a ends 0%Q)) eqn:E.
  - intros [= <-] j Hj. lia.
  - intros H j Hj. destruct (decide (j = a)) as [->|Hne].
    + intros [H1 H2]. apply andb_false_iff in E as [E|E]; apply not_true_iff_false in E.
      * by rewrite Qle_bool_iff in E.
      * by rewrite Qlt_bool_iff in E.
    + apply (IH (S a) H). lia.
Qed.

Lemma find_range_first starts ends r idx :
  find_range starts ends r = Some idx ->
  forall j, j < idx -> ~ contains starts ends j r.
Proof.
  intros H j Hj. apply (find_from_seq_first 0 (length starts) _ _ _ idx H). lia.
Qed.

Lemma sus_indices_all_hit {ar : arith} starts ends first d n :
  (forall i, i < n -> is_Some (find_range starts ends (sus_pointer first d i))) ->
  length (sus_indices starts ends first d n) = n /\
  forall i, i < n ->
    sus_indices starts ends first d n !! i
    = find_range starts ends (sus_pointer first d i).
Proof.
  induction n as [|n IH]; intros Hall.
  - split; [done|]. lia.
  - destruct IH as [IH1 IH2]; [intros i Hi; apply Hall; lia|].
    rewrite sus_indices_S.
    destruct (Hall n) as [idx Hidx]; [lia|]. rewrite Hidx.
    split; [rewrite length_app; simpl; lia|].
    intros i Hi. destruct (decide (i = n)) as [->|Hne].
    + rewrite lookup_app_r by lia. by rewrite IH1, Nat.sub_diag, Hidx.
    + rewrite lookup_app_l by lia. apply IH2. lia.
Qed.

Lemma np_divide_length {ar : arith} xs d : length (np_divide xs d) = length xs.
Proof. unfold np_divide. by rewrite length_map. Qed.

(** ** Where a [ZeroDivisionError] comes from *)

Lemma load_floats_run l s xs :
  heap s !! l = Some (AFloat xs) -> load_floats l s = (Ok xs, s).
Proof. intros H. unfold load_floats, bind, load. by rewrite H. Qed.

Lemma quiet_raises_zde {A} (m : M A) s : quiet m -> ~ raises_zde (m s).
Proof.
  intros Hq [msg Hmsg]. destruct (Hq s) as [_ H].
  apply (H _ Hmsg). by exists msg.
Qed.

Section ZeroDivision.
Context {ar : arith} (self : GA) (fitness : loc) (num_parents : nat) (s : state) (fs : list Q).
Hypothesis Hfit : heap s !! fitness = Some (AFloat fs).

Lemma roulette_wheel_zero_sum :
  (np_sum fs == 0)%Q ->
  roulette_wheel_selection self fitness num_parents s
  = (Raise (ZeroDivisionError zero_sum_msg), refused s).
Proof.
  intros Hsum. apply Qeq_bool_iff in Hsum. unfold roulette_wheel_selection.
  rewrite (bind_run_ok _ _ _ _ _ (load_floats_run _ _ _ Hfit)).
  by rewrite Hsum.
Qed.

Lemma stochastic_universal_zero_sum :
  (np_sum fs == 0)%Q ->
  stochastic_universal_selection self fitness num_parents s
  = (Raise (ZeroDivisionError zero_sum_msg), refused s).
Proof.
  intros Hsum. apply Qeq_bool_iff in Hsum. unfold stochastic_universal_selection.
  rewrite (bind_run_ok _ _ _ _ _ (load_floats_run _ _ _ Hfit)).
  by rewrite Hsum.
Qed.

Lemma roulette_wheel_nonzero_sum :
  ~ (np_sum fs == 0)%Q ->
  let out := roulette_wheel_selection self fitness num_parents s in
  ~ raises_zde out /\ log out.2 = log s.
Proof.
  intros Hsum. apply (not_iff_compat (Qeq_bool_iff _ _)) in Hsum.
  apply not_true_iff_false in Hsum. unfold roulette_wheel_selection.
  rewrite (bind_run_ok _ _ _ _ _ (load_floats_run _ _ _ Hfit)).
  rewrite Hsum. cbv zeta.
  match goal with
  | |- ~ raises_zde (?m s) /\ _ => assert (quiet m) as Hq
  end.
  { quiet_auto. apply quiet_scan_wheel. intros. quiet_auto. }
  split; [by apply quiet_raises_zde|apply Hq].
Qed.

Lemma stochastic_universal_nonzero :
  ~ (np_sum fs == 0)%Q -> num_parents_mating self <> 0 ->
  let out := stochastic_universal_selection self fitness num_parents s in
  ~ raises_zde out /\ log out.2 = log s.
Proof.
  intros Hsum Hnpm. apply (not_iff_compat (Qeq_bool_iff _ _)) in Hsum.
  apply not_true_iff_false in Hsum. unfold stochastic_universal_selection.
  rewrite (bind_run_ok _ _ _ _ _ (load_floats_run _ _ _ Hfit)).
  rewrite Hsum. cbv zeta.
  match goal with
  | |- ~ raises_zde (?m s) /\ _ => assert (quiet m) as Hq
  end.
  { quiet_auto; try by apply quiet_py_inverse.
    apply quiet_scan_wheel. intros. quiet_auto. }
  split; [by apply quiet_raises_zde|apply Hq].
Qed.

(** With a mating pool of size zero the spacing of the pointers cannot be
    computed: the wheel is built, then [1.0 / num_parents_mating] fails. *)
Lemma stochastic_universal_empty_pool :
  ~ (np_sum fs == 0)%Q -> num_parents_mating self = 0 ->
  let out := stochastic_universal_selection self fitness num_parents s in
  out.1 = Raise (ZeroDivisionError float_division_msg) /\
  gen out.2 = gen s /\ log out.2 = log s.
Proof.
  intros Hsum Hnpm. apply (not_iff_compat (Qeq_bool_iff _ _)) in Hsum.
  apply not_true_iff_false in Hsum. cbv zeta.
  apply (wp_sus_wheel self fitness num_parents s fs
           (fun r s' => r = Raise (ZeroDivisionError float_division_msg) /\
                        gen s' = gen s /\ log s' = log s) Hfit Hsum).
  intros s4 P W Hh Hg Hlg Hcd. unfold sus_sampling.
  apply wp_bind. unfold py_inverse. rewrite Hnpm. by apply wp_raise.
Qed.

End ZeroDivision.

(** ** The duel between the first two candidates *)

Lemma wp_is_run {A} (m : M A) s r0 s0 :
  wp m s (fun r s' => r = r0 /\ s' = s0) -> m s = (r0, s0).
Proof. unfold wp. destruct (m s) as [r s']. simpl. by intros [-> ->]. Qed.

Lemma index_from_lt k l x i : index_from k l x = Some i -> k <= i < k + length l.
Proof.
  revert k. induction l as [|y l IH]; intros k; simpl; [done|].
  destruct (y =? x).
  - intros [= <-]. lia.
  - intros H. apply IH in H. lia.
Qed.

Section Duel.
Context {ar : arith} (crowding_distance : front -> list (list Q) -> crowding)
        (fit : list (list Q)) (pareto_fronts : list front)
        (solutions_fronts_indices : list nat)
        (c0 c1 : nat) (rest : list nat) (f0 f1 : nat).
Hypothesis Hrest : Forall (fun c => c < length solutions_fronts_indices) rest.
Hypothesis Hf0 : solutions_fronts_indices !! c0 = Some f0.
Hypothesis Hf1 : solutions_fronts_indices !! c1 = Some f1.

#[local] Abbreviation duel :=
  (nsga2_duel crowding_distance fit pareto_fronts solutions_fronts_indices
              (c0 :: c1 :: rest)).

(** The fronts of the candidates are looked up for all of them; the duel
    then reads the first two. *)
Lemma wp_duel_fronts s Q' :
  wp (if f0 <? f1 then list_get (c0 :: c1 :: rest) 0
      else if f1 <? f0 then list_get (c0 :: c1 :: rest) 1
      else
        let* pareto_front := list_get pareto_fronts f0 in
        if length pareto_front =? 1 then list_get (c0 :: c1 :: rest) 0
        else
          let* '(_, crowding_distance_sum, _, crowding_dist_pop_sorted_indices) :=
            call_crowding_distance crowding_distance pareto_front fit in
          let* c0' := list_get (c0 :: c1 :: rest) 0 in
          let* solution1_idx := list_index crowding_dist_pop_sorted_indices c0' in
          let* c1' := list_get (c0 :: c1 :: rest) 1 in
          let* solution2_idx := list_index crowding_dist_pop_sorted_indices c1' in
          let* d0 := list_get crowding_distance_sum solution1_idx in
          let* d1 := list_get crowding_distance_sum solution2_idx in
          if Qlt_bool (snd d1) (snd d0) then list_get (c0 :: c1 :: rest) 0
          else if Qlt_bool (snd d0) (snd d1) then list_get (c0 :: c1 :: rest) 1
          else
            let* rand_num := np_random_uniform 0 1 in
            if Qlt_bool rand_num (1 # 2) then list_get (c0 :: c1 :: rest) 0
            else list_get (c0 :: c1 :: rest) 1) s Q' ->
  wp duel s Q'.
Proof.
  intros H. unfold nsga2_duel. apply wp_bind, wp_mapM_list_get.
  - intros ys Hys.
    apply Forall2_cons_inv_l in Hys as (y0 & ys1 & Hy0 & Hys & ->).
    apply Forall2_cons_inv_l in Hys as (y1 & ys2 & Hy1 & Hys & ->).
    rewrite Hf0 in Hy0. rewrite Hf1 in Hy1. injection Hy0 as <-. injection Hy1 as <-.
    apply wp_bind, wp_list_get. simpl. apply wp_bind, wp_list_get. simpl. exact H.
  - intros Hex. exfalso.
    apply Exists_cons in Hex as [Hex|Hex]; [by rewrite Hf0 in Hex|].
    apply Exists_cons in Hex as [Hex|Hex]; [by rewrite Hf1 in Hex|].
    apply Exists_exists in Hex as (c & Hc & Hnone).
    rewrite Forall_forall in Hrest. apply Hrest in Hc.
    apply lookup_ge_None in Hnone. lia.
Qed.

Lemma duel_lower_front_first s : f0 < f1 -> duel s = (Ok c0, s).
Proof.
  intros Hlt. apply wp_is_run, wp_duel_fronts.
  destruct (Nat.ltb_spec f0 f1); [|lia]. by apply wp_list_get.
Qed.

Lemma duel_lower_front_second s : f1 < f0 -> duel s = (Ok c1, s).
Proof.
  intros Hlt. apply wp_is_run, wp_duel_fronts.
  destruct (Nat.ltb_spec f0 f1); [lia|].
  destruct (Nat.ltb_spec f1 f0); [|lia]. by apply wp_list_get.
Qed.

Section SameFront.
Context (pareto_front : front).
Hypothesis Hsame : f0 = f1.
Hypothesis Hfront : pareto_fronts !! f0 = Some pareto_front.

Lemma wp_duel_same_front s Q' :
  wp (if length pareto_front =? 1 then list_get (c0 :: c1 :: rest) 0
      else
        let* '(_, crowding_distance_sum, _, crowding_dist_pop_sorted_indices) :=
          call_crowding_distance crowding_distance pareto_front fit in
        let* c0' := list_get (c0 :: c1 :: rest) 0 in
        let* solution1_idx := list_index crowding_dist_pop_sorted_indices c0' in
        let* c1' := list_get (c0 :: c1 :: rest) 1 in
        let* solution2_idx := list_index crowding_dist_pop_sorted_indices c1' in
        let* d0 := list_get crowding_distance_sum solution1_idx in
        let* d1 := list_get crowding_distance_sum solution2_idx in
        if Qlt_bool (snd d1) (snd d0) then list_get (c0 :: c1 :: rest) 0
        else if Qlt_bool (snd d0) (snd d1) then list_get (c0 :: c1 :: rest) 1
        else
          let* rand_num := np_random_uniform 0 1 in
          if Qlt_bool rand_num (1 # 2) then list_get (c0 :: c1 :: rest) 0
          else list_get (c0 :: c1 :: rest) 1) s Q' ->
  wp duel s Q'.
Proof.
  intros H. apply wp_duel_fronts.
  destruct (Nat.ltb_spec f0 f1); [lia|]. destruct (Nat.ltb_spec f1 f0); [lia|].
  apply wp_bind, wp_list_get. by rewrite Hfront.
Qed.

Lemma duel_singleton_front s : length pareto_front = 1 -> duel s = (Ok c0, s).
Proof.
  intros Hone. apply wp_is_run, wp_duel_same_front. rewrite Hone. simpl.
  by apply wp_list_get.
Qed.

Section Crowded.
Context (i0 i1 : nat) (d0 d1 : nat * Q).
Hypothesis Hmany : length pareto_front <> 1.

#[local] Abbreviation dist := (crowding_distance pareto_front fit).

Hypothesis Hi0 : index_from 0 (cd_pop_sorted dist) c0 = Some i0.
Hypothesis Hi1 : index_from 0 (cd_pop_sorted dist) c1 = Some i1.
Hypothesis Hd0 : cd_sum dist !! i0 = Some d0.
Hypothesis Hd1 : cd_sum dist !! i1 = Some d1.

Lemma wp_duel_crowded s Q' :
  wp (if Qlt_bool (snd d1) (snd d0) then list_get (c0 :: c1 :: rest) 0
      else if Qlt_bool (snd d0) (snd d1) then list_get (c0 :: c1 :: rest) 1
      else
        let* rand_num := np_random_uniform 0 1 in
        if Qlt_bool rand_num (1 # 2) then list_get (c0 :: c1 :: rest) 0
        else list_get (c0 :: c1 :: rest) 1) (counted s) Q' ->
  wp duel s Q'.
Proof.
  intros H. apply wp_duel_same_front.
  destruct (Nat.eqb_spec (length pareto_front) 1); [done|].
  apply wp_bind. unfold wp at 1, call_crowding_distance. simpl.
  unfold cd_pop_sorted, cd_sum in *.
  destruct (crowding_distance pareto_front fit) as [[[table sums] fo] po].
  simpl in *.
  apply wp_bind, wp_list_get. simpl.
  apply wp_bind. unfold list_index. rewrite Hi0. apply wp_ret.
  apply wp_bind, wp_list_get. simpl.
  apply wp_bind. rewrite Hi1. apply wp_ret.
  apply wp_bind, wp_list_get. rewrite Hd0.
  apply wp_bind, wp_list_get. rewrite Hd1. exact H.
Qed.

Lemma duel_more_isolated_first s :
  (d1.2 < d0.2)%Q -> duel s = (Ok c0, counted s).
Proof.
  intros Hlt. apply wp_is_run, wp_duel_crowded.
  apply Qlt_bool_iff in Hlt. rewrite Hlt. by apply wp_list_get.
Qed.

Lemma duel_more_isolated_second s :
  (d0.2 < d1.2)%Q -> duel s = (Ok c1, counted s).
Proof.
  intros Hlt. apply wp_is_run, wp_duel_crowded.
  assert (Qlt_bool d1.2 d0.2 = false) as ->.
  { apply not_true_iff_false. rewrite Qlt_bool_iff. intros H.
    apply (Qlt_irrefl d0.2). by eapply Qlt_trans. }
  apply Qlt_bool_iff in Hlt. rewrite Hlt. by apply wp_list_get.
Qed.

Lemma duel_toss s :
  (d0.2 == d1.2)%Q ->
  let u := r_floats (gen s) (r_fcount (gen s)) in
  duel s = (Ok (if Qlt_bool (fadd 0 (fmul (fsub 1 0) u)) (1 # 2) then c0 else c1),
            tossed (counted s)).
Proof.
  intros Heq u. apply wp_is_run, wp_duel_crowded.
  assert (Qlt_bool d1.2 d0.2 = false) as ->.
  { apply not_true_iff_false. rewrite Qlt_bool_iff, Heq. apply Qlt_irrefl. }
  assert (Qlt_bool d0.2 d1.2 = false) as ->.
  { apply not_true_iff_false. rewrite Qlt_bool_iff, Heq. apply Qlt_irrefl. }
  apply wp_bind. unfold np_random_uniform. apply wp_bind.
  unfold wp at 1. simpl. apply wp_ret. fold u.
  destruct (Qlt_bool (fadd 0 (fmul (fsub 1 0) u)) (1 # 2)); by apply wp_list_get.
Qed.

End Crowded.
End SameFront.
End Duel.

(** ** The NSGA-II tournament, run to the end *)

Lemma chunks_lookup {A} rows cols (xs : list A) p :
  p < rows -> chunks rows cols xs !! p = Some (take cols (drop (p * cols) xs)).
Proof.
  revert p xs. induction rows as [|rows IH]; intros p xs Hp; [lia|].
  destruct p as [|p]; simpl; [done|].
  rewrite IH by lia. by rewrite drop_drop.
Qed.

Lemma insert_app_end {A} (h : list A) a b : <[length h:=a]> (h ++ [b]) = h ++ [a].
Proof. rewrite insert_app_r_alt by lia. by rewrite Nat.sub_diag. Qed.

Lemma chunks_length {A} rows cols (xs : list A) :
  length (chunks rows cols xs) = rows.
Proof.
  revert xs. induction rows as [|rows IH]; intros xs; simpl; [done|].
  by rewrite IH.
Qed.

Lemma lookup_map {A B} (f : A -> B) (l : list A) i :
  map f l !! i = f <$> l !! i.
Proof.
  revert i. induction l as [|x l IH]; intros [|i]; simpl; done.
Qed.

Lemma map_seq_shift {A} (f : nat -> A) a k :
  map f (seq a k) = map (fun j => f (a + j)) (seq 0 k).
Proof.
  induction k as [|k IH]; [done|].
  by rewrite !seq_S, !map_app, IH.
Qed.

Lemma drawn_row (f : nat -> nat) n K p :
  p < n ->
  take K (drop (p * K) (map f (seq 0 (n * K))))
  = map (fun j => f (p * K + j)) (seq 0 K).
Proof.
  intros Hp. rewrite skipn_map, firstn_map, drop_seq, take_seq. simpl.
  replace (K `min` (n * K - p * K)) with K by nia.
  apply map_seq_shift.
Qed.

Lemma candidates_cons g K p :
  2 <= K ->
  candidates g K p
  = candidate g K p 0 :: candidate g K p 1
      :: map (candidate g K p) (seq 2 (K - 2)).
Proof.
  intros HK. unfold candidates. destruct K as [|[|K]]; try lia.
  simpl. by rewrite Nat.sub_0_r.
Qed.

Lemma listed_spec c x :
  listed c x = true ->
  exists i d, index_from 0 (cd_pop_sorted c) x = Some i /\ cd_sum c !! i = Some d.
Proof.
  unfold listed. destruct (index_from 0 (cd_pop_sorted c) x) as [i|]; [|done].
  destruct (cd_sum c !! i) as [d|] eqn:E; [|done]. intros _. by exists i, d.
Qed.

Lemma duel_ready_spec cd fit fronts sfi c :
  duel_ready cd fit fronts sfi = true -> c < length sfi ->
  exists f pf, sfi !! c = Some f /\ fronts !! f = Some pf /\
    (length pf <> 1 ->
       exists i d, index_from 0 (cd_pop_sorted (cd pf fit)) c = Some i /\
                   cd_sum (cd pf fit) !! i = Some d).
Proof.
  intros Hready Hc. unfold duel_ready in Hready.
  rewrite forallb_forall in Hready. specialize (Hready c).
  destruct (lookup_lt_is_Some_2 sfi c Hc) as [f Hf]. rewrite Hf in Hready.
  destruct (fronts !! f) as [pf|] eqn:Hpf.
  - exists f, pf. split; [done|]. split; [done|]. intros Hne.
    apply listed_spec.
    destruct (Nat.eqb_spec (length pf) 1) as [|_]; [done|].
    apply Hready, in_seq. lia.
  - exfalso. assert (false = true) as Habs; [|done]. apply Hready, in_seq. lia.
Qed.

(** The duel returns, with one of the first two candidates, and touches
    neither the store nor the integers of the generator. *)
Lemma duel_total {ar : arith} cd fit fronts sfi c0 c1 rest s :
  duel_ready cd fit fronts sfi = true ->
  Forall (fun c => c < length sfi) (c0 :: c1 :: rest) ->
  exists w s',
    nsga2_duel cd fit fronts sfi (c0 :: c1 :: rest) s = (Ok w, s') /\
    (w = c0 \/ w = c1) /\ heap s' = heap s /\ log s' = log s /\
    r_ints (gen s') = r_ints (gen s) /\ r_icount (gen s') = r_icount (gen s) /\
    r_floats (gen s') = r_floats (gen s).
Proof.
  intros Hready Hall.
  apply Forall_cons in Hall as [Hc0 Hall]. apply Forall_cons in Hall as [Hc1 Hrest].
  destruct (duel_ready_spec _ _ _ _ c0 Hready Hc0) as (f0 & pf0 & Hf0 & Hpf0 & Hl0).
  destruct (duel_ready_spec _ _ _ _ c1 Hready Hc1) as (f1 & pf1 & Hf1 & Hpf1 & Hl1).
  destruct (lt_eq_lt_dec f0 f1) as [[Hlt|Heq]|Hgt].
  - exists c0, s. rewrite (duel_lower_front_first cd fit fronts sfi c0 c1 rest f0 f1)
      by done. auto 10.
  - subst f1. rewrite Hpf0 in Hpf1. injection Hpf1 as <-.
    destruct (decide (length pf0 = 1)) as [Hone|Hmany].
    + exists c0, s.
      rewrite (duel_singleton_front cd fit fronts sfi c0 c1 rest f0 f0 Hrest Hf0 Hf1
                 pf0) by done.
      auto 10.
    + destruct (Hl0 Hmany) as (i0 & d0 & Hi0 & Hd0).
      destruct (Hl1 Hmany) as (i1 & d1 & Hi1 & Hd1).
      destruct (Qlt_le_dec d1.2 d0.2) as [Hlt|Hle].
      { exists c0, (counted s).
        rewrite (duel_more_isolated_first cd fit fronts sfi c0 c1 rest f0 f0 Hrest
                   Hf0 Hf1 pf0 eq_refl Hpf0 i0 i1 d0 d1) by done.
        auto 10. }
      destruct (Qlt_le_dec d0.2 d1.2) as [Hlt|Hle'].
      { exists c1, (counted s).
        rewrite (duel_more_isolated_second cd fit fronts sfi c0 c1 rest f0 f0 Hrest
                   Hf0 Hf1 pf0 eq_refl Hpf0 i0 i1 d0 d1) by done.
        auto 10. }
      eexists _, (tossed (counted s)).
      rewrite (duel_toss cd fit fronts sfi c0 c1 rest f0 f0 Hrest
                 Hf0 Hf1 pf0 eq_refl Hpf0 i0 i1 d0 d1) by (done || by apply Qle_antisym).
      split; [done|]. split; [|done].
      destruct (Qlt_bool _ _); auto.
  - exists c1, s. rewrite (duel_lower_front_second cd fit fronts sfi c0 c1 rest f0 f1)
      by done. auto 10.
Qed.

Lemma wp_bind_run {A B} (m : M A) (f : A -> M B) s a s1 Q' :
  m s = (Ok a, s1) -> wp (f a) s1 Q' -> wp (bind m f) s Q'.
Proof. intros Hrun H. unfold wp. by rewrite (bind_run_ok _ _ _ _ _ Hrun). Qed.

Section TournamentNSGA2Run.
Context (non_dominated_sorting : list (list Q) -> list front * list nat)
        (crowding_distance : front -> list (list Q) -> crowding)
        (self : GA) (fitness : loc) (n : nat) (s : state)
        (fit : list (list Q)) (pop : matrix)
        (fronts : list front) (sfi : list nat).
Hypothesis Hfit : heap s !! fitness = Some (AFloat2 fit).
Hypothesis Hpop : heap s !! population self = Some (AGenes pop).
Hypothesis Hwf : wf_ga self.
Hypothesis Hnds : non_dominated_sorting fit = (fronts, sfi).
Hypothesis HK : 2 <= K_tournament self.
Hypothesis Hints : forall k, r_ints (gen s) k < length sfi.
Hypothesis Hrows : length sfi <= length (m_rows pop).
Hypothesis Hready : duel_ready crowding_distance fit fronts sfi = true.

Lemma candidates_bound p :
  Forall (fun c => c < length sfi) (candidates (gen s) (K_tournament self) p).
Proof.
  unfold candidates. apply Forall_forall. intros c Hc.
  apply list_elem_of_In, in_map_iff in Hc as (j & <- & _). apply Hints.
Qed.

Lemma tournament_nsga2_total {ar : arith} :
  wp (tournament_selection_nsga2 non_dominated_sorting crowding_distance
        self fitness n) s
     (totpost (fun out s' =>
        length out.2 = n /\
        r_icount (gen s') = r_icount (gen s) + n * K_tournament self /\
        forall p w, out.2 !! p = Some w ->
          exists sp,
            r_floats (gen sp) = r_floats (gen s) /\
            (nsga2_duel crowding_distance fit fronts sfi
               (candidates (gen s) (K_tournament self) p) sp).1 = Ok w)).
Proof.
  unfold tournament_selection_nsga2.
  apply wp_bind. eapply wp_mono; [by apply (wp_empty_parents_tot self n s pop)|].
  intros [lp|e] s1; simpl; [|done]. intros [-> ->].
  apply wp_bind, wp_load_floats2. simpl.
  rewrite (lookup_app_l_Some _ _ _ _ Hfit). rewrite Hnds.
  set (K := K_tournament self) in *. set (L := length (heap s)).
  set (g := gen s) in *.
  assert (exists s2 : state,
    heap s2 = heap s ++ [blank_parents self pop n] /\ log s2 = log s /\
    r_ints (gen s2) = r_ints g /\ r_floats (gen s2) = r_floats g /\
    r_icount (gen s2) = r_icount g + n * K /\
    forall Q' : result (list (list nat)) -> state -> Prop,
      Q' (Ok (map (fun p => candidates g K p) (seq 0 n))) s2 ->
      wp (np_random_randint2 (length sfi) n K)
         (set_heap (heap s ++ [blank_parents self pop n]) s) Q') as Hdraw.
  { unfold np_random_randint2.
    destruct (Nat.eqb_spec (n * K) 0) as [Hz|Hnz].
    - assert (n = 0) as -> by nia.
      exists (set_heap (heap s ++ [blank_parents self pop 0]) s). simpl.
      repeat split; try done; lia.
    - destruct (Nat.eqb_spec (length sfi) 0) as [Hz|_].
      { specialize (Hints 0). lia. }
      eexists (set_gen (Rng (r_ints g) (r_floats g) (r_icount g + n * K)
                            (r_fcount g))
                 (set_heap (heap s ++ [blank_parents self pop n]) s)).
      simpl. repeat split; try done.
      intros Q' HQ. apply wp_bind. unfold wp at 1, draw_ints. simpl.
      apply wp_ret. fold g.
      replace (chunks n K _) with (map (fun p => candidates g K p) (seq 0 n));
        [done|].
      apply list_eq. intros p. destruct (decide (p < n)) as [Hp|Hp].
      + rewrite chunks_lookup by done.
        rewrite (drawn_row (fun j => r_ints g (r_icount g + j)) n K p Hp).
        rewrite (lookup_map (fun p => candidates g K p) (seq 0 n) p).
        rewrite lookup_seq_lt by done. simpl. f_equal.
        unfold candidates, candidate. apply map_ext. intros j. f_equal. lia.
      + rewrite !lookup_ge_None_2; [done| |].
        * rewrite chunks_length. lia.
        * rewrite length_map, length_seq. lia. }
  destruct Hdraw as (s2 & Hh2 & Hlog2 & Hi2 & Hf2 & Hc2 & Hdraw).
  apply wp_bind, Hdraw. apply wp_bind.
  apply (wp_for_each (fun k idxs s' =>
           length idxs = k /\
           r_ints (gen s') = r_ints g /\ r_floats (gen s') = r_floats g /\
           r_icount (gen s') = r_icount g + n * K /\
           (exists rows,
              length rows = n /\
              heap s' = heap s
                ++ [AGenes (Matrix (parents_dtype self) (m_cols pop) rows)]) /\
           forall p w, idxs !! p = Some w ->
             exists sp,
               r_floats (gen sp) = r_floats g /\
               (nsga2_duel crowding_distance fit fronts sfi
                  (candidates g K p) sp).1 = Ok w)).
  - repeat split; try done. exists (replicate n None).
    by rewrite length_replicate.
  - intros k x idxs s' Hx (Hlen & Hi & Hf & Hc & (rows & Hrl & Hh) & Hduel).
    apply lookup_seq in Hx as [-> Hk]. simpl.
    apply wp_bind, wp_list_get.
    rewrite (lookup_map (fun p => candidates g K p) (seq 0 n) k).
    rewrite lookup_seq_lt by done. simpl.
    pose proof (candidates_bound k) as Hb. fold g K in Hb.
    rewrite (candidates_cons g K k HK) in Hb |- *.
    destruct (duel_total crowding_distance fit fronts sfi _ _ _ s' Hready Hb)
      as (w & s3 & Hrun & Hw & Hh3 & Hl3 & Hi3 & Hc3 & Hf3).
    eapply wp_bind_run; [exact Hrun|].
    assert (w < length sfi) as Hwlt.
    { apply Forall_cons in Hb as [Hb0 Hb]. apply Forall_cons in Hb as [Hb1 _].
      by destruct Hw as [->| ->]. }
    apply wp_bind, wp_get_row.
    rewrite Hh3, Hh, (lookup_app_l_Some _ _ _ _ Hpop).
    destruct (lookup_lt_is_Some_2 (m_rows pop) w) as [row Hrow]; [lia|].
    rewrite Hrow. apply wp_bind, wp_set_row.
    rewrite Hh3, Hh. rewrite list_lookup_middle by done. simpl.
    destruct (Nat.ltb_spec k (length rows)) as [_|?]; [|lia].
    apply wp_ret. simpl. split; [rewrite length_app; simpl; lia|].
    rewrite Hi3, Hf3, Hc3. repeat split; try done.
    + exists (<[k:=row]> rows). split; [by rewrite length_insert|].
      apply insert_app_end.
    + intros p w' Hp. destruct (decide (p < length idxs)) as [Hlt|Hge].
      * rewrite lookup_app_l in Hp by done. by apply Hduel.
      * rewrite lookup_app_r in Hp by lia.
        destruct (p - length idxs) as [|?] eqn:E; [|done].
        injection Hp as <-. assert (p = k) as -> by lia.
        exists s'. split; [done|].
        rewrite (candidates_cons g K k HK). by rewrite Hrun.
  - intros idxs s' (Hlen & Hi & Hf & Hc & _ & Hduel). apply wp_ret. simpl.
    rewrite length_seq in *. done.
Qed.

End TournamentNSGA2Run.
(** ** The wheel covers [[0, its end)] *)

Lemma Qsum_Permutation xs ys : xs ≡ₚ ys -> (Qsum xs == Qsum ys)%Q.
Proof.
  induction 1 as [|x xs ys _ IH|x y xs|xs ys zs _ IH1 _ IH2]; unfold Qsum in *;
    simpl.
  - reflexivity.
  - by rewrite IH.
  - ring.
  - by rewrite IH1.
Qed.

Lemma map_nth_all (ps : list Q) :
  map (fun i => nth i ps 0%Q) (seq 0 (length ps)) = ps.
Proof.
  apply (nth_ext _ _ 0%Q 0%Q).
  - by rewrite length_map, length_seq.
  - intros n Hn. rewrite length_map, length_seq in Hn.
    rewrite (nth_indep _ 0%Q ((fun i => nth i ps 0%Q) 0))
      by by rewrite length_map, length_seq.
    by rewrite (map_nth (fun i => nth i ps 0%Q)), seq_nth.
Qed.

(** A sequence that starts at or below [r] and ends above it steps over
    [r] somewhere. *)
Lemma crossing (f : nat -> Q) n r :
  (f 0%nat <= r)%Q -> (r < f n)%Q ->
  exists a, a < n /\ (f a <= r)%Q /\ (r < f (S a))%Q.
Proof.
  intros H0. induction n as [|n IH]; intros Hn.
  - exfalso. apply (Qlt_irrefl r). by eapply Qlt_le_trans.
  - destruct (Qlt_le_dec r (f n)) as [Hlt|Hle].
    + destruct (IH Hlt) as (a & Ha & H1 & H2). exists a. split; [lia|done].
    + exists n. split; [lia|done].
Qed.

(** The widths of ranges laid end to end add up, exactly, to where the
    last one ends. *)
Lemma Qsum_telescope (g : nat -> Q) (c : nat -> Q) (order : list nat) :
  (forall a i, order !! a = Some i -> (g i == c (S a) - c a)%Q) ->
  (Qsum (map g order) == c (length order) - c 0%nat)%Q.
Proof.
  induction order as [|i order IH] using rev_ind; intros H.
  - simpl. ring.
  - rewrite map_app, Qsum_app, length_app. simpl.
    replace (length order + 1) with (S (length order)) by lia.
    rewrite IH.
    + rewrite (H (length order) i) by by rewrite lookup_app_r, Nat.sub_diag.
      ring.
    + intros a j Ha. apply H. rewrite lookup_app_l; [done|].
      by eapply lookup_lt_Some.
Qed.

Lemma widths_nth starts ends :
  length ends = length starts ->
  widths starts ends
  = map (fun i => (nth i ends 0 - nth i starts 0)%Q) (seq 0 (length starts)).
Proof.
  revert ends. induction starts as [|s0 starts IH]; intros [|e0 ends] Hl;
    try done.
  unfold widths in *. simpl. f_equal. rewrite <- seq_shift, map_map.
  apply IH. simpl in Hl. lia.
Qed.

Section Coverage.
Context {ar : arith}.

Lemma wheel_end_psum ps order :
  consumed ps (wheel_passes (length ps) ps) order ->
  wheel_end ps = psum ps order (length order).
Proof. intros Hc. apply (c_curr _ _ _ Hc). Qed.

Lemma wheel_covers ps r :
  Forall (fun p => (0 <= p)%Q /\ (p < sentinel)%Q) ps ->
  (0 <= r)%Q -> (r < wheel_end ps)%Q ->
  let W := wheel_passes (length ps) ps in
  is_Some (find_range (w_start W) (w_end W) r).
Proof.
  intros Hps H0 H1 W.
  destruct (consumed_passes ps (length ps) Hps) as (order & Hlen & Hc); [done|].
  rewrite (wheel_end_psum ps order Hc) in H1.
  fold W in Hc. destruct (c_len _ _ _ Hc) as (_ & Hls & Hle).
  destruct (crossing (psum ps order) (length order) r) as (a & Ha & Hlo & Hhi).
  - by rewrite psum_0.
  - done.
  - destruct (lookup_lt_is_Some_2 order a Ha) as [i Hi].
    destruct (c_range _ _ _ Hc a i Hi) as [Hs He].
    assert (i < length ps) as Hib.
    { apply (c_bound _ _ _ Hc). by eapply list_elem_of_lookup_2. }
    destruct (find_range (w_start W) (w_end W) r) as [idx|] eqn:E; [by eexists|].
    exfalso. apply (find_range_None _ _ _ E i); [lia|].
    unfold contains. by rewrite Hs, He.
Qed.

Lemma wheel_widths_total ps :
  Forall (fun p => (0 <= p)%Q /\ (p < sentinel)%Q) ps ->
  let W := wheel_passes (length ps) ps in
  (Qsum (widths (w_start W) (w_end W)) == wheel_end ps)%Q.
Proof.
  intros Hps W.
  destruct (consumed_passes ps (length ps) Hps) as (order & Hlen & Hc); [done|].
  rewrite (wheel_end_psum ps order Hc).
  fold W in Hc. destruct (c_len _ _ _ Hc) as (_ & Hls & Hle).
  rewrite widths_nth by lia. rewrite Hls.
  rewrite <- (Qsum_Permutation _ _
                (Permutation_map _ (consumed_all_Permutation _ _ _ Hc Hlen))).
  rewrite (Qsum_telescope _ (psum ps order)).
  - rewrite psum_0. ring.
  - intros a i Ha. destruct (c_range _ _ _ Hc a i Ha) as [-> ->]. reflexivity.
Qed.

End Coverage.

(** ** When every draw hits, every parent gets an index *)


Lemma sampling_gen probs ps pe parents xs starts ends n s g :
  sampling probs ps pe parents xs starts ends n s ->
  sampling probs ps pe parents xs starts ends n (set_gen g s).
Proof. done. Qed.





Lemma four_arrays {A} (h : list A) a b c d :
  (h ++ [a; b; c; d]) !! length h = Some a /\
  (h ++ [a; b; c; d]) !! S (length h) = Some b /\
  (h ++ [a; b; c; d]) !! S (S (length h)) = Some c /\
  (h ++ [a; b; c; d]) !! S (S (S (length h))) = Some d.
Proof.
  replace (length h) with (length h + 0) at 1 by lia.
  replace (S (length h)) with (length h + 1) by lia.
  replace (S (length h + 1)) with (length h + 2) by lia.
  replace (S (length h + 2)) with (length h + 3) by lia.
  by rewrite !lookup_app_at.
Qed.


Section FullDraws.
Context {ar : arith} (self : GA) (fitness : loc) (n : nat) (s : state)
        (pop : matrix).
Hypothesis Hpop : heap s !! population self = Some (AGenes pop).
Hypothesis Hwf : wf_ga self.



End FullDraws.

Section FullPointers.
Context {ar : arith} (self : GA) (fitness : loc) (n : nat) (s : state)
        (pop : matrix).
Hypothesis Hpop : heap s !! population self = Some (AGenes pop).
Hypothesis Hwf : wf_ga self.


End FullPointers.

(** ** Rank and roulette-wheel selection, run to the end *)

(** Copying a population row into the output buffer, the last array of the
    store. *)
Lemma wp_copy_row h1 self pop dt cols rows p i row s Q' :
  heap s = h1 ++ [AGenes (Matrix dt cols rows)] ->
  h1 !! population self = Some (AGenes pop) ->
  m_rows pop !! i = Some row -> p < length rows ->
  Q' (Ok tt) (set_heap (h1 ++ [AGenes (Matrix dt cols (<[p:=row]> rows))]) s) ->
  wp (let* row := get_row (population self) i in set_row (length h1) p row) s Q'.
Proof.
  intros Hh Hpop Hrow Hp HQ. apply wp_bind, wp_get_row.
  rewrite Hh, (lookup_app_l_Some _ _ _ _ Hpop), Hrow.
  apply wp_set_row. rewrite Hh, list_lookup_middle by done. simpl.
  destruct (Nat.ltb_spec p (length rows)) as [_|?]; [|lia].
  by rewrite insert_app_end.
Qed.

Lemma wp_ext {A} (m m' : M A) s Q' : m s = m' s -> wp m' s Q' -> wp m s Q'.
Proof. unfold wp. by intros ->. Qed.

Lemma bind_assoc_run {A B C} (m : M A) (f : A -> M B) (g : B -> M C) s :
  bind (bind m f) g s = bind m (fun a => bind (f a) g) s.
Proof. unfold bind. by destruct (m s) as [[a|e] s1]. Qed.

Lemma omap_ext_seq {A} (f g : nat -> option A) (l : list nat) :
  (forall p, f p = g p) -> omap f l = omap g l.
Proof.
  intros H. induction l as [|x l IH]; simpl; [done|]. rewrite H.
  destruct (g x); [f_equal|]; apply IH.
Qed.

Lemma omap_seq_S {A} (f : nat -> option A) k :
  omap f (seq 0 (S k))
  = omap f (seq 0 k) ++ match f k with Some x => [x] | None => [] end.
Proof. rewrite seq_S, omap_app. simpl. by destruct (f k). Qed.

(** The loop of rank and roulette-wheel selection: one float is drawn for
    each parent, the wheel is scanned for it, and a hit appends what [pick]
    makes of the slot. *)
Lemma wp_draw_loop_tot (h1 : list array) probs ps pe xs starts ends n
    dt cols (pop : matrix) (pick : nat -> option nat)
    (on_hit : nat -> nat -> list nat -> M (list nat))
    (body : nat -> list nat -> M (list nat)) s :
  h1 !! probs = Some (AFloat xs) ->
  h1 !! ps = Some (AFloat starts) -> h1 !! pe = Some (AFloat ends) ->
  length starts = length xs -> length ends = length xs ->
  heap s = h1 ++ [AGenes (Matrix dt cols (replicate n None))] ->
  (forall p idxs s1,
     body p idxs s1
     = (let* r := np_random_rand in scan_wheel probs ps pe r (on_hit p) idxs) s1) ->
  (forall p idx idxs rows s1 (Q' : result (list nat) -> state -> Prop),
     p < n -> idx < length xs -> length rows = n ->
     heap s1 = h1 ++ [AGenes (Matrix dt cols rows)] ->
     (forall x row, pick idx = Some x -> m_rows pop !! x = Some row ->
        Q' (Ok (idxs ++ [x]))
           (set_heap (h1 ++ [AGenes (Matrix dt cols (<[p:=row]> rows))]) s1)) ->
     wp (on_hit p idx idxs) s1 Q') ->
  wp (for_each (seq 0 n) body []) s
     (totpost (fun idxs s' =>
        let hit p := find_range starts ends
                       (r_floats (gen s) (r_fcount (gen s) + p)) ≫= pick in
        idxs = omap hit (seq 0 n) /\
        gen s' = Rng (r_ints (gen s)) (r_floats (gen s)) (r_icount (gen s))
                     (r_fcount (gen s) + n) /\
        log s' = log s /\ cd_calls s' = cd_calls s /\
        exists rows, length rows = n /\
                     heap s' = h1 ++ [AGenes (Matrix dt cols rows)] /\
                     forall p, p < n ->
                       rows !! p = match hit p with
                                   | Some x => m_rows pop !! x
                                   | None => Some None
                                   end)).
Proof.
  intros Hp Hs He Hls Hle Hh Hbody Hhit.
  set (u p := r_floats (gen s) (r_fcount (gen s) + p)).
  apply (wp_for_each (fun k idxs s1 =>
           idxs = omap (fun p => find_range starts ends (u p) ≫= pick) (seq 0 k) /\
           gen s1 = Rng (r_ints (gen s)) (r_floats (gen s)) (r_icount (gen s))
                        (r_fcount (gen s) + k) /\
           log s1 = log s /\ cd_calls s1 = cd_calls s /\
           exists rows, length rows = n /\
                        heap s1 = h1 ++ [AGenes (Matrix dt cols rows)] /\
                        (forall p, p < k ->
                           rows !! p
                           = match find_range starts ends (u p) ≫= pick with
                             | Some x => m_rows pop !! x
                             | None => Some None
                             end) /\
                        (forall p, k <= p < n -> rows !! p = Some None))).
  - split; [done|]. split; [destruct s as [? []]; simpl; f_equal; lia|].
    split; [done|]. split; [done|]. exists (replicate n None).
    rewrite length_replicate. split; [done|]. split; [done|].
    split; [lia|]. intros q Hq. apply lookup_replicate_2. lia.
  - intros k x idxs s1 Hx (-> & Hg & Hlg & Hcd & rows & Hrl & Hh1 & Hdone & Hrest).
    apply lookup_seq in Hx as [-> Hk]. rewrite Nat.add_0_l, omap_seq_S.
    eapply wp_ext; [apply Hbody|].
    apply wp_bind. unfold wp at 1, np_random_rand, next_float. simpl.
    rewrite Hg. simpl. fold (u k).
    set (s2 := set_gen _ s1).
    assert (heap s2 = h1 ++ [AGenes (Matrix dt cols rows)]) as Hh2 by done.
    eapply wp_scan_wheel_find.
    { rewrite Hh2. by apply lookup_app_l_Some. }
    { rewrite Hh2. by apply lookup_app_l_Some. }
    { rewrite Hh2. by apply lookup_app_l_Some. }
    { done. } { done. }
    destruct (find_range starts ends (u k)) as [idx|] eqn:E; simpl.
    + pose proof (find_range_Some _ _ _ _ E) as [Hidx _].
      apply (Hhit k idx _ rows); [done|lia|done|done|].
      intros y row Hy Hrow. rewrite Hy. simpl.
      split; [done|]. split; [f_equal; lia|]. split; [done|]. split; [done|].
      exists (<[k:=row]> rows). split; [by rewrite length_insert|].
      split; [done|]. split.
      * intros q Hq. destruct (decide (q = k)) as [->|Hne].
        -- rewrite list_lookup_insert_eq by lia. rewrite E. simpl.
           by rewrite Hy.
        -- rewrite list_lookup_insert_ne by done. apply Hdone. lia.
      * intros q Hq. rewrite list_lookup_insert_ne by lia. apply Hrest. lia.
    + rewrite app_nil_r. split; [done|]. split; [f_equal; lia|].
      split; [done|]. split; [done|]. exists rows.
      split; [done|]. split; [done|]. split.
      * intros q Hq. destruct (decide (q = k)) as [->|Hne].
        -- rewrite E. simpl. apply Hrest. lia.
        -- apply Hdone. lia.
      * intros q Hq. apply Hrest. lia.
  - intros idxs s1 HI. rewrite length_seq in HI.
    destruct HI as (H1 & H2 & H3 & H4 & rows & H5 & H6 & H7 & _).
    simpl. split; [done|]. split; [done|]. split; [done|]. split; [done|].
    by exists rows.
Qed.

(** From the call of the helper on, in rank and roulette-wheel selection. *)
Lemma wp_after_wheel_tot {ar : arith} self h n s xs pop (pick : nat -> option nat)
    (on_hit : loc -> nat -> nat -> list nat -> M (list nat))
    (body : loc -> loc -> loc -> nat -> list nat -> M (list nat)) :
  let W := wheel_passes (length xs) xs in
  let h1 := h ++ [AFloat xs; AFloat (w_probs W); AFloat (w_start W);
                  AFloat (w_end W)] in
  heap s = h ++ [AFloat xs; AFloat xs] ->
  h !! population self = Some (AGenes pop) -> wf_ga self ->
  (forall ps pe parents p idxs s1,
     body ps pe parents p idxs s1
     = (let* r := np_random_rand in
        scan_wheel (length h) ps pe r (on_hit parents p) idxs) s1) ->
  (forall p idx idxs rows s1 (Q' : result (list nat) -> state -> Prop),
     p < n -> idx < length xs -> length rows = n ->
     heap s1 = h1 ++ [AGenes (Matrix (parents_dtype self) (m_cols pop) rows)] ->
     (forall x row, pick idx = Some x -> m_rows pop !! x = Some row ->
        Q' (Ok (idxs ++ [x]))
           (set_heap (h1 ++ [AGenes (Matrix (parents_dtype self) (m_cols pop)
                                            (<[p:=row]> rows))]) s1)) ->
     wp (on_hit (length h1) p idx idxs) s1 Q') ->
  wp (let* '(probs_start, probs_end, parents) :=
        wheel_cumulative_probs self (S (length h)) n in
      let* parents_indices :=
        for_each (seq 0 n) (body probs_start probs_end parents) [] in
      ret (parents, parents_indices)) s
     (totpost (fun out s' =>
        let hit p := find_range (w_start W) (w_end W)
                       (r_floats (gen s) (r_fcount (gen s) + p)) ≫= pick in
        out.1 = length h1 /\
        out.2 = omap hit (seq 0 n) /\
        gen s' = Rng (r_ints (gen s)) (r_floats (gen s)) (r_icount (gen s))
                     (r_fcount (gen s) + n) /\
        log s' = log s /\ cd_calls s' = cd_calls s /\
        exists rows,
          length rows = n /\
          heap s' = h1 ++ [AGenes (Matrix (parents_dtype self) (m_cols pop) rows)] /\
          forall p, p < n ->
            rows !! p = match hit p with
                        | Some x => m_rows pop !! x
                        | None => Some None
                        end)).
Proof.
  intros W h1 Hh Hpop Hwf Hbody Hhit.
  assert (population self < length h) by by eapply lookup_lt_Some.
  assert (heap s !! S (length h) = Some (AFloat xs)) as Hcopy.
  { rewrite Hh, lookup_app_r by lia.
    by replace (S (length h) - length h) with 1 by lia. }
  assert (heap s !! population self = Some (AGenes pop)) as Hpop'.
  { by rewrite Hh, lookup_app_l. }
  apply wp_bind. eapply wp_mono; [by apply (wp_wheel_cumulative_probs _ _ _ _ xs pop)|].
  intros [out|e] s1; simpl; [|done]. intros (-> & Hh1 & Hg1 & Hl1 & Hc1). fold W in Hh1.
  assert (heap s1 = h1 ++ [blank_parents self pop n]) as Hh1'.
  { rewrite Hh1, Hh. rewrite insert_app_r_alt by lia.
    replace (S (length h) - length h) with 1 by lia. simpl.
    unfold h1. by rewrite <- !app_assoc. }
  assert (length (heap s) = S (S (length h))) as HL.
  { rewrite Hh, length_app. simpl. lia. }
  assert (length h1 = S (S (S (S (length h))))) as HL1.
  { unfold h1. rewrite length_app. simpl. lia. }
  rewrite HL.
  destruct (four_arrays h (AFloat xs) (AFloat (w_probs W)) (AFloat (w_start W))
              (AFloat (w_end W))) as (E0 & _ & E2 & E3).
  destruct (wheel_passes_lengths (length xs) xs) as (_ & Hls & Hle). fold W in Hls, Hle.
  apply wp_bind. eapply wp_mono.
  { apply (wp_draw_loop_tot h1 (length h) (S (S (length h))) (S (S (S (length h))))
             xs (w_start W) (w_end W) n (parents_dtype self) (m_cols pop) pop pick
             (on_hit (S (S (S (S (length h))))))); try done.
    intros p idx idxs rows s2 Q' Hp Hidx Hrl Hs2 HQ. rewrite <- HL1.
    by apply (Hhit p idx idxs rows). }
  intros [idxs|e] s2; simpl; [|done].
  rewrite Hg1, Hl1, Hc1. intros (-> & Hg2 & Hl2 & Hc2 & rows & Hrl & Hh2 & Hrows).
  apply wp_ret. simpl. split; [lia|]. split; [done|]. split; [done|].
  split; [done|]. split; [done|]. by exists rows.
Qed.

Section WheelRuns.
Context (self : GA) (fitness : loc) (n : nat) (s : state)
        (fs : list Q) (pop : matrix).
Hypothesis Hfit : heap s !! fitness = Some (AFloat fs).
Hypothesis Hpop : heap s !! population self = Some (AGenes pop).
Hypothesis Hwf : wf_ga self.

Lemma roulette_wheel_run {ar : arith} :
  ~ (np_sum fs == 0)%Q -> length fs <= length (m_rows pop) ->
  let P := np_divide fs (np_sum fs) in
  let W := wheel_passes (length P) P in
  wp (roulette_wheel_selection self fitness n) s
     (totpost (fun out s' =>
        let hit p := find_range (w_start W) (w_end W)
                       (r_floats (gen s) (r_fcount (gen s) + p)) in
        out.1 = length (heap s) + 4 /\
        out.2 = omap hit (seq 0 n) /\
        gen s' = Rng (r_ints (gen s)) (r_floats (gen s)) (r_icount (gen s))
                     (r_fcount (gen s) + n) /\
        log s' = log s /\
        exists rows,
          heap s' = heap s
            ++ [AFloat P; AFloat (w_probs W); AFloat (w_start W);
                AFloat (w_end W);
                AGenes (Matrix (parents_dtype self) (m_cols pop) rows)] /\
          length rows = n /\
          forall p, p < n ->
            rows !! p = match hit p with
                        | Some x => m_rows pop !! x
                        | None => Some None
                        end)).
Proof.
  intros Hne Hrows P W. unfold roulette_wheel_selection.
  apply wp_bind, wp_load_floats. rewrite Hfit.
  destruct (Qeq_bool (np_sum fs) 0) eqn:E; [by apply Qeq_bool_iff in E|].
  apply wp_bind, wp_alloc. unfold np_copy.
  apply wp_bind, wp_bind, wp_load. simpl.
  rewrite lookup_app_r, Nat.sub_diag by done. simpl.
  apply wp_alloc. simpl. rewrite length_app. simpl. rewrite Nat.add_1_r.
  fold P. eapply wp_mono.
  { apply (wp_after_wheel_tot self (heap s) n _ P pop Some
             (fun parents parent_num idx parents_indices =>
                let* row := get_row (population self) idx in
                set_row parents parent_num row ;;
                ret (parents_indices ++ [idx]))
             (fun ps pe parents parent_num parents_indices =>
                let* rand_prob := np_random_rand in
                scan_wheel (length (heap s)) ps pe rand_prob
                  (fun idx parents_indices =>
                     let* row := get_row (population self) idx in
                     set_row parents parent_num row ;;
                     ret (parents_indices ++ [idx]))
                  parents_indices)); simpl; try done.
    - by rewrite <- app_assoc.
    - intros p idx idxs rows s1 Q' Hp Hidx Hrl Hs1 HQ.
      assert (idx < length (m_rows pop)) as Hir.
      { unfold P in Hidx. rewrite np_divide_length in Hidx. lia. }
      destruct (lookup_lt_is_Some_2 (m_rows pop) idx Hir) as [row Hrow].
      eapply wp_ext; [by rewrite <- bind_assoc_run|].
      apply wp_bind. eapply (wp_copy_row _ self pop); [exact Hs1| |exact Hrow|lia|].
      { by apply lookup_app_l_Some. }
      by apply wp_ret, HQ. }
  intros [out|e] s1; simpl; [|done].
  intros (Hout & -> & Hg & Hl & _ & rows & Hrl & Hh & Hwritten).
  assert (forall p, find_range (w_start W) (w_end W)
                      (r_floats (gen s) (r_fcount (gen s) + p)) ≫= Some
                    = find_range (w_start W) (w_end W)
                        (r_floats (gen s) (r_fcount (gen s) + p))) as Hsame.
  { intros p. by destruct (find_range _ _ _). }
  rewrite Hout, !length_app. simpl.
  split; [lia|]. split; [by apply omap_ext_seq|]. split; [done|]. split; [done|].
  exists rows. split; [by rewrite Hh, <- !app_assoc|].
  split; [done|]. intros p Hp. rewrite (Hwritten p Hp). by rewrite Hsame.
Qed.

End WheelRuns.

Section RankRun.
Context (self : GA) (fitness : loc) (n : nat) (s : state)
        (fs : list Q) (pop : matrix).
Hypothesis Hfit : heap s !! fitness = Some (AFloat fs).
Hypothesis Hpop : heap s !! population self = Some (AGenes pop).
Hypothesis Hwf : wf_ga self.

Lemma np_arange_length N : length (np_arange 1 (N + 1)) = N.
Proof.
  unfold np_arange. rewrite length_map, length_seq. lia.
Qed.

Lemma rank_run {ar : arith} :
  sol_per_pop self <= length fs -> length fs <= length (m_rows pop) ->
  let rank := np_arange 1 (sol_per_pop self + 1) in
  let P := np_divide rank (np_sum rank) in
  let W := wheel_passes (length P) P in
  wp (rank_selection self fitness n) s
     (totpost (fun out s' =>
        let hit p := find_range (w_start W) (w_end W)
                       (r_floats (gen s) (r_fcount (gen s) + p))
                     ≫= (fitness_order fs !!.) in
        out.1 = length (heap s) + 4 /\
        out.2 = omap hit (seq 0 n) /\
        gen s' = Rng (r_ints (gen s)) (r_floats (gen s)) (r_icount (gen s))
                     (r_fcount (gen s) + n) /\
        log s' = log s /\
        exists rows,
          heap s' = heap s
            ++ [AFloat P; AFloat (w_probs W); AFloat (w_start W);
                AFloat (w_end W);
                AGenes (Matrix (parents_dtype self) (m_cols pop) rows)] /\
          length rows = n /\
          forall p, p < n ->
            rows !! p = match hit p with
                        | Some x => m_rows pop !! x
                        | None => Some None
                        end)).
Proof.
  intros HN Hrows rank P W. unfold rank_selection.
  apply wp_bind, wp_load_floats. rewrite Hfit.
  apply wp_bind, wp_alloc. unfold np_copy.
  apply wp_bind, wp_bind, wp_load. simpl.
  rewrite lookup_app_r, Nat.sub_diag by done. simpl.
  apply wp_alloc. simpl. rewrite length_app. simpl. rewrite Nat.add_1_r.
  fold rank. fold P. eapply wp_mono.
  { apply (wp_after_wheel_tot self (heap s) n _ P pop (fitness_order fs !!.)
             (fun parents parent_num idx parents_indices =>
                let* mapped_idx := list_get (fitness_order fs) idx in
                let* row := get_row (population self) mapped_idx in
                set_row parents parent_num row ;;
                ret (parents_indices ++ [mapped_idx]))
             (fun ps pe parents parent_num parents_indices =>
                let* rand_prob := np_random_rand in
                scan_wheel (length (heap s)) ps pe rand_prob
                  (fun idx parents_indices =>
                     let* mapped_idx := list_get (fitness_order fs) idx in
                     let* row := get_row (population self) mapped_idx in
                     set_row parents parent_num row ;;
                     ret (parents_indices ++ [mapped_idx]))
                  parents_indices)); simpl; try done.
    - by rewrite <- app_assoc.
    - intros p idx idxs rows s1 Q' Hp Hidx Hrl Hs1 HQ.
      assert (idx < sol_per_pop self) as Hin.
      { unfold P, rank in Hidx. by rewrite np_divide_length, np_arange_length in Hidx. }
      pose proof (Permutation_length (fitness_order_Permutation fs)) as Hlen.
      rewrite length_seq in Hlen.
      destruct (lookup_lt_is_Some_2 (fitness_order fs) idx) as [x Hx]; [lia|].
      assert (x < length fs) as Hxb.
      { apply list_elem_of_lookup_2 in Hx.
        rewrite (fitness_order_Permutation fs) in Hx. apply elem_of_seq in Hx. lia. }
      destruct (lookup_lt_is_Some_2 (m_rows pop) x) as [row Hrow]; [lia|].
      apply wp_bind, wp_list_get. rewrite Hx.
      eapply wp_ext; [by rewrite <- bind_assoc_run|].
      apply wp_bind. eapply (wp_copy_row _ self pop); [exact Hs1| |exact Hrow|lia|].
      { by apply lookup_app_l_Some. }
      by apply wp_ret, HQ. }
  intros [out|e] s1; simpl; [|done].
  intros (Hout & -> & Hg & Hl & _ & rows & Hrl & Hh & Hwritten).
  rewrite Hout, !length_app. simpl.
  split; [lia|]. split; [done|]. split; [done|]. split; [done|].
  exists rows. split; [by rewrite Hh, <- !app_assoc|]. done.
Qed.

End RankRun.
(** ** More about the wheel of a probability vector *)

Lemma omap_length_cut {A} (f : nat -> option A) n m :
  (forall i, i < m -> is_Some (f i)) -> (forall i, m <= i -> f i = None) ->
  length (omap f (seq 0 n)) = n `min` m.
Proof.
  intros Hin Hout. induction n as [|n IH]; [done|].
  rewrite omap_seq_S, length_app, IH.
  destruct (decide (n < m)) as [Hlt|Hge].
  - destruct (Hin n Hlt) as [x Hx]. rewrite Hx. cbn [length]. lia.
  - rewrite Hout by lia. cbn [length]. lia.
Qed.

Lemma omap_lookup_all {A} (f : nat -> option A) n :
  (forall i, i < n -> is_Some (f i)) ->
  length (omap f (seq 0 n)) = n /\
  forall i, i < n -> omap f (seq 0 n) !! i = f i.
Proof.
  induction n as [|n IH]; intros Hall.
  - split; [done|]. lia.
  - destruct IH as [IH1 IH2]; [intros i Hi; apply Hall; lia|].
    rewrite omap_seq_S.
    destruct (Hall n) as [x Hx]; [lia|]. rewrite Hx.
    split; [rewrite length_app; simpl; lia|].
    intros i Hi. destruct (decide (i = n)) as [->|Hne].
    + rewrite lookup_app_r by lia. by rewrite IH1, Nat.sub_diag, Hx.
    + rewrite lookup_app_l by lia. apply IH2. lia.
Qed.

Lemma omap_length_le {A} (f : nat -> option A) n :
  length (omap f (seq 0 n)) <= n.
Proof.
  induction n as [|n IH]; [done|].
  rewrite omap_seq_S, length_app. destruct (f n); cbn [length]; lia.
Qed.

(** One entry for every number exactly when every number gives one. *)
Lemma omap_full_iff {A} (f : nat -> option A) n :
  length (omap f (seq 0 n)) = n <-> forall i, i < n -> is_Some (f i).
Proof.
  split; [|intros H; by apply omap_lookup_all].
  induction n as [|n IH]; [lia|].
  rewrite omap_seq_S, length_app. intros Hlen i Hi.
  pose proof (omap_length_le f n) as Hle.
  destruct (f n) as [x|] eqn:E; cbn [length] in Hlen; [|lia].
  destruct (decide (i = n)) as [->|Hne]; [by rewrite E|].
  apply IH; lia.
Qed.

Lemma lookup_app_snoc {A} (h l : list A) x n :
  n = length h + length l -> (h ++ (l ++ [x])) !! n = Some x.
Proof.
  intros ->. rewrite app_assoc.
  replace (length h + length l) with (length (h ++ l) + 0)
    by (rewrite length_app; lia).
  by rewrite lookup_app_at.
Qed.

Lemma np_arange_nth N k :
  k < N -> nth k (np_arange 1 (N + 1)) 0%Q = inject_Z (Z.of_nat (S k)).
Proof.
  intros Hk. unfold np_arange. replace (N + 1 - 1) with N by lia.
  change 0%Q with (inject_Z (Z.of_nat 0)).
  rewrite (map_nth (fun k => inject_Z (Z.of_nat k))), seq_nth by done.
  done.
Qed.

Section WheelFacts.
Context {ar : arith}.

Lemma np_divide_nth xs d k :
  k < length xs -> nth k (np_divide xs d) 0%Q = fdiv (nth k xs 0%Q) d.
Proof.
  intros Hk. unfold np_divide.
  rewrite (nth_indep _ 0%Q ((fun x => fdiv x d) 0%Q)) by by rewrite length_map.
  by rewrite (map_nth (fun x => fdiv x d)).
Qed.

(** Each range ends at its start plus the probability of its slot, as the
    program adds them. *)
Lemma wheel_widths ps i :
  Forall (fun p => (0 <= p)%Q /\ (p < sentinel)%Q) ps -> i < length ps ->
  let W := wheel_passes (length ps) ps in
  nth i (w_end W) 0%Q = fadd (nth i (w_start W) 0%Q) (nth i ps 0%Q).
Proof.
  intros Hps Hi W.
  destruct (consumed_passes ps (length ps) Hps) as (order & Hlen & Hc); [done|].
  destruct (consumed_all_position _ _ _ i Hc Hlen Hi) as [a Ha].
  by eapply consumed_width.
Qed.

(** Under a monotone rounding no range starts before 0, ends before it
    starts or reaches beyond the end of the wheel. *)
Lemma wheel_bounds ps i :
  rounding ->
  Forall (fun p => (0 <= p)%Q /\ (p < sentinel)%Q) ps -> i < length ps ->
  let W := wheel_passes (length ps) ps in
  (0 <= nth i (w_start W) 0)%Q /\
  (nth i (w_start W) 0 <= nth i (w_end W) 0)%Q /\
  (nth i (w_end W) 0 <= wheel_end ps)%Q.
Proof.
  intros Hr Hps Hi W.
  destruct (consumed_passes ps (length ps) Hps) as (order & Hlen & Hc); [done|].
  rewrite (wheel_end_psum ps order Hc). fold W in Hc.
  destruct (consumed_all_position _ _ _ i Hc Hlen Hi) as [a Ha].
  destruct (c_range _ _ _ Hc a i Ha) as [-> ->].
  assert (Forall (fun p => (0 <= p)%Q) ps) as Hps0.
  { eapply Forall_impl; [exact Hps|]. by intros p [? _]. }
  assert (S a <= length order) as Hle by (apply lookup_lt_Some in Ha; lia).
  split; [|split].
  - rewrite <- (psum_0 ps order). apply psum_mono; [done|done|lia].
  - apply psum_mono; [done|done|lia].
  - by apply psum_mono.
Qed.

Lemma off_wheel ps r :
  rounding ->
  Forall (fun p => (0 <= p)%Q /\ (p < sentinel)%Q) ps ->
  (r < 0)%Q \/ (wheel_end ps <= r)%Q ->
  let W := wheel_passes (length ps) ps in
  find_range (w_start W) (w_end W) r = None.
Proof.
  intros Hr Hps Hoff W.
  destruct (wheel_passes_lengths (length ps) ps) as (_ & Hls & _).
  fold W in Hls.
  destruct (find_range (w_start W) (w_end W) r) as [idx|] eqn:E; [|done].
  exfalso. apply find_range_Some in E as [Hidx [Hlo Hhi]].
  destruct (wheel_bounds ps idx Hr Hps) as (H0 & _ & H1); [lia|].
  fold W in H0, H1. destruct Hoff; lra.
Qed.

(** A number finds a range exactly when it lies on the wheel. *)
Lemma wheel_hit_iff ps r :
  rounding ->
  Forall (fun p => (0 <= p)%Q /\ (p < sentinel)%Q) ps ->
  let W := wheel_passes (length ps) ps in
  is_Some (find_range (w_start W) (w_end W) r) <-> on_wheel ps r.
Proof.
  intros Hr Hps W. split.
  - intros Hsome. unfold on_wheel.
    destruct (Qlt_le_dec r 0) as [Hneg|H0].
    { pose proof (off_wheel ps r Hr Hps (or_introl Hneg)) as Hn.
      cbv zeta in Hn. fold W in Hn. rewrite Hn in Hsome. by destruct Hsome. }
    destruct (Qlt_le_dec r (wheel_end ps)) as [H1|Hbig]; [done|].
    pose proof (off_wheel ps r Hr Hps (or_intror Hbig)) as Hn.
    cbv zeta in Hn. fold W in Hn. rewrite Hn in Hsome. by destruct Hsome.
  - intros [H0 H1]. by apply wheel_covers.
Qed.

(** Under a monotone rounding the range found is the only one that
    contains the number. *)
Lemma wheel_hit_unique ps r idx :
  rounding ->
  Forall (fun p => (0 <= p)%Q /\ (p < sentinel)%Q) ps ->
  let W := wheel_passes (length ps) ps in
  find_range (w_start W) (w_end W) r = Some idx ->
  forall j, j < length ps -> contains (w_start W) (w_end W) j r -> j = idx.
Proof.
  intros Hr Hps W Hfind j Hj Hcj.
  destruct (decide (j = idx)) as [|Hne]; [done|]. exfalso.
  apply find_range_Some in Hfind as [Hidx Hc].
  destruct (consumed_passes ps (length ps) Hps) as (order & Hlen & Hcons); [done|].
  fold W in Hcons. destruct (c_len _ _ _ Hcons) as (_ & Hls & _).
  assert (Forall (fun p => (0 <= p)%Q) ps) as Hps0.
  { eapply Forall_impl; [exact Hps|]. by intros q [? _]. }
  apply (consumed_disjoint ps W order Hr Hps0 Hcons Hlen j idx r);
    [lia|lia|done|].
  destruct Hcj, Hc. done.
Qed.

End WheelFacts.

Section SusRun.
Context {ar : arith} (self : GA) (fitness : loc) (n : nat) (s : state)
        (fs : list Q) (pop : matrix).
Hypothesis Hfit : heap s !! fitness = Some (AFloat fs).
Hypothesis Hpop : heap s !! population self = Some (AGenes pop).
Hypothesis Hwf : wf_ga self.

Lemma stochastic_universal_run :
  ~ (np_sum fs == 0)%Q -> num_parents_mating self <> 0 ->
  length fs <= length (m_rows pop) ->
  let d := fdiv 1 (inject_Z (Z.of_nat (num_parents_mating self))) in
  let u := r_floats (gen s) (r_fcount (gen s)) in
  let first := fadd 0 (fmul (fsub d 0) u) in
  let P := np_divide fs (np_sum fs) in
  let W := wheel_passes (length P) P in
  wp (stochastic_universal_selection self fitness n) s
     (totpost (fun out s' =>
        out.1 = length (heap s) + 3 /\
        out.2 = sus_indices (w_start W) (w_end W) first d n /\
        gen s' = Rng (r_ints (gen s)) (r_floats (gen s)) (r_icount (gen s))
                     (S (r_fcount (gen s))) /\
        log s' = log s /\
        exists rows,
          heap s' = heap s
            ++ [AFloat (w_probs W); AFloat (w_start W); AFloat (w_end W);
                AGenes (Matrix (parents_dtype self) (m_cols pop) rows)] /\
          length rows = n /\
          forall i, i < n ->
            rows !! i
            = match find_range (w_start W) (w_end W) (sus_pointer first d i) with
              | Some idx => m_rows pop !! idx
              | None => Some None
              end)).
Proof.
  intros Hsum Hnpm Hrows d u first P W.
  assert (Qeq_bool (np_sum fs) 0 = false) as Hguard.
  { apply not_true_iff_false. by rewrite Qeq_bool_iff. }
  destruct (wheel_passes_lengths (length P) P) as (Hl1 & Hl2 & Hl3).
  fold W in Hl1, Hl2, Hl3.
  assert (length P = length fs) as HlP by apply np_divide_length.
  eapply wp_sus_wheel; [done|done|]. intros s4 P' W' Hh Hg Hlg Hcd.
  eapply wp_mono.
  - eapply (wp_sus_sampling self n s4 (heap s)); try done.
    + subst W' P'. fold P. fold W. lia.
    + subst W' P'. fold P. fold W. lia.
    + subst W' P'. fold P. fold W. lia.
  - intros [out|e] s5; simpl; [|done]. rewrite Hg, Hlg.
    intros (H1 & H2 & H3 & H4 & _ & rows & H5 & H6 & H7).
    split; [done|]. split; [done|]. split; [done|]. split; [done|].
    by exists rows.
Qed.

End SusRun.

(** ** Random selection, run to the end *)

Section RandomRun.
Context (self : GA) (fitness : loc) (n : nat) (s : state)
        (fs : list Q) (pop : matrix).
Hypothesis Hfit : heap s !! fitness = Some (AFloat fs).
Hypothesis Hpop : heap s !! population self = Some (AGenes pop).
Hypothesis Hwf : wf_ga self.
Hypothesis Hdraws : forall k, r_ints (gen s) k < length fs.
Hypothesis Hrows : length fs <= length (m_rows pop).

Lemma random_run :
  let draws := map (fun j => r_ints (gen s) (r_icount (gen s) + j)) (seq 0 n) in
  wp (random_selection self fitness n) s
     (totpost (fun out s' =>
        out = (length (heap s), draws) /\
        gen s' = Rng (r_ints (gen s)) (r_floats (gen s)) (r_icount (gen s) + n)
                     (r_fcount (gen s)) /\
        log s' = log s /\
        exists rows,
          heap s' = heap s
            ++ [AGenes (Matrix (parents_dtype self) (m_cols pop) rows)] /\
          length rows = n /\ aligned pop rows draws)).
Proof.
  intros draws. unfold random_selection.
  apply wp_bind. eapply wp_mono; [by apply (wp_empty_parents_tot self n s pop)|].
  intros [lp|e] s1; simpl; [|done]. intros [-> ->].
  apply wp_bind, wp_np_len. simpl. rewrite (lookup_app_l_Some _ _ _ _ Hfit).
  assert (exists s2 : state,
    heap s2 = heap s ++ [blank_parents self pop n] /\ log s2 = log s /\
    gen s2 = Rng (r_ints (gen s)) (r_floats (gen s)) (r_icount (gen s) + n)
                 (r_fcount (gen s)) /\
    forall Q' : result (list nat) -> state -> Prop,
      Q' (Ok draws) s2 ->
      wp (np_random_randint (length fs) n)
         (set_heap (heap s ++ [blank_parents self pop n]) s) Q') as Hdraw.
  { unfold np_random_randint. destruct (Nat.eqb_spec n 0) as [Hz|Hnz].
    - exists (set_heap (heap s ++ [blank_parents self pop n]) s). simpl.
      split; [done|]. split; [done|].
      split; [destruct s as [? []]; simpl; f_equal; lia|].
      intros Q' HQ. apply wp_ret.
      assert (draws = []) as Hd by (unfold draws; by rewrite Hz).
      by rewrite Hd in HQ.
    - destruct (Nat.eqb_spec (length fs) 0) as [Hz|_].
      { specialize (Hdraws 0). lia. }
      eexists (set_gen _ (set_heap (heap s ++ [blank_parents self pop n]) s)).
      split; [done|]. split; [done|]. split; [done|].
      intros Q' HQ. exact HQ. }
  destruct Hdraw as (s2 & Hh2 & Hl2 & Hg2 & Hdraw).
  apply wp_bind, Hdraw. apply wp_bind.
  assert (length draws = n) as Hld.
  { unfold draws. by rewrite length_map, length_seq. }
  eapply wp_mono.
  { apply (wp_for_each (fun k (_ : unit) s' =>
             gen s' = gen s2 /\ log s' = log s /\
             exists rows,
               heap s' = heap s
                 ++ [AGenes (Matrix (parents_dtype self) (m_cols pop) rows)] /\
               length rows = n /\
               forall p i, p < k -> draws !! p = Some i ->
                 exists row, m_rows pop !! i = Some row /\ rows !! p = Some row)
             _ _ _ _
             (totpost (fun _ s' =>
               gen s' = gen s2 /\ log s' = log s /\
               exists rows,
                 heap s' = heap s
                   ++ [AGenes (Matrix (parents_dtype self) (m_cols pop) rows)] /\
                 length rows = n /\ aligned pop rows draws))).
    - split; [done|]. split; [done|]. exists (replicate n None).
      split; [done|]. split; [by rewrite length_replicate|]. intros. lia.
    - intros k x [] s3 Hx (Hg & Hl & rows & Hh & Hrl & Hal).
      apply lookup_seq in Hx as [-> Hk]. simpl.
      destruct (lookup_lt_is_Some_2 draws k) as [i Hi]; [lia|].
      assert (i < length fs) as Hib.
      { unfold draws in Hi. rewrite lookup_map, lookup_seq_lt in Hi by done.
        simpl in Hi. injection Hi as <-. apply Hdraws. }
      destruct (lookup_lt_is_Some_2 (m_rows pop) i) as [row Hrow]; [lia|].
      apply wp_bind, wp_list_get. rewrite Hi.
      eapply (wp_copy_row (heap s) self pop); [exact Hh|done|exact Hrow|lia|].
      simpl. split; [done|]. split; [done|]. eexists. split; [done|].
      split; [by rewrite length_insert|].
      intros p j Hp Hj. destruct (decide (p = k)) as [->|Hne].
      + rewrite Hi in Hj. injection Hj as <-. exists row. split; [done|].
        apply list_lookup_insert_eq. lia.
      + rewrite list_lookup_insert_ne by done. apply Hal; [lia|done].
    - intros [] s3 (Hg & Hl & rows & Hh & Hrl & Hal). simpl.
      split; [done|]. split; [done|]. exists rows. split; [done|]. split; [done|].
      intros p i Hi. apply (Hal p i); [|done].
      rewrite length_seq. apply lookup_lt_Some in Hi. lia. }
  intros [[]|e] s3; simpl; [|done].
  intros (Hg & Hl & rows & Hh & Hrl & Hal). apply wp_ret. simpl.
  split; [done|]. split; [by rewrite Hg, Hg2|]. split; [done|]. by exists rows.
Qed.

End RandomRun.

(** ** The front-based selector: which indices it returns *)

Lemma wp_any_ok {A} (m : M A) s (P : A -> state -> Prop) :
  (forall a s', P a s') -> wp m s (okpost P).
Proof. intros H. unfold wp. destruct (m s) as [[a|e] s']; simpl; auto. Qed.

Lemma front_walk_0 cd fit fronts : front_walk cd fit fronts 0 = [].
Proof. by destruct fronts. Qed.

Lemma nsga2_while_walk cd self fit parents fronts st s :
  wp (nsga2_while cd self fit parents fronts st) s
     (okpost (fun st' _ =>
        parents_indices st'
        = parents_indices st
            ++ front_walk cd fit fronts (num_remaining_parents st))).
Proof.
  revert st s. induction fronts as [|cur rest IH]; intros st s; simpl.
  - apply wp_ret. simpl. by rewrite app_nil_r.
  - destruct (num_remaining_parents st =? 0).
    { apply wp_ret. simpl. by rewrite app_nil_r. }
    apply wp_bind_ok.
    destruct (Nat.leb_spec (length cur) (num_remaining_parents st)) as [Hfit|Hpart].
    + apply wp_bind_ok.
      apply (wp_for_each_ok (fun k st' _ =>
               parents_indices st' = parents_indices st ++ map fst (take k cur) /\
               num_remaining_parents st' = num_remaining_parents st)).
      * simpl. by rewrite app_nil_r.
      * intros k x st' s1 Hx [Hpi Hr]. apply lookup_seq in Hx as [-> Hk]. simpl.
        apply wp_bind, wp_list_get.
        lazymatch goal with
        | |- match ?o with _ => _ end => destruct o as [sol|] eqn:Hsol
        end; [|exact I].
        apply wp_bind_ok, wp_any_ok. intros row s2.
        apply wp_bind_ok, wp_any_ok. intros [] s3. apply wp_ret. simpl.
        split; [|done].
        rewrite Hpi, (take_S_r _ _ _ Hsol), map_app, app_assoc. done.
      * intros st' s1 [Hpi Hr]. rewrite length_seq in Hpi.
        rewrite firstn_all in Hpi. apply wp_ret. simpl.
        eapply wp_ok_mono; [apply IH|]. intros st'' s2 H. simpl in H.
        by rewrite H, Hpi, Hr, app_assoc.
    + apply wp_bind. unfold wp at 1, call_crowding_distance. simpl.
      unfold cd_pop_sorted.
      destruct (cd cur fit) as [[[table sums] fo] order]. simpl.
      apply wp_bind_ok.
      apply (wp_for_each_ok (fun k st' _ =>
               parents_indices st'
               = parents_indices st
                   ++ take k (take (num_remaining_parents st) order) /\
               num_remaining_parents st' = num_remaining_parents st)).
      * simpl. by rewrite app_nil_r.
      * intros k x st' s1 Hx [Hpi Hr]. simpl.
        apply wp_bind_ok, wp_any_ok. intros row s2.
        apply wp_bind_ok, wp_any_ok. intros i s3.
        apply wp_bind_ok, wp_any_ok. intros [] s4. apply wp_ret. simpl.
        split; [|done]. by rewrite Hpi, (take_S_r _ _ _ Hx), app_assoc.
      * intros st' s1 [Hpi Hr]. rewrite firstn_all in Hpi.
        apply wp_ret. simpl.
        eapply wp_ok_mono; [apply IH|]. intros st'' s2 H. simpl in H.
        rewrite Nat.sub_diag, front_walk_0, app_nil_r in H. by rewrite H.
Qed.

Lemma nsga2_selection_walk nds cd self fitness n s fit :
  heap s !! fitness = Some (AFloat2 fit) ->
  wp (nsga2_selection nds cd self fitness n) s
     (okpost (fun out _ => out.2 = front_walk cd fit (nds fit).1 n)).
Proof.
  intros Hfit. unfold nsga2_selection.
  apply wp_bind.
  apply (wp_frames (heap s) _ _ _ _ (frames_empty_parents (heap s) self n)
           (keeps_refl s)).
  intros [parents|e] s1 Hk _; simpl; [|done].
  apply wp_bind, wp_load_floats2.
  rewrite (keeps_lookup _ _ _ _ Hk Hfit).
  destruct (nds fit) as [fronts sfi]. simpl.
  apply wp_bind_ok. eapply wp_ok_mono; [apply nsga2_while_walk|].
  intros st s2 H. apply wp_ret. simpl. by rewrite H.
Qed.

(** Fronts that fit whole come first, in front order. *)
Lemma front_walk_whole cd fit fronts n j :
  length (concat (take j fronts)) <= n ->
  map fst (concat (take j fronts)) `prefix_of` front_walk cd fit fronts n.
Proof.
  revert n j. induction fronts as [|f rest IH]; intros n j Hn.
  - rewrite take_nil. simpl. done.
  - destruct j as [|j]; [apply prefix_nil|]. simpl in *.
    rewrite length_app in Hn. rewrite map_app.
    destruct (Nat.eqb_spec n 0) as [->|Hn0].
    + assert (length f = 0) as Hf by lia.
      assert (length (concat (take j rest)) = 0) as Hc by lia.
      apply nil_length_inv in Hf, Hc. by rewrite Hf, Hc.
    + destruct (Nat.leb_spec (length f) n) as [_|?]; [|lia].
      apply prefix_app, IH. lia.
Qed.

(** The first front that does not fit gives the head of its
    crowding-distance order, and nothing follows. *)
Lemma front_walk_partial cd fit fronts n j f :
  fronts !! j = Some f ->
  length (concat (take j fronts)) < n ->
  n - length (concat (take j fronts)) < length f ->
  front_walk cd fit fronts n
  = map fst (concat (take j fronts))
      ++ take (n - length (concat (take j fronts))) (cd_pop_sorted (cd f fit)).
Proof.
  revert n j. induction fronts as [|f0 rest IH]; intros n j Hj Hlt Hpart; [done|].
  destruct j as [|j]; simpl in *.
  - injection Hj as ->. rewrite Nat.sub_0_r in *.
    destruct (Nat.eqb_spec n 0) as [|_]; [lia|].
    destruct (Nat.leb_spec (length f) n) as [|_]; [lia|]. done.
  - rewrite length_app in *. rewrite map_app.
    destruct (Nat.eqb_spec n 0) as [|_]; [lia|].
    destruct (Nat.leb_spec (length f0) n) as [_|?]; [|lia].
    rewrite <- app_assoc. f_equal.
    rewrite (IH (n - length f0) j Hj) by lia. do 2 f_equal. lia.
Qed.

Lemma front_walk_length cd fit fronts n : length (front_walk cd fit fronts n) <= n.
Proof.
  revert n. induction fronts as [|f rest IH]; intros n; simpl; [lia|].
  destruct (n =? 0); [simpl; lia|].
  destruct (Nat.leb_spec (length f) n).
  - rewrite length_app, length_map. specialize (IH (n - length f)). lia.
  - rewrite length_take. lia.
Qed.

(** When the first front alone is larger than the quota. *)
Lemma nsga2_first_front_too_large nds cd self fitness n s fit pop f0 rest sfi x more :
  heap s !! fitness = Some (AFloat2 fit) ->
  heap s !! population self = Some (AGenes pop) -> wf_ga self ->
  nds fit = (f0 :: rest, sfi) ->
  0 < n -> n < length f0 ->
  cd_pop_sorted (cd f0 fit) = x :: more -> x < length (m_rows pop) ->
  wp (nsga2_selection nds cd self fitness n) s
     (fun r s' => r = Raise UnboundLocalError /\
                  gen s' = gen s /\ log s' = log s).
Proof.
  intros Hfit Hpop Hwf Hnds Hn Hlt Hcd Hx. unfold nsga2_selection.
  apply wp_bind. eapply wp_mono; [by apply (wp_empty_parents_tot self n s pop)|].
  intros [lp|e] s1; simpl; [|done]. intros [-> ->].
  apply wp_bind, wp_load_floats2. simpl.
  rewrite (lookup_app_l_Some _ _ _ _ Hfit), Hnds. simpl.
  destruct (Nat.eqb_spec n 0) as [|_]; [lia|].
  destruct (Nat.leb_spec (length f0) n) as [|_]; [lia|].
  apply wp_bind, wp_bind, wp_bind. unfold wp at 1, call_crowding_distance. simpl.
  unfold cd_pop_sorted in Hcd.
  destruct (cd f0 fit) as [[[table sums] fo] order]. simpl in Hcd. subst order.
  destruct n as [|n]; [lia|]. simpl.
  apply wp_bind, wp_bind, wp_bind, wp_get_row. simpl.
  rewrite (lookup_app_l_Some _ _ _ _ Hpop).
  destruct (lookup_lt_is_Some_2 (m_rows pop) x Hx) as [row ->].
  apply wp_bind. unfold read_sol_idx. simpl. by apply wp_raise.
Qed.
(** ** Requests the selectors cannot serve *)

Lemma steady_state_overdrawn self fitness n s fs pop :
  heap s !! fitness = Some (AFloat fs) ->
  heap s !! population self = Some (AGenes pop) -> wf_ga self ->
  length fs < n ->
  wp (steady_state_selection self fitness n) s
     (fun r s' => r = Raise IndexError /\ gen s' = gen s /\ log s' = log s).
Proof.
  intros Hfit Hpop Hwf Hn.
  assert (population self < length (heap s)) as Hlt by by eapply lookup_lt_Some.
  assert (length (rev (fitness_order fs)) = length fs) as Hlen.
  { rewrite length_rev, fitness_order_Permutation. apply length_seq. }
  unfold steady_state_selection. apply wp_bind, wp_load_floats. rewrite Hfit.
  set (L := rev (fitness_order fs)) in *.
  apply wp_bind. eapply wp_mono; [by apply (wp_empty_parents_tot _ _ _ pop)|].
  intros [l|e] s1; simpl; [|done]. intros [-> ->].
  apply wp_bind.
  apply (wp_for_each (fun k _ s' =>
           k <= length fs /\ gen s' = gen s /\ log s' = log s /\
           heap s' !! population self = Some (AGenes pop) /\
           exists par, heap s' !! length (heap s) = Some (AGenes par) /\
                       length (m_rows par) = n)).
  - simpl. split; [lia|]. repeat split; try done.
    + by rewrite lookup_app_l.
    + eexists. rewrite lookup_app_r, Nat.sub_diag by done. split; [done|].
      simpl. by rewrite length_replicate.
  - intros k x [] s2 Hx (Hk & Hg & Hl & Hp & par & Hpar & Hrn).
    apply lookup_seq in Hx as [-> Hkn]. simpl.
    apply wp_bind, wp_list_get.
    destruct (L !! k) as [i|] eqn:Hi; [|done].
    apply lookup_lt_Some in Hi.
    apply wp_bind, wp_get_row. rewrite Hp.
    destruct (m_rows pop !! i) as [row|]; [|done].
    apply wp_set_row. rewrite Hpar, Hrn.
    destruct (Nat.ltb_spec k n); [|lia]. simpl.
    assert (length (heap s) < length (heap s2)) by by eapply lookup_lt_Some.
    split; [lia|]. repeat split; try done.
    + rewrite list_lookup_insert_ne by lia. done.
    + eexists. split; [by apply list_lookup_insert_eq|]. simpl.
      by rewrite length_insert.
  - intros [] s2 (Hk & _). rewrite length_seq in Hk. lia.
Qed.

Lemma tournament_nothing_to_compare self fitness n s fs pop :
  heap s !! fitness = Some (AFloat fs) ->
  heap s !! population self = Some (AGenes pop) -> wf_ga self ->
  0 < n -> K_tournament self = 0 \/ fs = [] ->
  wp (tournament_selection self fitness n) s
     (fun r s' => r = Raise ValueError /\ gen s' = gen s /\ log s' = log s).
Proof.
  intros Hfit Hpop Hwf Hn Hcase. unfold tournament_selection.
  apply wp_bind. eapply wp_mono; [by apply (wp_empty_parents_tot _ _ _ pop)|].
  intros [l|e] s1; simpl; [|done]. intros [-> ->].
  destruct n as [|n]; [lia|]. simpl.
  apply wp_bind, wp_bind, wp_bind, wp_np_len. simpl.
  rewrite (lookup_app_l_Some _ _ _ _ Hfit).
  unfold np_random_randint.
  destruct (Nat.eqb_spec (K_tournament self) 0) as [HK|HK].
  - apply wp_bind, wp_ret. unfold np_take.
    apply wp_bind, wp_bind, wp_load_floats. simpl.
    rewrite (lookup_app_l_Some _ _ _ _ Hfit). simpl.
    apply wp_ret, wp_bind. by apply wp_raise.
  - destruct Hcase as [HK0 | ->]; [done|]. simpl. apply wp_bind. by apply wp_raise.
Qed.

Lemma random_nothing_to_draw self fitness n s pop :
  heap s !! fitness = Some (AFloat []) ->
  heap s !! population self = Some (AGenes pop) -> wf_ga self ->
  0 < n ->
  wp (random_selection self fitness n) s
     (fun r s' => r = Raise ValueError /\ gen s' = gen s /\ log s' = log s).
Proof.
  intros Hfit Hpop Hwf Hn. unfold random_selection.
  apply wp_bind. eapply wp_mono; [by apply (wp_empty_parents_tot _ _ _ pop)|].
  intros [l|e] s1; simpl; [|done]. intros [-> ->].
  apply wp_bind, wp_np_len. simpl. rewrite (lookup_app_l_Some _ _ _ _ Hfit).
  simpl. unfold np_random_randint.
  destruct (Nat.eqb_spec n 0) as [|_]; [lia|]. simpl.
  apply wp_bind. by apply wp_raise.
Qed.

Lemma tournament_nsga2_short {ar : arith} nds cd self fitness n s fit pop fronts sfi :
  heap s !! fitness = Some (AFloat2 fit) ->
  heap s !! population self = Some (AGenes pop) -> wf_ga self ->
  nds fit = (fronts, sfi) ->
  0 < n -> K_tournament self < 2 -> K_tournament self = 0 \/ sfi <> [] ->
  wp (tournament_selection_nsga2 nds cd self fitness n) s
     (fun r s' => r = Raise IndexError /\
                  log s' = log s /\ cd_calls s' = cd_calls s /\
                  r_fcount (gen s') = r_fcount (gen s)).
Proof.
  intros Hfit Hpop Hwf Hnds Hn HK Hcase. unfold tournament_selection_nsga2.
  apply wp_bind. eapply wp_mono; [by apply (wp_empty_parents_tot _ _ _ pop)|].
  intros [l|e] s1; simpl; [|done]. intros [-> ->].
  apply wp_bind, wp_load_floats2. simpl.
  rewrite (lookup_app_l_Some _ _ _ _ Hfit), Hnds.
  destruct n as [|n]; [lia|].
  unfold np_random_randint2.
  destruct (Nat.eqb_spec (K_tournament self) 0) as [HK0|HK0].
  - rewrite HK0, Nat.mul_0_r. simpl.
    apply wp_bind, wp_ret, wp_bind. simpl.
    apply wp_bind, wp_bind, wp_list_get. simpl.
    apply wp_bind. unfold nsga2_duel. simpl.
    apply wp_bind, wp_ret, wp_bind. by apply wp_raise.
  - assert (K_tournament self = 1) as HK1 by lia.
    destruct Hcase as [|Hsfi]; [done|].
    rewrite HK1, Nat.mul_1_r.
    destruct (Nat.eqb_spec (S n) 0) as [|_]; [lia|].
    destruct (Nat.eqb_spec (length sfi) 0) as [Hz|_];
      [by destruct sfi|].
    apply wp_bind, wp_bind. unfold wp at 1, draw_ints. simpl.
    apply wp_ret, wp_bind. simpl.
    apply wp_bind, wp_bind, wp_list_get. simpl.
    apply wp_bind. unfold nsga2_duel. simpl.
    apply wp_bind, wp_bind, wp_list_get.
    destruct (sfi !! _) as [f|]; [|done]. simpl.
    apply wp_bind, wp_ret, wp_ret, wp_bind, wp_list_get. simpl.
    apply wp_bind. by apply wp_raise.
Qed.

(** ** What front-based selection leaves alone *)

Lemma calm_ret {A} (a : A) : calm (ret a).
Proof. done. Qed.

Lemma calm_raise {A} e : calm (@raise A e).
Proof. done. Qed.

Lemma calm_bind {A B} (m : M A) (f : A -> M B) :
  calm m -> (forall a, calm (f a)) -> calm (bind m f).
Proof.
  intros Hm Hf s. destruct (Hm s) as (H1 & H2 & H3). unfold bind.
  destruct (m s) as [[a|e] s1]; simpl in *; [|done].
  destruct (Hf a s1) as (H4 & H5 & H6). repeat split; congruence.
Qed.

Lemma calm_for_each {A V} (xs : list A) (body : A -> V -> M V) v :
  (forall x v, calm (body x v)) -> calm (for_each xs body v).
Proof.
  intros Hb. revert v. induction xs as [|x xs IH]; intros v; simpl.
  - apply calm_ret.
  - apply calm_bind; [apply Hb | apply IH].
Qed.

Lemma calm_load l : calm (load l).
Proof. intros s. unfold load. by destruct (heap s !! l). Qed.

Lemma calm_list_get {A} (xs : list A) i : calm (list_get xs i).
Proof. intros s. unfold list_get. by destruct (xs !! i). Qed.

Lemma calm_load_genes l : calm (load_genes l).
Proof.
  apply calm_bind; [apply calm_load|]. intros []; apply calm_ret || apply calm_raise.
Qed.

Lemma calm_load_floats2 l : calm (load_floats2 l).
Proof.
  apply calm_bind; [apply calm_load|]. intros []; apply calm_ret || apply calm_raise.
Qed.

Lemma calm_get_row l i : calm (get_row l i).
Proof. apply calm_bind; [apply calm_load_genes|]. intros m. apply calm_list_get. Qed.

Lemma calm_set_row l i row : calm (set_row l i row).
Proof.
  apply calm_bind; [apply calm_load_genes|]. intros m.
  by destruct (i <? length (m_rows m)).
Qed.

Lemma calm_empty_parents self n : calm (empty_parents self n).
Proof.
  unfold empty_parents. destruct (gene_type_single self).
  - apply calm_bind; [apply calm_load_genes|]. intros pop.
    apply calm_bind; [apply calm_list_get|]. by intros dt.
  - apply calm_bind; [apply calm_load_genes|]. by intros pop.
Qed.

Lemma calm_read_sol_idx st : calm (read_sol_idx st).
Proof. unfold read_sol_idx. by destruct (sol_idx st). Qed.

Lemma wp_calm {A} (m : M A) s (Q' : result A -> state -> Prop) :
  calm m ->
  (forall r s', gen s' = gen s -> log s' = log s -> cd_calls s' = cd_calls s ->
     Q' r s') ->
  wp m s Q'.
Proof. intros Hm HQ. destruct (Hm s) as (? & ? & ?). by apply HQ. Qed.

Lemma nsga2_while_effects cd self fit parents fronts st s :
  wp (nsga2_while cd self fit parents fronts st) s (fun r s' =>
    gen s' = gen s /\ log s' = log s /\
    cd_calls s <= cd_calls s' /\
    cd_calls s' <= cd_calls s + (if num_remaining_parents st =? 0 then 0 else 1)).
Proof.
  revert st s. induction fronts as [|f rest IH]; intros st s; simpl.
  - apply wp_ret. repeat split; try done; lia.
  - destruct (Nat.eqb_spec (num_remaining_parents st) 0) as [Hz|Hnz].
    { apply wp_ret. repeat split; try done; lia. }
    apply wp_bind.
    destruct (Nat.leb_spec (length f) (num_remaining_parents st)) as [Hfit|Hpart].
    + apply wp_calm.
      { apply calm_bind; [|by intros st'].
        apply calm_for_each. intros i st'.
        apply calm_bind; [apply calm_list_get|]. intros sol.
        apply calm_bind; [apply calm_get_row|]. intros row.
        apply calm_bind; [apply calm_set_row|]. by intros []. }
      intros [st'|e] s1 Hg Hl Hc; [|repeat split; try done; lia].
      eapply wp_mono; [apply IH|]. simpl.
      intros r s2 (Hg2 & Hl2 & Hlo & Hhi).
      split; [congruence|]. split; [congruence|]. split; [lia|].
      destruct (_ =? 0); lia.
    + apply wp_bind. unfold wp at 1, call_crowding_distance. simpl.
      destruct (cd f fit) as [[[table sums] fo] order].
      apply wp_bind, wp_calm.
      { apply calm_for_each. intros x st'.
        apply calm_bind; [apply calm_get_row|]. intros row.
        apply calm_bind; [apply calm_read_sol_idx|]. intros i.
        apply calm_bind; [apply calm_set_row|]. by intros []. }
      simpl. intros [st'|e] s1 Hg Hl Hc.
      * apply wp_ret. eapply wp_mono; [apply IH|]. simpl.
        rewrite Nat.sub_diag. simpl.
        intros r s2 (Hg2 & Hl2 & Hlo & Hhi).
        split; [congruence|]. split; [congruence|]. lia.
      * split; [done|]. split; [done|]. lia.
Qed.
(** ** What a monotone rounding keeps *)

Section Rounding.
Context {ar : arith}.
Hypothesis Hr : rounding.

Lemma rnd_proper x y : (x == y)%Q -> (rnd x == rnd y)%Q.
Proof.
  intros H. apply Qle_antisym; apply (rnd_mono Hr); rewrite H; apply Qle_refl.
Qed.

Lemma rnd_nonneg x : (0 <= x)%Q -> (0 <= rnd x)%Q.
Proof.
  intros H. rewrite <- (rnd_zero Hr). by apply (rnd_mono Hr).
Qed.

(** The offset of stochastic universal selection lies between 0 and the
    spacing of the pointers. *)
Lemma sus_offset_bounds n u :
  (0 <= u)%Q -> (u <= 1)%Q ->
  let d := fdiv 1 (inject_Z (Z.of_nat n)) in
  (0 <= fadd 0 (fmul (fsub d 0) u))%Q /\ (fadd 0 (fmul (fsub d 0) u) <= d)%Q.
Proof.
  intros Hu0 Hu1 d. unfold fadd, fmul, fsub.
  assert (0 <= d)%Q as Hd.
  { unfold d, fdiv. apply rnd_nonneg.
    destruct n as [|n]; [by vm_compute|].
    apply Qle_shift_div_l; [|by vm_compute].
    change 0%Q with (inject_Z 0). rewrite <- Zlt_Qlt. lia. }
  assert (rnd d == d)%Q as Hfix by apply (rnd_idem Hr).
  assert (rnd (d - 0) == d)%Q as Hscale.
  { transitivity (rnd d); [apply rnd_proper; ring|exact Hfix]. }
  set (scale := rnd (d - 0)) in *. clearbody scale.
  assert (0 <= rnd (scale * u))%Q as Hm0.
  { apply rnd_nonneg. rewrite Hscale. by apply Qmult_le_0_compat. }
  assert (rnd (scale * u) <= d)%Q as Hm1.
  { apply Qle_trans with (rnd d); [|rewrite Hfix; apply Qle_refl].
    apply (rnd_mono Hr). rewrite Hscale. clear -Hd Hu0 Hu1. nra. }
  set (m := rnd (scale * u)) in *.
  assert (rnd (0 + m) == m)%Q as Hoff.
  { transitivity (rnd m); [apply rnd_proper; ring|]. apply (rnd_idem Hr). }
  by rewrite Hoff.
Qed.

(** With a factor below 1 the offset stays below the spacing, where the
    rounding is a shrinking one. *)
Lemma sus_offset_below n u :
  shrinking ->
  let d := fdiv 1 (inject_Z (Z.of_nat n)) in
  (2 ^ (-1021) <= d)%Q -> (u <= 1 - 2 ^ (-53))%Q ->
  (fadd 0 (fmul (fsub d 0) u) < d)%Q.
Proof.
  intros Hs d Hd Hu. unfold fadd, fmul, fsub.
  assert (rnd d == d)%Q as Hfix by apply (rnd_idem Hr).
  assert (rnd (d - 0) == d)%Q as Hscale.
  { transitivity (rnd d); [apply rnd_proper; ring|exact Hfix]. }
  assert (rnd (rnd (d - 0) * u) == rnd (d * u))%Q as Hm.
  { apply rnd_proper. by rewrite Hscale. }
  assert (rnd (0 + rnd (rnd (d - 0) * u)) == rnd (d * u))%Q as Hoff.
  { transitivity (rnd (rnd (d * u))); [|apply (rnd_idem Hr)].
    apply rnd_proper. rewrite Hm. ring. }
  rewrite Hoff. by apply Hs.
Qed.

(** The probabilities of rank selection, when the ranks are summed without
    error (they are integers), are at most 1. *)
Lemma rank_probs_capped N :
  let rank := np_arange 1 (N + 1) in
  (np_sum rank == Qsum rank)%Q ->
  Forall (fun p => (0 <= p)%Q /\ (p <= 1)%Q) (np_divide rank (np_sum rank)).
Proof.
  intros rank Hsum. unfold np_divide. apply Forall_fmap, Forall_forall.
  intros x Hx. simpl.
  assert (Forall (fun y => (1 <= y)%Q) rank) as Hpos.
  { unfold rank, np_arange. apply Forall_fmap, Forall_forall. intros k Hk.
    simpl. apply elem_of_seq in Hk. change 1%Q with (inject_Z 1).
    rewrite <- Zle_Qle. lia. }
  assert (1 <= x)%Q as Hx1 by apply (proj1 (Forall_forall _ _) Hpos x Hx).
  assert (x <= Qsum rank)%Q as Hle.
  { clear -Hpos Hx. induction Hpos as [|y ys Hy Hall IH];
      [by apply elem_of_nil in Hx|].
    assert (0 <= Qsum ys)%Q as Hs.
    { apply Qsum_nonneg. eapply Forall_impl; [exact Hall|].
      intros z Hz. simpl in Hz. lra. }
    simpl. apply elem_of_cons in Hx as [->|Hx]; [lra|].
    specialize (IH Hx). lra. }
  unfold fdiv. split.
  - apply Qle_trans with (rnd 0); [rewrite (rnd_zero Hr); apply Qle_refl|].
    apply (rnd_mono Hr). apply Qle_shift_div_l; [rewrite Hsum|]; lra.
  - apply Qle_trans with (rnd 1); [|rewrite (rnd_one Hr); apply Qle_refl].
    apply (rnd_mono Hr). apply Qle_shift_div_r; rewrite Hsum; lra.
Qed.

End Rounding.

(** Neither rounding nor not rounding takes a result out of order. *)
Lemma exact_rounding : rounding (ar := exact_arith).
Proof. split; simpl; [done|reflexivity..]. Qed.
(** ** Double precision is a monotone rounding *)

Section Binary64.
Local Open Scope Q_scope.

Lemma Qfloor_unique q z :
  inject_Z z <= q -> q < inject_Z (z + 1) -> Qfloor q = z.
Proof.
  intros H1 H2.
  pose proof (Qfloor_le q) as H3. pose proof (Qlt_floor q) as H4.
  assert (inject_Z z < inject_Z (Qfloor q + 1)) as H5 by (eapply Qle_lt_trans; eauto).
  assert (inject_Z (Qfloor q) < inject_Z (z + 1)) as H6 by (eapply Qle_lt_trans; eauto).
  rewrite <- Zlt_Qlt in H5, H6. lia.
Qed.

Lemma round_half_even_bounds x :
  (Qfloor x <= round_half_even x <= Qfloor x + 1)%Z.
Proof.
  unfold round_half_even.
  destruct (Qcompare _ _); [destruct (Z.even _)|..]; lia.
Qed.

Lemma round_half_even_comp x y :
  x == y -> round_half_even x = round_half_even y.
Proof.
  intros H. unfold round_half_even.
  rewrite (Qfloor_comp x y H).
  by replace (x - inject_Z (Qfloor y) ?= 1 # 2)
    with (y - inject_Z (Qfloor y) ?= 1 # 2) by (by rewrite H).
Qed.

Lemma round_half_even_Z z : round_half_even (inject_Z z) = z.
Proof.
  unfold round_half_even. rewrite Qfloor_Z.
  destruct (Qcompare_spec (inject_Z z - inject_Z z) (1 # 2));
    [exfalso; lra|done|exfalso; lra].
Qed.

Lemma round_half_even_mono x y :
  x <= y -> (round_half_even x <= round_half_even y)%Z.
Proof.
  intros Hxy. pose proof (Qfloor_resp_le _ _ Hxy) as Hf.
  pose proof (round_half_even_bounds x) as Hx.
  pose proof (round_half_even_bounds y) as Hy.
  destruct (decide (Qfloor x = Qfloor y)) as [E|NE]; [|lia].
  clear Hx Hy Hf. unfold round_half_even. rewrite E.
  set (f := Qfloor y).
  destruct (Qcompare_spec (x - inject_Z f) (1 # 2)),
    (Qcompare_spec (y - inject_Z f) (1 # 2));
    try lia; try (exfalso; lra); destruct (Z.even f); lia.
Qed.

Lemma round_half_even_opp x :
  round_half_even (- x) = (- round_half_even x)%Z.
Proof.
  pose proof (Qfloor_le x) as H1. pose proof (Qlt_floor x) as H2.
  set (f := Qfloor x) in *. rewrite inject_Z_plus in H2.
  change (inject_Z 1) with 1%Q in H2.
  destruct (Qeq_dec x (inject_Z f)) as [E|NE].
  - rewrite (round_half_even_comp x _ E).
    rewrite (round_half_even_comp (- x) (inject_Z (- f))).
    + by rewrite !round_half_even_Z.
    + rewrite E, inject_Z_opp. reflexivity.
  - assert (inject_Z f < x) as H3.
    { apply Qle_lteq in H1 as [|E]; [done|]. by symmetry in E. }
    assert (Qfloor (- x) = (- f - 1)%Z) as Hf.
    { apply Qfloor_unique.
      - unfold Z.sub. rewrite inject_Z_plus, inject_Z_opp.
        change (inject_Z (- (1))) with (- (1))%Q. lra.
      - replace (- f - 1 + 1)%Z with (- f)%Z by lia. rewrite inject_Z_opp. lra. }
    unfold round_half_even. rewrite Hf. fold f.
    unfold Z.sub. rewrite inject_Z_plus, inject_Z_opp.
    change (inject_Z (- (1))) with (- (1))%Q.
    assert (Z.even (- f + - (1)) = negb (Z.even f)) as Hev.
    { replace (- f + - (1))%Z with (- (f + 1))%Z by lia.
      rewrite Z.even_opp, Z.even_add. by destruct (Z.even f). }
    rewrite Hev.
    destruct (Qcompare_spec (- x - (- inject_Z f + - (1))) (1 # 2)),
      (Qcompare_spec (x - inject_Z f) (1 # 2));
      try (exfalso; lra); try lia.
    destruct (Z.even f); simpl; lia.
Qed.

Lemma two_pow_pos e : 0 < 2 ^ e.
Proof. by apply Qpower_0_lt. Qed.

Lemma two_pow_plus a b : 2 ^ (a + b) == 2 ^ a * 2 ^ b.
Proof. by apply Qpower_plus. Qed.

Lemma two_pow_Z n : (0 <= n)%Z -> inject_Z (2 ^ n) == 2 ^ n.
Proof. intros Hn. by rewrite Zpower_Qpower. Qed.

Lemma two_pow_le a b : (a <= b)%Z -> 2 ^ a <= 2 ^ b.
Proof. intros H. by apply Qpower_le_compat_l. Qed.

Lemma two_pow_lt_inv a b : 2 ^ a < 2 ^ b -> (a < b)%Z.
Proof. intros H. by apply (Qpower_lt_compat_l_inv 2). Qed.

(** [ilog2] is the exponent of the leading bit. *)
Lemma ilog2_spec x : 0 < x -> 2 ^ ilog2 x <= x /\ x < 2 ^ (ilog2 x + 1).
Proof.
  intros Hx. destruct x as [n d].
  assert (0 < n)%Z as Hn by (unfold Qlt in Hx; simpl in Hx; lia).
  unfold ilog2. cbn [Qnum Qden].
  destruct (Z.log2_spec n Hn) as [Ha1 Ha2].
  destruct (Z.log2_spec (Z.pos d)) as [Hb1 Hb2]; [lia|].
  pose proof (Z.log2_nonneg n) as Ha0.
  pose proof (Z.log2_nonneg (Z.pos d)) as Hb0.
  set (a := Z.log2 n) in *. set (b := Z.log2 (Z.pos d)) in *.
  rewrite Zle_Qle in Ha1, Hb1. rewrite Zlt_Qlt in Ha2, Hb2.
  rewrite two_pow_Z in Ha1, Ha2, Hb1, Hb2 by lia.
  pose proof (Qmake_Qdiv n d) as Hq.
  assert (0 < inject_Z (Z.pos d)) as HD by (rewrite <- (Zlt_Qlt 0); lia).
  set (D := inject_Z (Z.pos d)) in *. set (N := inject_Z n) in *.
  assert (n # d < 2 ^ (a - b + 1)) as Hup.
  { rewrite Hq. apply Qlt_shift_div_r; [done|].
    assert (2 ^ Z.succ a == 2 ^ (a - b + 1) * 2 ^ b) as E.
    { rewrite <- two_pow_plus. by replace (a - b + 1 + b)%Z with (Z.succ a) by lia. }
    rewrite E in Ha2. pose proof (two_pow_pos (a - b + 1)).
    clearbody N D. clear -Ha2 Hb1 H. nra. }
  assert (2 ^ (a - b - 1) < n # d) as Hlow.
  { rewrite Hq. apply Qlt_shift_div_l; [done|].
    assert (2 ^ a == 2 ^ (a - b - 1) * 2 ^ Z.succ b) as E.
    { rewrite <- two_pow_plus. by replace (a - b - 1 + Z.succ b)%Z with a by lia. }
    rewrite E in Ha1. pose proof (two_pow_pos (a - b - 1)).
    clearbody N D. clear -Ha1 Hb2 H. nra. }
  destruct (Qle_bool (2 ^ (a - b)) (n # d)) eqn:E.
  - apply Qle_bool_iff in E. by split.
  - split; [by apply Qlt_le_weak|].
    replace (a - b - 1 + 1)%Z with (a - b)%Z by lia.
    apply Qnot_le_lt. intros Hle%Qle_bool_iff. congruence.
Qed.

Lemma ilog2_unique x k :
  2 ^ k <= x -> x < 2 ^ (k + 1) -> ilog2 x = k.
Proof.
  intros H1 H2.
  assert (0 < x) as Hx by (eapply Qlt_le_trans; [apply (two_pow_pos k)|done]).
  destruct (ilog2_spec x Hx) as [H3 H4].
  assert (2 ^ k < 2 ^ (ilog2 x + 1)) as H5 by (eapply Qle_lt_trans; eauto).
  assert (2 ^ ilog2 x < 2 ^ (k + 1)) as H6 by (eapply Qle_lt_trans; eauto).
  apply two_pow_lt_inv in H5, H6. lia.
Qed.

Lemma ilog2_mono x y : 0 < x -> x <= y -> (ilog2 x <= ilog2 y)%Z.
Proof.
  intros Hx Hxy.
  assert (0 < y) as Hy by (eapply Qlt_le_trans; eauto).
  destruct (ilog2_spec x Hx) as [H1 _]. destruct (ilog2_spec y Hy) as [_ H2].
  assert (2 ^ ilog2 x < 2 ^ (ilog2 y + 1)) as H.
  { eapply Qle_lt_trans; [|exact H2]. eapply Qle_trans; eauto. }
  apply two_pow_lt_inv in H. lia.
Qed.

Lemma ilog2_comp x y : 0 < x -> x == y -> ilog2 x = ilog2 y.
Proof.
  intros Hx E. symmetry. destruct (ilog2_spec x Hx) as [H1 H2].
  apply ilog2_unique; by rewrite <- E.
Qed.

Lemma exponent_pos x : 0 < x -> exponent x = Z.max (ilog2 x - 52) (-1074).
Proof.
  intros Hx. unfold exponent. f_equal. f_equal.
  apply ilog2_comp.
  - rewrite Qabs_pos; [done|by apply Qlt_le_weak].
  - apply Qabs_pos. by apply Qlt_le_weak.
Qed.

Lemma exponent_opp x : ~ x == 0 -> exponent (- x) = exponent x.
Proof.
  intros Hx. unfold exponent. f_equal. f_equal.
  apply ilog2_comp; [|apply Qabs_opp].
  rewrite Qabs_opp. pose proof (Qabs_nonneg x) as H.
  apply Qle_lteq in H as [|E]; [done|].
  exfalso. apply Hx. symmetry in E.
  destruct (Qabs_Qle_condition x 0) as [Hc _].
  destruct Hc as [Hc1 Hc2]; [rewrite E; apply Qle_refl|]. lra.
Qed.

Lemma binary64_eq x :
  ~ x == 0 ->
  binary64 x == inject_Z (round_half_even (x / 2 ^ exponent x)) * 2 ^ exponent x.
Proof.
  intros Hx. unfold binary64.
  destruct (Qeq_bool x 0) eqn:E; [by apply Qeq_bool_iff in E|].
  apply Qred_correct.
Qed.

Lemma binary64_0 x : x == 0 -> binary64 x = 0.
Proof.
  intros Hx. unfold binary64. apply Qeq_bool_iff in Hx. by rewrite Hx.
Qed.

(** The significand has at most 53 bits, and exactly 53 unless the number
    is subnormal. *)
Lemma mantissa_bounds x :
  0 < x ->
  let e := exponent x in
  let m := round_half_even (x / 2 ^ e) in
  (0 <= m <= 2 ^ 53)%Z /\
  ((2 ^ 52 <= m)%Z \/ (ilog2 x < -1022)%Z /\ e = (-1074)%Z).
Proof.
  intros Hx e m. destruct (ilog2_spec x Hx) as [H1 H2].
  pose proof (exponent_pos x Hx) as He. fold e in He.
  pose proof (two_pow_pos e) as Hpe.
  split; [split|].
  - rewrite <- (round_half_even_Z 0). apply round_half_even_mono.
    apply Qle_shift_div_l; [done|]. change (inject_Z 0) with 0. lra.
  - rewrite <- (round_half_even_Z (2 ^ 53)). apply round_half_even_mono.
    rewrite two_pow_Z by lia. apply Qle_shift_div_r; [done|].
    rewrite <- two_pow_plus. apply Qlt_le_weak.
    eapply Qlt_le_trans; [exact H2|]. apply two_pow_le. lia.
  - destruct (Z.max_spec (ilog2 x - 52) (-1074)) as [[Hlt Hm]|[Hle Hm]];
      rewrite Hm in He; [right; split; [lia|done]|].
    left. rewrite <- (round_half_even_Z (2 ^ 52)). apply round_half_even_mono.
    rewrite two_pow_Z by lia. apply Qle_shift_div_l; [done|].
    rewrite <- two_pow_plus.
    eapply Qle_trans; [|exact H1]. apply two_pow_le. lia.
Qed.

Lemma binary64_opp x : binary64 (- x) == - binary64 x.
Proof.
  destruct (Qeq_dec x 0) as [E|NE].
  - rewrite (binary64_0 x E), (binary64_0 (- x)); [reflexivity|].
    rewrite E. reflexivity.
  - rewrite !binary64_eq; [|done|intros H; apply NE; lra].
    rewrite (exponent_opp x NE). pose proof (two_pow_pos (exponent x)) as Hp.
    rewrite (round_half_even_comp (- x / 2 ^ exponent x)
               (- (x / 2 ^ exponent x))).
    + rewrite round_half_even_opp, inject_Z_opp. ring.
    + field. lra.
Qed.

Lemma binary64_nonneg x : 0 <= x -> 0 <= binary64 x.
Proof.
  intros Hx. destruct (Qeq_dec x 0) as [E|NE].
  - rewrite (binary64_0 x E). apply Qle_refl.
  - assert (0 < x) as Hpos by (apply Qle_lteq in Hx as [|E]; [done|]; by symmetry in E).
    rewrite binary64_eq by done.
    destruct (mantissa_bounds x Hpos) as [[H0 _] _].
    apply Qmult_le_0_compat; [|apply Qlt_le_weak, two_pow_pos].
    by rewrite <- (Zle_Qle 0).
Qed.

Lemma binary64_mono_pos x y : 0 < x -> x <= y -> binary64 x <= binary64 y.
Proof.
  intros Hx Hxy. assert (0 < y) as Hy by (eapply Qlt_le_trans; eauto).
  rewrite !binary64_eq by lra.
  destruct (mantissa_bounds x Hx) as [[_ Hmx] _].
  destruct (mantissa_bounds y Hy) as [_ Hmy].
  pose proof (exponent_pos x Hx) as Hex. pose proof (exponent_pos y Hy) as Hey.
  pose proof (ilog2_mono x y Hx Hxy) as Hlog.
  set (ex := exponent x) in *. set (ey := exponent y) in *.
  pose proof (two_pow_pos ex) as Hpx. pose proof (two_pow_pos ey) as Hpy.
  destruct (decide (ex = ey)) as [E|NE].
  - rewrite E. apply Qmult_le_compat_r; [|by apply Qlt_le_weak].
    rewrite <- Zle_Qle. apply round_half_even_mono.
    apply Qmult_le_compat_r; [done|]. apply Qinv_le_0_compat. by apply Qlt_le_weak.
  - destruct Hmy as [Hmy|[_ Hmy]]; [|lia].
    apply Qle_trans with (inject_Z (2 ^ 53) * 2 ^ ex).
    { apply Qmult_le_compat_r; [by rewrite <- Zle_Qle|by apply Qlt_le_weak]. }
    apply Qle_trans with (inject_Z (2 ^ 52) * 2 ^ ey).
    { rewrite !two_pow_Z by lia. rewrite <- !two_pow_plus. apply two_pow_le. lia. }
    apply Qmult_le_compat_r; [by rewrite <- Zle_Qle|by apply Qlt_le_weak].
Qed.

Lemma binary64_mono x y : x <= y -> binary64 x <= binary64 y.
Proof.
  intros Hxy. destruct (Qlt_le_dec 0 x) as [Hx|Hx];
    [by apply binary64_mono_pos|].
  assert (binary64 x <= 0) as Hbx.
  { pose proof (binary64_nonneg (- x)) as H. rewrite binary64_opp in H.
    assert (0 <= - x) as H' by lra. specialize (H H'). lra. }
  destruct (Qlt_le_dec y 0) as [Hy|Hy].
  - pose proof (binary64_mono_pos (- y) (- x)) as H.
    rewrite !binary64_opp in H.
    assert (0 < - y) as H1 by lra. assert (- y <= - x) as H2 by lra.
    specialize (H H1 H2). lra.
  - pose proof (binary64_nonneg y Hy). lra.
Qed.

Lemma binary64_comp x y : x == y -> binary64 x == binary64 y.
Proof.
  intros E. apply Qle_antisym; apply binary64_mono; rewrite E; apply Qle_refl.
Qed.

(** A number with a significand of at most 53 bits is a float. *)
Lemma binary64_fixed m e :
  (0 < m <= 2 ^ 53)%Z -> (-1074 <= e)%Z ->
  (2 ^ 52 <= m)%Z \/ e = (-1074)%Z ->
  binary64 (inject_Z m * 2 ^ e) == inject_Z m * 2 ^ e.
Proof.
  intros [Hm0 Hm1] He Hn. pose proof (two_pow_pos e) as Hpe.
  assert (0 < inject_Z m) as Hm by (by rewrite <- (Zlt_Qlt 0)).
  set (v := inject_Z m * 2 ^ e).
  assert (0 < v) as Hv by (unfold v; nra).
  rewrite binary64_eq by lra. rewrite (exponent_pos v) by done.
  destruct (decide (m = 2 ^ 53)%Z) as [Em|Hne].
  - assert (v == 2 ^ (e + 53)) as Ev.
    { unfold v. rewrite Em, two_pow_Z by lia. rewrite <- two_pow_plus.
      by rewrite Z.add_comm. }
    assert (ilog2 v = (e + 53)%Z) as El.
    { apply ilog2_unique; rewrite Ev; [apply Qle_refl|].
      apply Qpower_lt_compat_l; [lia|reflexivity]. }
    rewrite El. replace (Z.max (e + 53 - 52) (-1074)) with (e + 1)%Z by lia.
    rewrite (round_half_even_comp _ (inject_Z (2 ^ 52))).
    + rewrite round_half_even_Z, Ev, two_pow_Z by lia.
      rewrite <- two_pow_plus. by replace (52 + (e + 1))%Z with (e + 53)%Z by lia.
    + rewrite Ev, two_pow_Z by lia. rewrite <- Qpower_minus by done.
      by replace (e + 53 - (e + 1))%Z with 52%Z by lia.
  - assert (m < 2 ^ 53)%Z as Hlt by lia.
    assert (v < 2 ^ (e + 53)) as Hup.
    { rewrite Z.add_comm, two_pow_plus. unfold v.
      apply Qmult_lt_compat_r; [done|].
      rewrite <- two_pow_Z by lia. by rewrite <- Zlt_Qlt. }
    assert (Z.max (ilog2 v - 52) (-1074) = e) as ->.
    { destruct (ilog2_spec v Hv) as [H3 H4].
      assert (ilog2 v < e + 53)%Z
        by (apply two_pow_lt_inv; eapply Qle_lt_trans; eauto).
      destruct Hn as [Hn|Hn]; [|lia].
      assert (2 ^ (e + 52) <= v) as Hlow.
      { rewrite Z.add_comm, two_pow_plus. unfold v.
        apply Qmult_le_compat_r; [|by apply Qlt_le_weak].
        rewrite <- two_pow_Z by lia. by rewrite <- Zle_Qle. }
      assert (e + 52 < ilog2 v + 1)%Z
        by (apply two_pow_lt_inv; eapply Qle_lt_trans; eauto).
      lia. }
    rewrite (round_half_even_comp _ (inject_Z m)); [by rewrite round_half_even_Z|].
    unfold v. field. lra.
Qed.

Lemma binary64_idem x : binary64 (binary64 x) == binary64 x.
Proof.
  assert (forall z, 0 < z -> binary64 (binary64 z) == binary64 z) as Hpos.
  { intros z Hz. destruct (mantissa_bounds z Hz) as [[H0 H1] H2].
    pose proof (binary64_eq z) as E.
    assert (-1074 <= exponent z)%Z as He by (unfold exponent; lia).
    set (e := exponent z) in *. set (m := round_half_even (z / 2 ^ e)) in *.
    assert (binary64 z == inject_Z m * 2 ^ e) as Ez by (apply E; lra).
    destruct (decide (m = 0%Z)) as [Em|Nm].
    - assert (binary64 z == 0) as E0 by (rewrite Ez, Em; ring).
      by rewrite (binary64_0 _ E0).
    - transitivity (binary64 (inject_Z m * 2 ^ e)); [by apply binary64_comp|].
      rewrite binary64_fixed; [by symmetry|lia|done|].
      destruct H2 as [H2|[_ H2]]; [by left|by right]. }
  destruct (Qlt_le_dec 0 x) as [Hx|Hx]; [by apply Hpos|].
  destruct (Qeq_dec x 0) as [E|NE].
  - rewrite (binary64_0 x E). reflexivity.
  - assert (0 < - x) as Hn.
    { apply Qle_lteq in Hx as [|E]; [lra|done]. }
    specialize (Hpos (- x) Hn).
    pose proof (binary64_opp x) as Ho.
    pose proof (binary64_comp _ _ Ho) as H1. rewrite H1 in Hpos.
    rewrite binary64_opp in Hpos. lra.
Qed.

(** A float of the normal range is rounded to itself with a significand
    of exactly 53 bits. *)
Lemma binary64_normal s :
  2 ^ (-1022) <= s -> binary64 s == s ->
  exists m e, (2 ^ 52 <= m < 2 ^ 53)%Z /\ (-1074 <= e)%Z /\
              ilog2 s = (e + 52)%Z /\ s == inject_Z m * 2 ^ e.
Proof.
  intros Hs Hfix.
  assert (0 < s) as Hpos by (eapply Qlt_le_trans; [apply (two_pow_pos (-1022))|done]).
  destruct (ilog2_spec s Hpos) as [H1 H2].
  assert (-1022 <= ilog2 s)%Z as Hl.
  { assert (2 ^ (-1022) < 2 ^ (ilog2 s + 1)) as H by (eapply Qle_lt_trans; eauto).
    apply two_pow_lt_inv in H. lia. }
  pose proof (exponent_pos s Hpos) as He.
  rewrite Z.max_l in He by lia.
  destruct (mantissa_bounds s Hpos) as [[_ Hm1] Hm2].
  rewrite binary64_eq in Hfix by lra.
  set (e := exponent s) in *. set (m := round_half_even (s / 2 ^ e)) in *.
  pose proof (two_pow_pos e) as Hpe.
  exists m, e. destruct Hm2 as [Hm2|[Hm2 _]]; [|lia].
  split; [split; [done|]|split; [lia|split; [lia|by symmetry]]].
  assert (inject_Z m < inject_Z (2 ^ 53)) as H; [|by rewrite <- Zlt_Qlt in H].
  rewrite two_pow_Z by lia.
  apply Qmult_lt_r with (2 ^ e); [done|].
  rewrite Hfix, <- two_pow_plus. by replace (53 + e)%Z with (ilog2 s + 1)%Z by lia.
Qed.

(** Scaling a normal float by a factor of at most [1 - 2^-53], the largest
    double below 1, gives a smaller float. *)
Lemma binary64_shrinks s u :
  2 ^ (-1021) <= s -> binary64 s == s -> u <= 1 - 2 ^ (-53) ->
  binary64 (s * u) < s.
Proof.
  intros Hs Hfix Hu.
  assert (2 ^ (-1022) <= s) as Hs'.
  { eapply Qle_trans; [|exact Hs]. apply two_pow_le. lia. }
  destruct (binary64_normal s Hs' Hfix) as (m & e & [Hm0 Hm1] & He & Hlog & Es).
  assert (0 < s) as Hpos by (eapply Qlt_le_trans; [apply (two_pow_pos (-1022))|done]).
  pose proof (two_pow_pos e) as Hpe.
  assert (-1073 <= e)%Z as He'.
  { destruct (ilog2_spec s Hpos) as [_ H2].
    assert (2 ^ (-1021) < 2 ^ (ilog2 s + 1)) as H by (eapply Qle_lt_trans; eauto).
    apply two_pow_lt_inv in H. lia. }
  set (x0 := s * (1 - 2 ^ (-53))).
  apply Qle_lt_trans with (binary64 x0).
  { apply binary64_mono. unfold x0. clear -Hpos Hu. nra. }
  assert (2 ^ (-53) == 1 # 9007199254740992) as E53 by reflexivity.
  destruct (decide (m = 2 ^ 52)%Z) as [Em|Nm].
  - assert (x0 == inject_Z (2 ^ 53 - 1) * 2 ^ (e - 1)) as Ex.
    { unfold x0. rewrite Es, Em, E53.
      replace e with (1 + (e - 1))%Z at 1 by lia. rewrite two_pow_plus.
      change (2 ^ 1) with 2. set (p := 2 ^ (e - 1)).
      change (inject_Z (2 ^ 52)) with (4503599627370496 # 1).
      change (inject_Z (2 ^ 53 - 1)) with (9007199254740991 # 1). field. }
    rewrite (binary64_comp _ _ Ex), binary64_fixed; [|lia|lia|left; lia].
    rewrite <- Ex. unfold x0. rewrite E53. clear -Hpos. nra.
  - assert (2 ^ 52 + 1 <= m)%Z as Hm by lia.
    assert (inject_Z (2 ^ 52) + 1 <= inject_Z m) as HmQ.
    { change (inject_Z (2 ^ 52) + 1) with (inject_Z (2 ^ 52) + inject_Z 1).
      rewrite <- inject_Z_plus, <- Zle_Qle. lia. }
    assert (inject_Z m < inject_Z (2 ^ 53)) as HmQ' by (by rewrite <- Zlt_Qlt).
    change (inject_Z (2 ^ 52)) with (4503599627370496 # 1) in HmQ.
    change (inject_Z (2 ^ 53)) with (9007199254740992 # 1) in HmQ'.
    set (M := inject_Z m) in *.
    assert (x0 == (M - M * 2 ^ (-53)) * 2 ^ e) as Ex.
    { unfold x0. rewrite Es. ring. }
    assert (0 < x0) as Hx0 by (unfold x0; rewrite E53; clear -Hpos; nra).
    assert (ilog2 x0 = (e + 52)%Z) as Hlx.
    { apply ilog2_unique.
      - rewrite Ex, Z.add_comm, two_pow_plus.
        apply Qmult_le_compat_r; [|by apply Qlt_le_weak].
        change (2 ^ 52) with (4503599627370496 # 1). rewrite E53.
        clearbody M. clear -HmQ HmQ'. nra.
      - destruct (ilog2_spec s Hpos) as [_ H2]. rewrite Hlog in H2.
        eapply Qle_lt_trans; [|exact H2]. unfold x0. rewrite E53.
        clear -Hpos. nra. }
    rewrite binary64_eq by lra. rewrite (exponent_pos x0 Hx0), Hlx.
    replace (Z.max (e + 52 - 52) (-1074)) with e by lia.
    assert (round_half_even (x0 / 2 ^ e) = (m - 1)%Z) as ->.
    { rewrite (round_half_even_comp _ (M - M * 2 ^ (-53)))
        by (rewrite Ex; field; lra).
      unfold round_half_even.
      assert (Qfloor (M - M * 2 ^ (-53)) = (m - 1)%Z) as ->.
      { apply Qfloor_unique.
        - unfold Z.sub. rewrite inject_Z_plus. fold M.
          change (inject_Z (- (1))) with (- (1))%Q. rewrite E53.
          clearbody M. clear -HmQ HmQ'. nra.
        - replace (m - 1 + 1)%Z with m by lia. fold M. rewrite E53.
          clearbody M. clear -HmQ HmQ'. nra. }
      unfold Z.sub. rewrite inject_Z_plus. fold M.
      change (inject_Z (- (1))) with (- (1))%Q.
      destruct (Qcompare_spec (M - M * 2 ^ (-53) - (M + - (1))) (1 # 2)) as [E|E|E];
        [exfalso|done|exfalso]; rewrite E53 in E; clearbody M;
        clear -HmQ HmQ' E; nra. }
    rewrite Es. apply Qmult_lt_compat_r; [done|].
    unfold M. rewrite <- Zlt_Qlt. lia.
Qed.

End Binary64.

Lemma binary64_rounding : rounding (ar := binary64_arith).
Proof.
  split; simpl.
  - apply binary64_mono.
  - apply binary64_idem.
  - reflexivity.
  - reflexivity.
Qed.

Lemma binary64_shrinking : shrinking (ar := binary64_arith).
Proof. intros s u. simpl. apply binary64_shrinks. Qed.
(** * The claims *)


(** Nor is a draw from [[0, 1)] sure to find a range: in double precision
    the wheel of the fitness [[1, 2, 2, 2]] ends at [1 - 2^-53], the largest
    float below 1, so roulette-wheel selection drawing that very number
    selects nothing and returns one parent row, unwritten, and no index. *)
Lemma roulette_wheel_misses_below_one :
  (0 <= r_floats brink_rng 0)%Q /\ (r_floats brink_rng 0 < 1)%Q /\
  exists parents s',
    roulette_wheel_selection (ar := binary64_arith) brink_ga 1 1 brink_state
      = (Ok (parents, []), s') /\
    heap s' !! parents = Some (AGenes (Matrix DInt 1 [None])).
Proof.
  split; [by vm_compute|]. split; [by vm_compute|].
  do 2 eexists. split; [vm_compute; reflexivity|]. by vm_compute.
Qed.

(** The same draw is lost on the wheel of rank selection over six
    solutions, which also ends at [1 - 2^-53], and as the offset of
    stochastic universal selection on the fitness [[1, 2, 2, 2]] with a
    mating pool of one. *)
Lemma rank_and_sus_miss_below_one :
  (wheel_end (ar := binary64_arith)
     (np_divide (ar := binary64_arith) (np_arange 1 7)
        (np_sum (arith := binary64_arith) (np_arange 1 7)))
   == 1 - 1 / 2 ^ 53)%Q /\
  (exists parents s',
     rank_selection (ar := binary64_arith) sextet_ga 1 1 sextet_state
       = (Ok (parents, []), s')) /\
  (exists parents s',
     stochastic_universal_selection (ar := binary64_arith) brink_ga 1 1
       brink_state = (Ok (parents, []), s')).
Proof.
  split; [by vm_compute|].
  split; do 2 eexists; vm_compute; reflexivity.
Qed.



(** C9: no selector writes to an array that existed when it was called, in
    particular not to the population or the fitness, whatever the outcome of
    the call; the returned parents are a freshly allocated array, not an
    alias of an existing one, so writing a row of the returned parents
    afterwards leaves the population (and every other array of the caller)
    unchanged. *)
Theorem selectors_leave_population_and_fitness_alone {ar : arith} nds cd sel
    self fitness num_parents s :
  let out := run_selector nds cd sel self fitness num_parents s in
  (forall l a, heap s !! l = Some a -> heap out.2 !! l = Some a) /\
  (forall parents idxs, out.1 = Ok (parents, idxs) ->
     heap s !! parents = None /\
     forall i row l a, heap s !! l = Some a ->
       heap (set_row parents i row out.2).2 !! l = Some a).
Proof.
  intros out.
  destruct (frames_run_selector (heap s) self fitness num_parents nds cd sel s
              (keeps_refl s)) as [Hk Hf].
  fold out in Hk, Hf. split.
  - intros l a Hl. by eapply keeps_lookup.
  - intros parents idxs Hout. specialize (Hf _ Hout).
    unfold fresh_parents, fresh in Hf. simpl in Hf. split.
    + by apply lookup_ge_None.
    + intros i row l a Hl.
      destruct (frames_set_row (heap s) parents i row Hf out.2 Hk) as [Hk' _].
      by eapply keeps_lookup.
Qed.

(** The sentinel has to exceed the entries: on [[200000000000, 1]], which is
    no probability vector, the sentinel that replaces the consumed entry 1 is
    the minimum of the next pass, so the same slot is consumed twice and
    slot 0 never gets a range. *)
Lemma wheel_breaks_above_sentinel :
  exists s',
    wheel_cumulative_probs (ar := binary64_arith) demo_ga 1 2 oversized_state
      = (Ok (2, 3, 4), s') /\
    heap s' !! 2 = Some (AFloat [0 # 1; 1 # 1]%Q) /\
    heap s' !! 3 = Some (AFloat [0 # 1; 100000000000 # 1]%Q).
Proof.
  eexists. split; [vm_compute; reflexivity|].
  split; by vm_compute.
Qed.

(** C5, as stated, fails on the sum of the widths.  In double precision the
    probabilities [[0.23, 0.68, 0.09]] are given the ranges [[0.09, 0.32)],
    [[0.32, 1)] and [[0, 0.09)]: the widths add up to 1 exactly (and to
    [1 - 2^-53] when the subtractions and the sum are done in floating
    point), the probabilities to [1 + 2^-54] exactly (and to 1 in floating
    point).  Either way the two sums differ. *)
Lemma wheel_widths_miss_the_sum :
  Forall (fun p => (0 <= p)%Q /\ (p < sentinel)%Q) tenths /\
  exists starts ends s',
    wheel_cumulative_probs (ar := binary64_arith) demo_ga 1 2 tenths_state
      = (Ok (2, 3, 4), s') /\
    heap s' !! 2 = Some (AFloat starts) /\
    heap s' !! 3 = Some (AFloat ends) /\
    ~ (Qsum (widths starts ends) == Qsum tenths)%Q /\
    ~ (binary64_sum (zip_with (fsub (ar := binary64_arith)) ends starts)
       == binary64_sum tenths)%Q.
Proof.
  split; [repeat constructor; by vm_compute|].
  do 3 eexists. split; [vm_compute; reflexivity|].
  split; [vm_compute; reflexivity|]. split; [vm_compute; reflexivity|].
  split; by vm_compute.
Qed.

(** C5 (amended): for a probability vector, its entries non-negative and, as
    the claim says of any real probability, below the sentinel 99999999999,
    the helper returns start and end arrays such that, [order] being the
    order in which the slots were consumed (a permutation of all slots):
    probabilities do not decrease along the order; the range of the first
    slot starts at 0, each range starts where the previous one ends, and
    ends at its start plus the probability of its slot, as the program adds
    them (the result of the addition, rounded); every number from 0 up to
    the end of the last range lies in a range; the widths add up, exactly,
    to the end of the last range, which is the probabilities added in
    ascending order with every addition rounded, not their sum; and every
    entry of the array passed in has been replaced by the sentinel.  When the
    rounding is monotone and exact on 0, 1 and its own results
    ([rounding]), as rounding to the nearest double is, no range starts
    before 0 or ends before it starts, and the half-open ranges are
    pairwise disjoint. *)
Theorem wheel_ranges_tile {ar : arith} self probs num_parents s ps pop :
  heap s !! probs = Some (AFloat ps) ->
  heap s !! population self = Some (AGenes pop) -> wf_ga self ->
  Forall (fun p => (0 <= p)%Q /\ (p < sentinel)%Q) ps ->
  exists probs_start probs_end parents s' starts ends order,
    wheel_cumulative_probs self probs num_parents s
      = (Ok (probs_start, probs_end, parents), s') /\
    heap s' !! probs_start = Some (AFloat starts) /\
    heap s' !! probs_end = Some (AFloat ends) /\
    length starts = length ps /\ length ends = length ps /\
    order ≡ₚ seq 0 (length ps) /\
    (forall a b i j, a <= b -> order !! a = Some i -> order !! b = Some j ->
       (nth i ps 0 <= nth j ps 0)%Q) /\
    (forall i, order !! 0 = Some i -> nth i starts 0%Q = 0%Q) /\
    (forall a i j, order !! a = Some i -> order !! S a = Some j ->
       nth j starts 0%Q = nth i ends 0%Q) /\
    (forall i, i < length ps ->
       nth i ends 0%Q = fadd (nth i starts 0%Q) (nth i ps 0%Q)) /\
    (forall i, order !! (length ps - 1) = Some i ->
       nth i ends 0%Q = wheel_end ps) /\
    (forall r, (0 <= r)%Q -> (r < wheel_end ps)%Q ->
       exists i, i < length ps /\ contains starts ends i r) /\
    (Qsum (widths starts ends) == wheel_end ps)%Q /\
    (rounding ->
       disjoint_ranges starts ends /\
       forall i, i < length ps ->
         (0 <= nth i starts 0)%Q /\ (nth i starts 0 <= nth i ends 0)%Q /\
         (nth i ends 0 <= wheel_end ps)%Q) /\
    heap s' !! probs = Some (AFloat (replicate (length ps) sentinel)).
Proof.
  intros Hp Hpop Hwf Hps.
  pose proof (wp_wheel_cumulative_probs self probs num_parents s ps pop Hp Hpop Hwf) as H.
  unfold wp in H.
  destruct (wheel_cumulative_probs self probs num_parents s) as [[out|e] s'];
    simpl in H; [|done].
  destruct H as (-> & Hh & _).
  destruct (consumed_passes ps (length ps) Hps) as (order & Hlen & Hc); [done|].
  pose proof (wheel_end_psum ps order Hc) as Hend.
  set (w := wheel_passes (length ps) ps) in *.
  destruct (c_len _ _ _ Hc) as (Hl1 & Hl2 & Hl3).
  assert (probs < length (heap s)) as Hlt by by eapply lookup_lt_Some.
  assert (Forall (fun p => (0 <= p)%Q) ps) as Hps0.
  { eapply Forall_impl; [exact Hps|]. by intros p [? _]. }
  exists (length (heap s)), (S (length (heap s))), (S (S (length (heap s)))), s',
    (w_start w), (w_end w), order.
  split; [done|]. rewrite Hh.
  split. { by rewrite lookup_app_r, length_insert, Nat.sub_diag by (rewrite length_insert; lia). }
  split. { rewrite lookup_app_r by (rewrite length_insert; lia). rewrite length_insert.
           by replace (S (length (heap s)) - length (heap s)) with 1 by lia. }
  split; [done|]. split; [done|].
  split; [by eapply consumed_all_Permutation|].
  split; [apply (c_sorted _ _ _ Hc)|].
  split. { intros i Hi. destruct (c_range _ _ _ Hc 0 i Hi) as [-> _]. apply psum_0. }
  split.
  { intros a i j Hi Hj. destruct (c_range _ _ _ Hc a i Hi) as [_ ->].
    by destruct (c_range _ _ _ Hc (S a) j Hj) as [-> _]. }
  split.
  { intros i Hi. destruct (consumed_all_position _ _ _ i Hc Hlen Hi) as [a Ha].
    by eapply consumed_width. }
  split.
  { intros i Hi. assert (0 < length ps) by (apply lookup_lt_Some in Hi; lia).
    destruct (c_range _ _ _ Hc _ i Hi) as [_ ->]. rewrite Hend, Hlen.
    f_equal. lia. }
  split.
  { intros r H0 H1. destruct (wheel_covers ps r Hps H0 H1) as [i Hi].
    apply find_range_Some in Hi as [Hi Hc']. exists i. fold w in Hi, Hc'.
    split; [lia|done]. }
  split; [by apply wheel_widths_total|].
  split.
  { intros Hr. split; [by eapply consumed_disjoint|].
    intros i Hi. by apply wheel_bounds. }
  rewrite lookup_app_l by (rewrite length_insert; lia).
  rewrite list_lookup_insert_eq by done. do 2 f_equal.
  apply list_eq. intros i. destruct (decide (i < length ps)) as [Hi|Hi].
  - rewrite lookup_replicate_2 by done.
    destruct (consumed_all_position _ _ _ i Hc Hlen Hi) as [a Ha].
    apply (c_done _ _ _ Hc). by eapply list_elem_of_lookup_2.
  - rewrite !lookup_ge_None_2; [done| |]; rewrite ?length_replicate; lia.
Qed.

Lemma wheel_ranges_tile_witness :
  exists probs_start probs_end parents s' starts ends,
    wheel_cumulative_probs (ar := binary64_arith) demo_ga 1 2 tenths_state
      = (Ok (probs_start, probs_end, parents), s') /\
    heap s' !! probs_start = Some (AFloat starts) /\
    heap s' !! probs_end = Some (AFloat ends) /\
    (Qsum (widths starts ends) == wheel_end (ar := binary64_arith) tenths)%Q /\
    disjoint_ranges starts ends /\
    heap s' !! 1 = Some (AFloat (replicate 3 sentinel)).
Proof.
  destruct (wheel_ranges_tile (ar := binary64_arith) demo_ga 1 2 tenths_state
              tenths demo_population)
    as (ps & pe & parents & s' & starts & ends & order & Hrun & Hs & He & _ & _
        & _ & _ & _ & _ & _ & _ & _ & Hsum & Hdis & Hdone).
  - reflexivity.
  - reflexivity.
  - intros _. discriminate.
  - repeat constructor; by vm_compute.
  - exists ps, pe, parents, s', starts, ends.
    split; [exact Hrun|]. split; [exact Hs|]. split; [exact He|].
    split; [exact Hsum|].
    split; [exact (proj1 (Hdis binary64_rounding))|exact Hdone].
Defined.

(** Entries above the sentinel, which no probability is, are not
    overwritten: on [[200000000000, 300000000000]] the helper consumes
    slot 0 twice (after the first pass the sentinel written there is the
    minimum) and returns with slot 1 still holding 300000000000. *)
Lemma wheel_leaves_entry_above_sentinel :
  exists out s',
    wheel_cumulative_probs (ar := binary64_arith) demo_ga 1 2
      oversized_pair_state = (Ok out, s') /\
    heap s' !! 1 = Some (AFloat [sentinel; 300000000000 # 1]%Q).
Proof. do 2 eexists. split; [vm_compute; reflexivity|]. by vm_compute. Qed.

(** C10: [wheel_cumulative_probs] returns with every entry of the
    probability array passed to it equal to the sentinel 99999999999 (a
    probability does not exceed the sentinel).  Rank selection and
    roulette-wheel selection pass it a copy: when they are done, their own
    probability array (the first array they allocate) holds the values it
    was created with, and the copy (the second) holds what the helper left
    there, the sentinel everywhere (the probabilities they computed not
    exceeding the sentinel, which those of rank selection never do when
    the ranks are summed without error and the rounding is one of
    [rounding]).  This holds whatever the rounding of the arithmetic. *)
Theorem wheel_consumes_a_copy {ar : arith} :
  (forall self probs num_parents s ps pop,
      heap s !! probs = Some (AFloat ps) ->
      heap s !! population self = Some (AGenes pop) -> wf_ga self ->
      Forall (fun p => (p <= sentinel)%Q) ps ->
      exists out s' qs,
        wheel_cumulative_probs self probs num_parents s = (Ok out, s') /\
        heap s' !! probs = Some (AFloat qs) /\ length qs = length ps /\
        Forall (fun q => (q == sentinel)%Q) qs) /\
  (forall self fitness num_parents s fs pop,
      heap s !! fitness = Some (AFloat fs) ->
      heap s !! population self = Some (AGenes pop) -> wf_ga self ->
      let rank := np_arange 1 (sol_per_pop self + 1) in
      let probs := np_divide rank (np_sum rank) in
      let s' := (rank_selection self fitness num_parents s).2 in
      heap s' !! length (heap s) = Some (AFloat probs) /\
      exists qs, heap s' !! S (length (heap s)) = Some (AFloat qs) /\
                 length qs = sol_per_pop self /\
                 (Forall (fun p => (p <= sentinel)%Q) probs ->
                  Forall (fun q => (q == sentinel)%Q) qs) /\
                 (rounding -> (np_sum rank == Qsum rank)%Q ->
                  Forall (fun q => (q == sentinel)%Q) qs)) /\
  (forall self fitness num_parents s fs pop,
      heap s !! fitness = Some (AFloat fs) ->
      heap s !! population self = Some (AGenes pop) -> wf_ga self ->
      ~ (np_sum fs == 0)%Q ->
      let probs := np_divide fs (np_sum fs) in
      let s' := (roulette_wheel_selection self fitness num_parents s).2 in
      heap s' !! length (heap s) = Some (AFloat probs) /\
      exists qs, heap s' !! S (length (heap s)) = Some (AFloat qs) /\
                 length qs = length fs /\
                 (Forall (fun p => (p <= sentinel)%Q) probs ->
                  Forall (fun q => (q == sentinel)%Q) qs)).
Proof.
  split; [|split].
  - intros self probs n s ps pop Hp Hpop Hwf Hps.
    pose proof (wp_wheel_cumulative_probs self probs n s ps pop Hp Hpop Hwf) as H.
    unfold wp in H. destruct (wheel_cumulative_probs self probs n s) as [[out|e] s'];
      simpl in H; [|done].
    destruct H as (_ & Hh & _). exists out, s', (w_probs (wheel_passes (length ps) ps)).
    assert (probs < length (heap s)) by by eapply lookup_lt_Some.
    split; [done|]. split; [|split].
    + rewrite Hh, lookup_app_l by (rewrite length_insert; lia).
      by apply list_lookup_insert_eq.
    + apply wheel_passes_lengths.
    + by apply capped_all_consumed.
  - intros self fitness n s fs pop Hfit Hpop Hwf rank probs s'.
    destruct (rank_selection_probs self fitness n s fs pop Hfit Hpop Hwf) as [H1 H2].
    split; [done|]. eexists. split; [exact H2|]. split; [|split].
    + rewrite (proj1 (wheel_passes_lengths _ _)).
      unfold np_divide, np_arange. rewrite !length_map, length_seq. lia.
    + apply capped_all_consumed.
    + intros Hr Hsum. apply capped_all_consumed.
      eapply Forall_impl; [apply (rank_probs_capped Hr _ Hsum)|].
      intros p [_ Hp]. simpl in Hp. unfold sentinel. lra.
  - intros self fitness n s fs pop Hfit Hpop Hwf Hsum probs s'.
    destruct (roulette_wheel_selection_probs self fitness n s fs pop Hfit Hpop Hwf Hsum)
      as [H1 H2].
    split; [done|]. eexists. split; [exact H2|]. split.
    + rewrite (proj1 (wheel_passes_lengths _ _)).
      unfold np_divide. by rewrite length_map.
    + apply capped_all_consumed.
Qed.

Lemma wheel_consumes_a_copy_witness :
  (exists out s' qs,
     wheel_cumulative_probs (ar := binary64_arith) demo_ga 1 2 demo_state
       = (Ok out, s') /\
     heap s' !! 1 = Some (AFloat qs) /\ length qs = 5 /\
     Forall (fun q => (q == sentinel)%Q) qs) /\
  (exists qs,
     heap (rank_selection (ar := binary64_arith) demo_ga 1 2 demo_state).2 !! 3
       = Some (AFloat qs) /\
     length qs = 5 /\ Forall (fun q => (q == sentinel)%Q) qs).
Proof.
  destruct (wheel_consumes_a_copy (ar := binary64_arith)) as (Hw & Hrank & _).
  split.
  - apply (Hw demo_ga 1 2 demo_state
             [3 # 1; 1 # 1; 4 # 1; 1 # 1; 5 # 1]%Q demo_population).
    + reflexivity.
    + reflexivity.
    + intros _. discriminate.
    + repeat constructor; by vm_compute.
  - destruct (Hrank demo_ga 1 2 demo_state
                [3 # 1; 1 # 1; 4 # 1; 1 # 1; 5 # 1]%Q demo_population)
      as (_ & qs & Hqs & Hlen & _ & Hall).
    + reflexivity.
    + reflexivity.
    + intros _. discriminate.
    + exists qs. split; [exact Hqs|]. split; [exact Hlen|].
      apply Hall; [apply binary64_rounding|by vm_compute].
Defined.

(** C6, as stated, fails on ties: the stable ascending sort is reversed, so
    of two solutions of equal fitness the one with the larger original index
    comes first.  For fitness [[3,1,4,1,5]] and four parents, solutions 1
    and 3 tie for the last place, and it goes to solution 3: solution 1,
    which comes first in the population, is left out. *)
Lemma steady_state_prefers_later_of_equals :
  (nth 1 [3 # 1; 1 # 1; 4 # 1; 1 # 1; 5 # 1] 0 == nth 3 [3 # 1; 1 # 1; 4 # 1; 1 # 1; 5 # 1] 0)%Q /\
  exists s',
    steady_state_selection demo_ga 1 4 demo_state = (Ok (2, [4; 2; 0; 3]), s').
Proof. split; [reflexivity|]. eexists. vm_compute. reflexivity. Qed.

(** C6 (amended): steady-state selection consults no random number and
    returns the first [num_parents] indices of the ranking by descending
    fitness: the returned indices are distinct, a later one never has a
    larger fitness than an earlier one, among equal fitness the larger
    original index comes first (the stable ascending sort, reversed), and no
    solution left out has a larger fitness than a selected one.  For fitness
    [[3,1,4,1,5]] and [num_parents = 2] it returns index 4, then index 2. *)
Theorem steady_state_selects_the_fittest :
  (forall self fitness num_parents s fs pop,
      heap s !! fitness = Some (AFloat fs) ->
      heap s !! population self = Some (AGenes pop) -> wf_ga self ->
      num_parents <= length fs -> length fs <= length (m_rows pop) ->
      let idxs := take num_parents (rev (fitness_order fs)) in
      (exists s',
          steady_state_selection self fitness num_parents s
            = (Ok (length (heap s), idxs), s') /\ gen s' = gen s) /\
      length idxs = num_parents /\ NoDup idxs /\
      (forall i, i ∈ idxs -> i < length fs) /\
      (forall a b i j, a < b -> idxs !! a = Some i -> idxs !! b = Some j ->
         (nth j fs 0 < nth i fs 0)%Q \/
         ((nth j fs 0 == nth i fs 0)%Q /\ j < i)) /\
      (forall i j, i ∈ idxs -> j < length fs -> j ∉ idxs ->
         (nth j fs 0 <= nth i fs 0)%Q)) /\
  (exists s', steady_state_selection demo_ga 1 2 demo_state = (Ok (2, [4; 2]), s')).
Proof.
  split.
  - intros self fitness n s fs pop Hfit Hpop Hwf Hn Hrows idxs.
    pose proof (steady_state_total self fitness n s fs pop Hfit Hpop Hwf Hn Hrows) as H.
    unfold wp in H.
    destruct (steady_state_selection self fitness n s) as [[out|e] s']; simpl in H;
      [|done].
    destruct H as (-> & Hg & _).
    destruct (ranking_facts fs n Hn) as (H1 & H2 & H3 & H4 & H5).
    split; [by exists s'|]. split; [done|]. split; [done|]. split; [done|].
    split; [exact H4|].
    intros i j Hi Hj Hnj. by apply before_le, H5.
  - eexists. vm_compute. reflexivity.
Qed.

(** C7: in tournament selection, with [K] candidates drawn per parent from
    the generator (indices into the population, repeats allowed), parent
    [p] is the first of its [K] candidates whose fitness is the highest
    among them: that candidate is the index returned at position [p], and
    row [p] of the returned parents is its row of the population.  With
    [K = 1] it is the one candidate drawn for it.  The call draws
    [num_parents * K] integers. *)
Theorem tournament_picks_first_best self fitness num_parents s fs pop :
  heap s !! fitness = Some (AFloat fs) ->
  heap s !! population self = Some (AGenes pop) -> wf_ga self ->
  0 < K_tournament self ->
  (forall k, r_ints (gen s) k < length fs) ->
  length fs <= length (m_rows pop) ->
  exists parents idxs s' par,
    tournament_selection self fitness num_parents s = (Ok (parents, idxs), s') /\
    length idxs = num_parents /\
    (forall p w, idxs !! p = Some w ->
       wins fs (candidate (gen s) (K_tournament self) p) (K_tournament self) w) /\
    (K_tournament self = 1 ->
       forall p w, idxs !! p = Some w -> w = candidate (gen s) 1 p 0) /\
    r_icount (gen s') = r_icount (gen s) + num_parents * K_tournament self /\
    heap s' !! parents = Some (AGenes par) /\
    length (m_rows par) = num_parents /\
    (forall p, p < num_parents ->
       exists w row, idxs !! p = Some w /\ m_rows pop !! w = Some row /\
                     m_rows par !! p = Some row).
Proof.
  intros Hfit Hpop Hwf HK Hdraws Hrows.
  pose proof (tournament_total self fitness num_parents s fs pop
                Hfit Hpop Hwf HK Hdraws Hrows) as H.
  pose proof (tournament_selected self fitness num_parents pop s Hpop) as Hsel.
  unfold wp in H, Hsel.
  destruct (tournament_selection self fitness num_parents s) as [[[parents idxs]|e] s'];
    simpl in H, Hsel; [|done].
  destruct H as (H1 & H2 & H3).
  destruct Hsel as (par & Hpar & Hrl & _ & _ & Hal). simpl in Hpar, Hal.
  exists parents, idxs, s', par.
  split; [done|]. split; [done|]. split; [done|].
  split.
  { intros HK1 p w Hp. destruct (H2 p w Hp) as (j & Hj & -> & _).
    rewrite HK1 in *. by replace j with 0 by lia. }
  split; [done|]. split; [done|]. split; [done|].
  intros p Hp. destruct (lookup_lt_is_Some_2 idxs p) as [w Hw]; [lia|].
  destruct (Hal eq_refl H1 p w Hw) as (row & Hrow & Hprow).
  by exists w, row.
Qed.

Lemma tournament_picks_first_best_witness :
  exists parents idxs s' par,
    tournament_selection demo_ga 1 2 demo_state = (Ok (parents, idxs), s') /\
    length idxs = 2 /\
    heap s' !! parents = Some (AGenes par) /\
    (forall p, p < 2 ->
       exists w row, idxs !! p = Some w /\
                     m_rows demo_population !! w = Some row /\
                     m_rows par !! p = Some row).
Proof.
  destruct (tournament_picks_first_best demo_ga 1 2 demo_state
              [3 # 1; 1 # 1; 4 # 1; 1 # 1; 5 # 1]%Q demo_population)
    as (parents & idxs & s' & par & Hrun & Hlen & _ & _ & _ & Hpar & _ & Hrows).
  - reflexivity.
  - reflexivity.
  - intros _. discriminate.
  - simpl. lia.
  - intros k. simpl. lia.
  - simpl. lia.
  - exists parents, idxs, s', par.
    split; [exact Hrun|]. split; [exact Hlen|]. split; [exact Hpar|exact Hrows].
Defined.

(** C8: stochastic universal selection, on a population whose fitness does
    not sum to zero and with a configured mating-pool size other than zero,
    returns; the spacing of its pointers is [1 / num_parents_mating],
    whatever [num_parents] is; it takes one number [u] from the generator,
    which is advanced by exactly that one draw, and its offset is
    [0 + (spacing - 0) * u]; pointer [i] is [offset + i * spacing], for
    [i = 0 .. num_parents - 1]; each of these operations is the program's,
    with its rounding.  For each pointer in this order, the first solution
    whose wheel range contains the pointer is selected: its index is
    appended and its row of the population is written to row [i] of the
    parents; a pointer that no range contains selects nothing and row [i] is
    left unwritten.  When the rounding is monotone ([rounding]) and [u]
    lies in [[0, 1]], the offset lies between 0 and the spacing; it is
    below the spacing when, as in double precision, the rounding is a
    shrinking one ([shrinking]), the spacing is at least [2^-1021] and [u]
    is at most [1 - 2^-53], the largest double below 1.  When every pointer
    lies on the wheel, there are [num_parents] indices and parent [i] is the
    row of a solution whose range contains pointer [i]. *)
Theorem sus_pointers_are_evenly_spaced {ar : arith} self fitness num_parents s
    fs pop :
  heap s !! fitness = Some (AFloat fs) ->
  heap s !! population self = Some (AGenes pop) -> wf_ga self ->
  ~ (np_sum fs == 0)%Q -> num_parents_mating self <> 0 ->
  length fs <= length (m_rows pop) ->
  let spacing := fdiv 1 (inject_Z (Z.of_nat (num_parents_mating self))) in
  let u := r_floats (gen s) (r_fcount (gen s)) in
  let offset := fadd 0 (fmul (fsub spacing 0) u) in
  let P := np_divide fs (np_sum fs) in
  let W := wheel_passes (length P) P in
  let pointer i := fadd offset (fmul (inject_Z (Z.of_nat i)) spacing) in
  let hit i := find_range (w_start W) (w_end W) (pointer i) in
  exists parents idxs s' par,
    stochastic_universal_selection self fitness num_parents s
      = (Ok (parents, idxs), s') /\
    idxs = omap hit (seq 0 num_parents) /\
    heap s' !! parents = Some (AGenes par) /\
    length (m_rows par) = num_parents /\
    (forall i, i < num_parents ->
       m_rows par !! i = match hit i with
                         | Some idx => m_rows pop !! idx
                         | None => Some None
                         end) /\
    (forall r idx, find_range (w_start W) (w_end W) r = Some idx ->
       idx < length fs /\ contains (w_start W) (w_end W) idx r /\
       forall j, j < idx -> ~ contains (w_start W) (w_end W) j r) /\
    (forall r, find_range (w_start W) (w_end W) r = None ->
       forall idx, idx < length fs -> ~ contains (w_start W) (w_end W) idx r) /\
    gen s' = Rng (r_ints (gen s)) (r_floats (gen s)) (r_icount (gen s))
                 (S (r_fcount (gen s))) /\
    (rounding -> (0 <= u)%Q -> (u <= 1)%Q ->
       (0 <= offset)%Q /\ (offset <= spacing)%Q) /\
    (rounding -> shrinking -> (2 ^ (-1021) <= spacing)%Q ->
       (u <= 1 - 2 ^ (-53))%Q -> (offset < spacing)%Q) /\
    ((forall i, i < num_parents -> is_Some (hit i)) ->
     length idxs = num_parents /\
     forall i, i < num_parents ->
       exists idx row, idxs !! i = Some idx /\ hit i = Some idx /\
                       m_rows pop !! idx = Some row /\
                       m_rows par !! i = Some row) /\
    (Forall (fun p => (0 <= p)%Q /\ (p < sentinel)%Q) P ->
     forall i, on_wheel P (pointer i) -> is_Some (hit i)).
Proof.
  intros Hfit Hpop Hwf Hsum Hnpm Hrows spacing u offset P W pointer hit.
  destruct (wheel_passes_lengths (length P) P) as (Hl1 & Hl2 & Hl3).
  fold W in Hl1, Hl2, Hl3.
  assert (length P = length fs) as HlP by apply np_divide_length.
  pose proof (stochastic_universal_run self fitness num_parents s fs pop
                Hfit Hpop Hwf Hsum Hnpm Hrows) as Hrun.
  apply wp_tot_run in Hrun
    as ([parents idxs] & s' & Hrun & Hout & Hidx & Hgen & _ & rows & Hh & Hrl & Hwr).
  simpl in Hout, Hidx. fold spacing u offset P W in Hidx, Hh, Hwr.
  exists parents, idxs, s', (Matrix (parents_dtype self) (m_cols pop) rows).
  split; [done|]. split; [done|].
  split.
  { rewrite Hh, Hout.
    replace (length (heap s) + 3) with (length (heap s) + 3 + 0) by lia.
    change (heap s ++ [AFloat (w_probs W); AFloat (w_start W); AFloat (w_end W);
                       AGenes (Matrix (parents_dtype self) (m_cols pop) rows)])
      with (heap s ++ [AFloat (w_probs W); AFloat (w_start W); AFloat (w_end W)]
              ++ [AGenes (Matrix (parents_dtype self) (m_cols pop) rows)]).
    rewrite app_assoc.
    replace (length (heap s) + 3)
      with (length (heap s ++ [AFloat (w_probs W); AFloat (w_start W);
                                AFloat (w_end W)]))
      by (rewrite length_app; simpl; lia).
    by rewrite lookup_app_at. }
  split; [done|]. split; [exact Hwr|].
  split.
  { intros r idx Hr. pose proof (find_range_Some _ _ _ _ Hr) as [H1 H2].
    split; [lia|]. split; [done|]. by apply find_range_first. }
  split.
  { intros r Hr idx Hi. apply (find_range_None _ _ _ Hr). lia. }
  split; [done|].
  split.
  { intros Hr Hu0 Hu1.
    apply (sus_offset_bounds Hr (num_parents_mating self) u Hu0 Hu1). }
  split.
  { intros Hr Hs Hd Hu1.
    apply (sus_offset_below Hr (num_parents_mating self) u Hs Hd Hu1). }
  split.
  { intros Hall.
    destruct (sus_indices_all_hit (w_start W) (w_end W) offset spacing
                num_parents Hall) as [Hlen Hlook].
    rewrite Hidx. split; [done|]. intros i Hi.
    destruct (Hall i Hi) as [idx Hfind]. exists idx.
    pose proof (find_range_Some _ _ _ _ Hfind) as [Hb _].
    destruct (lookup_lt_is_Some_2 (m_rows pop) idx) as [row Hrow]; [lia|].
    exists row. split; [by rewrite Hlook|]. split; [done|]. split; [done|].
    simpl. rewrite (Hwr i Hi).
    change (find_range (w_start W) (w_end W) (sus_pointer offset spacing i))
      with (hit i).
    by rewrite Hfind. }
  intros Hps i [H0 H1]. by apply wheel_covers.
Qed.

Lemma sus_pointers_are_evenly_spaced_witness :
  exists parents s' par,
    stochastic_universal_selection (ar := binary64_arith) demo_ga 1 2 demo_state
      = (Ok (parents, [0; 4]), s') /\
    r_fcount (gen s') = 1 /\
    heap s' !! parents = Some (AGenes par) /\
    m_rows par !! 0 = Some (Some [10%Z]) /\
    m_rows par !! 1 = Some (Some [14%Z]) /\
    (let spacing := fdiv (ar := binary64_arith) 1 (2 # 1) in
     let offset := fadd (ar := binary64_arith) 0
                     (fmul (ar := binary64_arith)
                        (fsub (ar := binary64_arith) spacing 0) (1 # 2)) in
     0 <= offset /\ offset < spacing)%Q.
Proof.
  destruct (sus_pointers_are_evenly_spaced (ar := binary64_arith) demo_ga 1 2
              demo_state [3 # 1; 1 # 1; 4 # 1; 1 # 1; 5 # 1]%Q demo_population)
    as (parents & idxs & s' & par & Hrun & Hidx & Hpar & _ & Hrows & _ & _
        & Hgen & Hoff & Hbelow & _).
  - reflexivity.
  - reflexivity.
  - intros _. discriminate.
  - vm_compute. discriminate.
  - simpl. lia.
  - simpl. lia.
  - assert (idxs = [0; 4]) as -> by (rewrite Hidx; vm_compute; reflexivity).
    exists parents, s', par. split; [exact Hrun|].
    split; [rewrite Hgen; reflexivity|]. split; [exact Hpar|].
    split; [|split].
    + pose proof (Hrows 0 ltac:(lia)) as H0. vm_compute in H0. exact H0.
    + pose proof (Hrows 1 ltac:(lia)) as H1. vm_compute in H1. exact H1.
    + split; [apply (Hoff binary64_rounding); by vm_compute|].
      apply (Hbelow binary64_rounding binary64_shrinking); by vm_compute.
Defined.

(** C4, as stated, fails: the fitness [[3, 1, 4, 1, 5]] does not sum to
    zero, yet stochastic universal selection with a mating pool configured
    to size zero ends in a [ZeroDivisionError], raised by
    [1.0 / num_parents_mating]. *)
Lemma sus_divides_by_empty_mating_pool :
  heap demo_state !! 1 = Some (AFloat [3 # 1; 1 # 1; 4 # 1; 1 # 1; 5 # 1]%Q) /\
  ~ (np_sum (arith := binary64_arith) [3 # 1; 1 # 1; 4 # 1; 1 # 1; 5 # 1] == 0)%Q /\
  ~ (Qsum [3 # 1; 1 # 1; 4 # 1; 1 # 1; 5 # 1] == 0)%Q /\
  raises_zde (stochastic_universal_selection (ar := binary64_arith)
                empty_pool_ga 1 2 demo_state).
Proof.
  split; [reflexivity|]. split; [by vm_compute|]. split; [by vm_compute|].
  exists float_division_msg. by vm_compute.
Qed.

(** The sum that counts is the one [numpy.sum] computes: in double
    precision the fitness [[10^16, 1, -10^16]], whose sum is 1, is summed
    to 0 (the 1 is lost when it is added to [10^16]) and is refused. *)
Lemma roulette_wheel_refuses_a_sum_rounded_to_zero :
  (Qsum [10000000000000000 # 1; 1 # 1; -10000000000000000 # 1] == 1)%Q /\
  roulette_wheel_selection (ar := binary64_arith) demo_ga 1 2 absorbed_state
    = (Raise (ZeroDivisionError zero_sum_msg), refused absorbed_state).
Proof. split; by vm_compute. Qed.

(** An [int64] fitness is summed modulo [2^64]: [[2^63 - 1, 2^63 - 1, 2]],
    whose sum is [2^64], is summed to 0 and is refused. *)
Lemma roulette_wheel_refuses_a_sum_wrapped_to_zero :
  (Qsum [9223372036854775807 # 1; 9223372036854775807 # 1; 2 # 1]
   == 18446744073709551616 # 1)%Q /\
  roulette_wheel_selection (ar := int64_arith) demo_ga 1 2 wrapped_state
    = (Raise (ZeroDivisionError zero_sum_msg), refused wrapped_state).
Proof. split; by vm_compute. Qed.

(** C4 (amended): roulette-wheel selection ends in a [ZeroDivisionError]
    if and only if [numpy.sum] of the fitness, as the arithmetic of the
    array computes it, is zero; stochastic universal selection if and only
    if that sum is zero or the configured mating-pool size is zero.
    Whenever either raises it, the random generator is as it was before the
    call.  On a zero sum both log the message and raise it, and change
    nothing else.  The other six selectors never raise a
    [ZeroDivisionError] and never log an error.  This holds whatever the
    arithmetic. *)
Theorem zero_division_only_from_the_two_wheels {ar : arith} self fitness
    num_parents s fs :
  heap s !! fitness = Some (AFloat fs) ->
  let rw := roulette_wheel_selection self fitness num_parents s in
  let sus := stochastic_universal_selection self fitness num_parents s in
  (raises_zde rw <-> (np_sum fs == 0)%Q) /\
  (raises_zde sus <-> (np_sum fs == 0)%Q \/ num_parents_mating self = 0) /\
  (raises_zde rw -> gen rw.2 = gen s) /\
  (raises_zde sus -> gen sus.2 = gen s) /\
  ((np_sum fs == 0)%Q ->
     rw = (Raise (ZeroDivisionError zero_sum_msg), refused s) /\
     sus = (Raise (ZeroDivisionError zero_sum_msg), refused s)) /\
  (forall nds cd sel s0, sel <> RouletteWheel -> sel <> StochasticUniversal ->
     let out := run_selector nds cd sel self fitness num_parents s0 in
     ~ raises_zde out /\ log out.2 = log s0).
Proof.
  intros Hfit rw sus.
  assert (raises_zde rw <-> (np_sum fs == 0)%Q) as Hrw.
  { split.
    - intros Hz. destruct (Qeq_dec (np_sum fs) 0) as [|Hne]; [done|].
      by destruct (roulette_wheel_nonzero_sum self fitness num_parents s fs Hfit Hne).
    - intros Hsum. exists zero_sum_msg. unfold rw.
      by rewrite (roulette_wheel_zero_sum self fitness num_parents s fs Hfit Hsum). }
  assert (raises_zde sus <-> (np_sum fs == 0)%Q \/ num_parents_mating self = 0)
    as Hsus.
  { split.
    - intros Hz. destruct (Qeq_dec (np_sum fs) 0) as [|Hne]; [by left|].
      destruct (decide (num_parents_mating self = 0)) as [|Hnpm]; [by right|].
      by destruct (stochastic_universal_nonzero self fitness num_parents s fs
                     Hfit Hne Hnpm).
    - intros Hor. destruct (Qeq_dec (np_sum fs) 0) as [Hsum|Hne].
      + exists zero_sum_msg. unfold sus.
        by rewrite (stochastic_universal_zero_sum self fitness num_parents s fs
                      Hfit Hsum).
      + destruct Hor as [|Hnpm]; [done|]. exists float_division_msg.
        by destruct (stochastic_universal_empty_pool self fitness num_parents s fs
                       Hfit Hne Hnpm). }
  split; [done|]. split; [done|].
  split.
  { intros Hz. apply Hrw in Hz. unfold rw.
    by rewrite (roulette_wheel_zero_sum self fitness num_parents s fs Hfit Hz). }
  split.
  { intros Hz. apply Hsus in Hz. unfold sus.
    destruct (Qeq_dec (np_sum fs) 0) as [Hsum|Hne].
    - by rewrite (stochastic_universal_zero_sum self fitness num_parents s fs
                    Hfit Hsum).
    - destruct Hz as [|Hnpm]; [done|].
      by destruct (stochastic_universal_empty_pool self fitness num_parents s fs
                     Hfit Hne Hnpm) as (_ & ? & _). }
  split.
  { intros Hsum. split.
    - by apply (roulette_wheel_zero_sum self fitness num_parents s fs).
    - by apply (stochastic_universal_zero_sum self fitness num_parents s fs). }
  intros nds cd sel s0 Hn1 Hn2 out.
  assert (quiet (run_selector nds cd sel self fitness num_parents)) as Hq.
  { destruct sel; simpl; try done.
    - apply quiet_steady_state_selection.
    - apply quiet_random_selection.
    - apply quiet_rank_selection.
    - apply quiet_tournament_selection.
    - apply quiet_tournament_selection_nsga2.
    - apply quiet_nsga2_selection. }
  split; [by apply quiet_raises_zde|apply Hq].
Qed.

Lemma zero_division_only_from_the_two_wheels_witness :
  ~ raises_zde (roulette_wheel_selection (ar := binary64_arith) demo_ga 1 2
                  demo_state) /\
  ~ raises_zde (stochastic_universal_selection (ar := binary64_arith) demo_ga
                  1 2 demo_state).
Proof.
  destruct (zero_division_only_from_the_two_wheels (ar := binary64_arith)
              demo_ga 1 2 demo_state
              [3 # 1; 1 # 1; 4 # 1; 1 # 1; 5 # 1]%Q)
    as (Hrw & Hsus & _).
  - reflexivity.
  - split.
    + intros Hz. apply Hrw in Hz. vm_compute in Hz. discriminate.
    + intros Hz. apply Hsus in Hz. destruct Hz as [Hz|Hz].
      * vm_compute in Hz. discriminate.
      * simpl in Hz. discriminate.
Defined.

(** C3, as stated, fails: with three candidates per parent the candidate set
    is not reduced to one winner, the third candidate never takes part.
    Here the candidates drawn are solutions 2, 3 and 0; solutions 2 and 3
    are in front 1, solution 0 is in front 0, and the parent selected is
    solution 2. *)
Lemma nsga2_tournament_ignores_third_candidate :
  candidates (gen six_state) (K_tournament three_way_ga) 0 = [2; 3; 0] /\
  (six_sorting six_fitness).2 = [0; 0; 1; 1; 1; 2] /\
  exists s',
    tournament_selection_nsga2 (ar := binary64_arith) six_sorting
      listing_crowding three_way_ga 1 1 six_state = (Ok (2, [2]), s').
Proof. split; [reflexivity|]. split; [reflexivity|]. eexists. by vm_compute. Qed.

(** C3 (amended): NSGA-II tournament selection, with at least two
    candidates per parent and collaborators that list every solution, draws
    [K] candidates for each of the [num_parents] parents, all at once, and
    returns one index per parent: the outcome of a duel on the candidates of
    that parent.  The duel is between the first two candidates only:
    the one in the lower front wins, nothing else being computed; in the same
    front, if that front has one solution the first candidate is taken and
    the crowding distance is not computed; otherwise it is computed once and
    the candidate with the larger summed distance wins; when the two
    distances are equal one uniform number is drawn, the first candidate
    being taken if it is below 1/2 and the second if not. *)
Theorem nsga2_tournament_duels_first_two {ar : arith} nds cd self fitness
    num_parents s fit pop fronts sfi :
  heap s !! fitness = Some (AFloat2 fit) ->
  heap s !! population self = Some (AGenes pop) -> wf_ga self ->
  nds fit = (fronts, sfi) ->
  2 <= K_tournament self ->
  (forall k, r_ints (gen s) k < length sfi) ->
  length sfi <= length (m_rows pop) ->
  duel_ready cd fit fronts sfi = true ->
  let K := K_tournament self in
  exists parents idxs s',
    tournament_selection_nsga2 nds cd self fitness num_parents s
      = (Ok (parents, idxs), s') /\
    length idxs = num_parents /\
    r_icount (gen s') = r_icount (gen s) + num_parents * K /\
    (forall p w, idxs !! p = Some w ->
       exists sp,
         r_floats (gen sp) = r_floats (gen s) /\
         (nsga2_duel cd fit fronts sfi (candidates (gen s) K p) sp).1 = Ok w) /\
    (forall p sp f0 f1,
       let c0 := candidate (gen s) K p 0 in
       let c1 := candidate (gen s) K p 1 in
       let duel := nsga2_duel cd fit fronts sfi (candidates (gen s) K p) in
       sfi !! c0 = Some f0 -> sfi !! c1 = Some f1 ->
       (f0 < f1 -> duel sp = (Ok c0, sp)) /\
       (f1 < f0 -> duel sp = (Ok c1, sp)) /\
       (f0 = f1 -> forall pf, fronts !! f0 = Some pf ->
          (length pf = 1 -> duel sp = (Ok c0, sp)) /\
          (length pf <> 1 ->
             forall i0 i1 d0 d1,
               index_from 0 (cd_pop_sorted (cd pf fit)) c0 = Some i0 ->
               index_from 0 (cd_pop_sorted (cd pf fit)) c1 = Some i1 ->
               cd_sum (cd pf fit) !! i0 = Some d0 ->
               cd_sum (cd pf fit) !! i1 = Some d1 ->
               ((d1.2 < d0.2)%Q -> duel sp = (Ok c0, counted sp)) /\
               ((d0.2 < d1.2)%Q -> duel sp = (Ok c1, counted sp)) /\
               ((d0.2 == d1.2)%Q ->
                  let u := r_floats (gen sp) (r_fcount (gen sp)) in
                  duel sp
                  = (Ok (if Qlt_bool (fadd 0 (fmul (fsub 1 0) u)) (1 # 2) then c0 else c1),
                     tossed (counted sp)))))).
Proof.
  intros Hfit Hpop Hwf Hnds HK Hints Hrows Hready K.
  pose proof (tournament_nsga2_total nds cd self fitness num_parents s fit pop
                fronts sfi Hfit Hpop Hwf Hnds HK Hints Hrows Hready) as Hrun.
  apply wp_tot_run in Hrun as ([parents idxs] & s' & Hrun & Hlen & Hcount & Hduel).
  exists parents, idxs, s'. simpl in Hlen, Hcount, Hduel.
  split; [done|]. split; [done|]. split; [done|]. split; [done|].
  intros p sp f0 f1 c0 c1 duel Hf0 Hf1. unfold duel.
  rewrite (candidates_cons (gen s) K p HK). fold c0 c1.
  assert (Forall (fun c => c < length sfi)
            (map (candidate (gen s) K p) (seq 2 (K - 2)))) as Hrest.
  { apply Forall_forall. intros c Hc.
    apply list_elem_of_In, in_map_iff in Hc as (j & <- & _). apply Hints. }
  split; [by apply (duel_lower_front_first cd fit fronts sfi c0 c1 _ f0 f1)|].
  split; [by apply (duel_lower_front_second cd fit fronts sfi c0 c1 _ f0 f1)|].
  intros Hsame pf Hpf.
  split; [by apply (duel_singleton_front cd fit fronts sfi c0 c1 _ f0 f1 Hrest
                      Hf0 Hf1 pf)|].
  intros Hmany i0 i1 d0 d1 Hi0 Hi1 Hd0 Hd1.
  split; [by apply (duel_more_isolated_first cd fit fronts sfi c0 c1 _ f0 f1 Hrest
                      Hf0 Hf1 pf Hsame Hpf i0 i1 d0 d1)|].
  split; [by apply (duel_more_isolated_second cd fit fronts sfi c0 c1 _ f0 f1 Hrest
                      Hf0 Hf1 pf Hsame Hpf i0 i1 d0 d1)|].
  by apply (duel_toss cd fit fronts sfi c0 c1 _ f0 f1 Hrest
              Hf0 Hf1 pf Hsame Hpf i0 i1 d0 d1).
Qed.

Lemma nsga2_tournament_duels_first_two_witness :
  exists parents idxs s',
    tournament_selection_nsga2 (ar := binary64_arith) six_sorting
      listing_crowding two_way_ga 1 2 six_state = (Ok (parents, idxs), s') /\
    length idxs = 2.
Proof.
  destruct (nsga2_tournament_duels_first_two (ar := binary64_arith)
              six_sorting listing_crowding
              two_way_ga 1 2 six_state six_fitness six_population six_fronts
              [0; 0; 1; 1; 1; 2])
    as (parents & idxs & s' & Hrun & Hlen & _).
  - reflexivity.
  - reflexivity.
  - intros _. discriminate.
  - reflexivity.
  - simpl. lia.
  - intros k. unfold six_state, six_rng. simpl.
    destruct k as [|[|[|[|k]]]]; simpl; lia.
  - simpl. lia.
  - reflexivity.
  - exists parents, idxs, s'. split; [exact Hrun|exact Hlen].
Defined.

(** C2: NSGA-II front-based selection does not do what the claim says.
    The row of the parents array that it writes is [sol_idx], the loop
    variable of the branch that takes a whole front, which counts from 0
    within each front.  With one front of three solutions and two parents
    wanted, that variable was never assigned and the call fails.  With
    fronts of sizes 2, 3 and 1 and four parents wanted, the indices
    returned are those of the claim (both solutions of front 0, then the two
    most isolated of front 1), but the two solutions of front 1 are both
    written to row 1, over the second solution of front 0, and rows 2 and 3
    are never written.  With five parents wanted, fronts 0 and 1 are both
    taken whole and front 1 is written over front 0. *)
Theorem nsga2_selection_misplaces_parents :
  (nsga2_selection trio_sorting listing_crowding trio_ga 1 2 trio_state).1
    = Raise UnboundLocalError /\
  (exists s',
     nsga2_selection six_sorting listing_crowding two_way_ga 1 4 six_state
       = (Ok (2, [0; 1; 2; 3]), s') /\
     heap s' !! 2
       = Some (AGenes (Matrix DInt 1 [Some [20%Z]; Some [23%Z]; None; None])) /\
     m_rows six_population !! 1 = Some (Some [21%Z])) /\
  (exists s',
     nsga2_selection six_sorting listing_crowding two_way_ga 1 5 six_state
       = (Ok (2, [0; 1; 2; 3; 4]), s') /\
     heap s' !! 2
       = Some (AGenes (Matrix DInt 1 [Some [22%Z]; Some [23%Z]; Some [24%Z];
                                      None; None]))).
Proof.
  split; [by vm_compute|]. split.
  - eexists. split; [by vm_compute|]. split; by vm_compute.
  - eexists. split; by vm_compute.
Qed.

(** * Further properties of the selectors *)

(** X1: roulette-wheel selection on a fitness whose sum, as [numpy.sum]
    computes it, is not zero returns; it draws one float per parent and no
    integer.  For each parent in turn, the first solution whose wheel range
    contains the parent's draw is selected: its index is appended and its
    row of the population is written to the parent's row; a draw that no
    range contains selects nothing and leaves the row unwritten.  The
    probability of solution [i] is [fitness[i] / sum], and its range ends at
    its start plus that probability, with the rounding of each operation.
    When the probabilities are non-negative and below the sentinel, a draw
    on the wheel (from 0 up to where the wheel ends) selects a solution; and
    when the rounding is monotone ([rounding]), only such a draw does, the
    solution selected is the only one whose range contains the draw, and
    every parent gets an index exactly when every draw is on the wheel. *)
Theorem roulette_wheel_selects_by_range {ar : arith} self fitness num_parents
    s fs pop :
  heap s !! fitness = Some (AFloat fs) ->
  heap s !! population self = Some (AGenes pop) -> wf_ga self ->
  ~ (np_sum fs == 0)%Q -> length fs <= length (m_rows pop) ->
  let P := np_divide fs (np_sum fs) in
  let W := wheel_passes (length P) P in
  let u p := r_floats (gen s) (r_fcount (gen s) + p) in
  let hit p := find_range (w_start W) (w_end W) (u p) in
  exists parents idxs s' par,
    roulette_wheel_selection self fitness num_parents s
      = (Ok (parents, idxs), s') /\
    idxs = omap hit (seq 0 num_parents) /\
    r_fcount (gen s') = r_fcount (gen s) + num_parents /\
    r_icount (gen s') = r_icount (gen s) /\
    heap s' !! parents = Some (AGenes par) /\
    length (m_rows par) = num_parents /\
    (forall p, p < num_parents ->
       m_rows par !! p = match hit p with
                         | Some idx => m_rows pop !! idx
                         | None => Some None
                         end) /\
    (forall i, i < length fs -> nth i P 0%Q = fdiv (nth i fs 0%Q) (np_sum fs)) /\
    (Forall (fun p => (0 <= p)%Q /\ (p < sentinel)%Q) P ->
     (forall i, i < length fs ->
        nth i (w_end W) 0%Q = fadd (nth i (w_start W) 0%Q) (nth i P 0%Q)) /\
     (forall p, on_wheel P (u p) -> is_Some (hit p)) /\
     (rounding ->
        (forall p, is_Some (hit p) -> on_wheel P (u p)) /\
        (forall p idx, hit p = Some idx ->
           forall j, j < length fs ->
             contains (w_start W) (w_end W) j (u p) -> j = idx) /\
        (length idxs = num_parents <->
         forall p, p < num_parents -> on_wheel P (u p)))).
Proof.
  intros Hfit Hpop Hwf Hsum Hrows P W u hit.
  pose proof (roulette_wheel_run self fitness num_parents s fs pop
                Hfit Hpop Hwf Hsum Hrows) as Hrun.
  apply wp_tot_run in Hrun
    as ([parents idxs] & s' & Hrun & Hout & Hidx & Hgen & _ & rows & Hh & Hrl & Hwr).
  simpl in Hout, Hidx. fold P W in Hidx, Hh, Hwr.
  assert (length P = length fs) as HlP by apply np_divide_length.
  exists parents, idxs, s', (Matrix (parents_dtype self) (m_cols pop) rows).
  split; [done|]. split; [done|]. rewrite Hgen. split; [done|]. split; [done|].
  split.
  { rewrite Hh, Hout.
    apply (lookup_app_snoc (heap s)
             [AFloat P; AFloat (w_probs W); AFloat (w_start W); AFloat (w_end W)]).
    simpl. lia. }
  split; [done|]. split; [exact Hwr|].
  split; [intros i Hi; by apply np_divide_nth|].
  intros Hps. split.
  { intros i Hi. apply (wheel_widths P i Hps). lia. }
  split; [intros p [H0 H1]; by apply wheel_covers|].
  intros Hr.
  assert (forall p, is_Some (hit p) <-> on_wheel P (u p)) as Hiff.
  { intros p. apply (wheel_hit_iff P (u p) Hr Hps). }
  split; [intros p; apply Hiff|].
  split.
  { intros p idx Hp j Hj. apply (wheel_hit_unique P (u p) idx Hr Hps Hp). lia. }
  rewrite Hidx, omap_full_iff. split; intros H p Hp; apply Hiff; by apply H.
Qed.

Lemma roulette_wheel_selects_by_range_witness :
  exists parents s' par,
    roulette_wheel_selection (ar := binary64_arith) demo_ga 1 2 demo_state
      = (Ok (parents, [2; 2]), s') /\
    r_fcount (gen s') = 2 /\
    heap s' !! parents = Some (AGenes par) /\
    m_rows par !! 0 = Some (Some [12%Z]) /\
    m_rows par !! 1 = Some (Some [12%Z]).
Proof.
  destruct (roulette_wheel_selects_by_range (ar := binary64_arith) demo_ga 1 2
              demo_state [3 # 1; 1 # 1; 4 # 1; 1 # 1; 5 # 1]%Q demo_population)
    as (parents & idxs & s' & par & Hrun & Hidx & Hf & _ & Hpar & _ & Hrows & _).
  - reflexivity.
  - reflexivity.
  - intros _. discriminate.
  - vm_compute. discriminate.
  - simpl. lia.
  - assert (idxs = [2; 2]) as -> by (rewrite Hidx; vm_compute; reflexivity).
    exists parents, s', par. split; [exact Hrun|]. split; [exact Hf|].
    split; [exact Hpar|]. split.
    + pose proof (Hrows 0 ltac:(lia)) as H0. vm_compute in H0. exact H0.
    + pose proof (Hrows 1 ltac:(lia)) as H1. vm_compute in H1. exact H1.
Defined.

(** X2: rank selection returns; it draws one float per parent and no
    integer.  Slot [k] of its wheel stands for the solution with the
    [(k+1)]-th lowest fitness (equal fitness in index order) and its
    probability is [(k+1) / sum(1 .. N)], [N] being [sol_per_pop], the
    division rounded: the fitness counts through its order only.  For each
    parent in turn, the first slot whose range contains the parent's draw
    selects its solution: the index is appended and the solution's row of
    the population is written to the parent's row; a draw that no range
    contains selects nothing and leaves the row unwritten.  When the
    probabilities are non-negative and below the sentinel, a draw on the
    wheel selects a solution; and when the rounding is monotone
    ([rounding]), every parent gets an index exactly when every draw is on
    the wheel. *)
Theorem rank_selects_by_rank {ar : arith} self fitness num_parents s fs pop :
  heap s !! fitness = Some (AFloat fs) ->
  heap s !! population self = Some (AGenes pop) -> wf_ga self ->
  sol_per_pop self <= length fs -> length fs <= length (m_rows pop) ->
  let N := sol_per_pop self in
  let rank := np_arange 1 (N + 1) in
  let P := np_divide rank (np_sum rank) in
  let W := wheel_passes (length P) P in
  let u p := r_floats (gen s) (r_fcount (gen s) + p) in
  let order := fitness_order fs in
  let hit p := find_range (w_start W) (w_end W) (u p) ≫= (order !!.) in
  exists parents idxs s' par,
    rank_selection self fitness num_parents s = (Ok (parents, idxs), s') /\
    idxs = omap hit (seq 0 num_parents) /\
    r_fcount (gen s') = r_fcount (gen s) + num_parents /\
    r_icount (gen s') = r_icount (gen s) /\
    heap s' !! parents = Some (AGenes par) /\
    length (m_rows par) = num_parents /\
    (forall p, p < num_parents ->
       m_rows par !! p = match hit p with
                         | Some x => m_rows pop !! x
                         | None => Some None
                         end) /\
    order ≡ₚ seq 0 (length fs) /\
    (forall a b x y, a < b -> order !! a = Some x -> order !! b = Some y ->
       before fs x y) /\
    (forall k, k < N ->
       nth k P 0%Q = fdiv (inject_Z (Z.of_nat (S k))) (np_sum rank)) /\
    (Forall (fun p => (0 <= p)%Q /\ (p < sentinel)%Q) P ->
     (forall p, on_wheel P (u p) -> is_Some (hit p)) /\
     (rounding ->
        (forall p, is_Some (hit p) -> on_wheel P (u p)) /\
        (length idxs = num_parents <->
         forall p, p < num_parents -> on_wheel P (u p)))).
Proof.
  intros Hfit Hpop Hwf HN Hrows N rank P W u order hit.
  pose proof (rank_run self fitness num_parents s fs pop Hfit Hpop Hwf HN Hrows)
    as Hrun.
  apply wp_tot_run in Hrun
    as ([parents idxs] & s' & Hrun & Hout & Hidx & Hgen & _ & rows & Hh & Hrl & Hwr).
  simpl in Hout, Hidx. fold N rank P W order in Hidx, Hh, Hwr.
  assert (length P = N) as HlP.
  { unfold P, rank. by rewrite np_divide_length, np_arange_length. }
  assert (length order = length fs) as Hlo.
  { unfold order. rewrite (fitness_order_Permutation fs). apply length_seq. }
  exists parents, idxs, s', (Matrix (parents_dtype self) (m_cols pop) rows).
  split; [done|]. split; [done|]. rewrite Hgen. split; [done|]. split; [done|].
  split.
  { rewrite Hh, Hout.
    apply (lookup_app_snoc (heap s)
             [AFloat P; AFloat (w_probs W); AFloat (w_start W); AFloat (w_end W)]).
    simpl. lia. }
  split; [done|]. split; [exact Hwr|].
  split; [apply fitness_order_Permutation|].
  split.
  { intros a b x y Hab Ha Hb.
    by apply (StronglySorted_lookup_lt (before fs) order a b x y
                (fitness_order_sorted fs)). }
  split.
  { intros k Hk. unfold P.
    rewrite np_divide_nth by (unfold rank; rewrite np_arange_length; lia).
    unfold rank. by rewrite np_arange_nth. }
  intros Hps.
  assert (forall p, is_Some (hit p)
                    <-> is_Some (find_range (w_start W) (w_end W) (u p)))
    as Hslot.
  { intros p. unfold hit.
    destruct (find_range (w_start W) (w_end W) (u p)) as [k|] eqn:E; simpl.
    - apply find_range_Some in E as [Hk _].
      destruct (wheel_passes_lengths (length P) P) as (_ & Hls & _).
      fold W in Hls. split; [by eexists|]. intros _.
      apply lookup_lt_is_Some_2. lia.
    - split; intros [? ?]; done. }
  split.
  { intros p [H0 H1]. apply Hslot. by apply wheel_covers. }
  intros Hr.
  assert (forall p, is_Some (hit p) <-> on_wheel P (u p)) as Hiff.
  { intros p. rewrite Hslot. apply (wheel_hit_iff P (u p) Hr Hps). }
  split; [intros p; apply Hiff|].
  rewrite Hidx, omap_full_iff. split; intros H p Hp; apply Hiff; by apply H.
Qed.

Lemma rank_selects_by_rank_witness :
  exists parents s' par,
    rank_selection (ar := binary64_arith) demo_ga 1 2 demo_state
      = (Ok (parents, [2; 2]), s') /\
    r_fcount (gen s') = 2 /\
    heap s' !! parents = Some (AGenes par) /\
    m_rows par !! 0 = Some (Some [12%Z]).
Proof.
  destruct (rank_selects_by_rank (ar := binary64_arith) demo_ga 1 2 demo_state
              [3 # 1; 1 # 1; 4 # 1; 1 # 1; 5 # 1]%Q demo_population)
    as (parents & idxs & s' & par & Hrun & Hidx & Hf & _ & Hpar & _ & Hrows & _).
  - reflexivity.
  - reflexivity.
  - intros _. discriminate.
  - simpl. lia.
  - simpl. lia.
  - assert (idxs = [2; 2]) as -> by (rewrite Hidx; vm_compute; reflexivity).
    exists parents, s', par. split; [exact Hrun|]. split; [exact Hf|].
    split; [exact Hpar|].
    pose proof (Hrows 0 ltac:(lia)) as H0. vm_compute in H0. exact H0.
Defined.

(** X3: stochastic universal selection, when it runs, selects a solution
    for a pointer that lies on the wheel it has built (its probabilities
    being non-negative and below the sentinel).  When the rounding is
    monotone ([rounding]) only such a pointer selects, so the call returns
    as many indices as requested exactly when every pointer lies on the
    wheel.
    Where the wheel ends and where the pointers fall both depend on the
    rounding: [num_parents] not exceeding [num_parents_mating] does not
    decide it. *)
Theorem sus_selects_what_lies_on_the_wheel {ar : arith} self fitness
    num_parents s fs pop :
  heap s !! fitness = Some (AFloat fs) ->
  heap s !! population self = Some (AGenes pop) -> wf_ga self ->
  ~ (np_sum fs == 0)%Q -> num_parents_mating self <> 0 ->
  length fs <= length (m_rows pop) ->
  let spacing := fdiv 1 (inject_Z (Z.of_nat (num_parents_mating self))) in
  let offset := fadd 0 (fmul (fsub spacing 0)
                              (r_floats (gen s) (r_fcount (gen s)))) in
  let P := np_divide fs (np_sum fs) in
  let W := wheel_passes (length P) P in
  let pointer i := fadd offset (fmul (inject_Z (Z.of_nat i)) spacing) in
  let hit i := find_range (w_start W) (w_end W) (pointer i) in
  Forall (fun p => (0 <= p)%Q /\ (p < sentinel)%Q) P ->
  exists parents idxs s',
    stochastic_universal_selection self fitness num_parents s
      = (Ok (parents, idxs), s') /\
    idxs = omap hit (seq 0 num_parents) /\
    length idxs <= num_parents /\
    (forall i, on_wheel P (pointer i) -> is_Some (hit i)) /\
    (rounding ->
       (forall i, is_Some (hit i) -> on_wheel P (pointer i)) /\
       (length idxs = num_parents <->
        forall i, i < num_parents -> on_wheel P (pointer i))).
Proof.
  intros Hfit Hpop Hwf Hsum Hnpm Hrows spacing offset P W pointer hit Hps.
  pose proof (stochastic_universal_run self fitness num_parents s fs pop
                Hfit Hpop Hwf Hsum Hnpm Hrows) as Hrun.
  apply wp_tot_run in Hrun as ([parents idxs] & s' & Hrun & _ & Hidx & _).
  simpl in Hidx. fold spacing offset P W in Hidx.
  exists parents, idxs, s'. split; [done|].
  assert (idxs = omap hit (seq 0 num_parents)) as Hidx' by exact Hidx.
  split; [done|].
  split; [rewrite Hidx'; apply omap_length_le|].
  split; [intros i [H0 H1]; by apply wheel_covers|].
  intros Hr.
  assert (forall i, is_Some (hit i) <-> on_wheel P (pointer i)) as Hiff.
  { intros i. apply (wheel_hit_iff P (pointer i) Hr Hps). }
  split; [intros i; apply Hiff|].
  rewrite Hidx', omap_full_iff. split; intros H i Hi; apply Hiff; by apply H.
Qed.

(** In double precision, with one solution, a mating pool of 49 and an
    offset of 0, pointer 49 is [49 * (1/49)], which is rounded to the
    largest float below 1 and so lies on the wheel: fifty parents get fifty
    indices. *)
Lemma sus_selects_what_lies_on_the_wheel_witness :
  exists parents idxs s',
    stochastic_universal_selection (ar := binary64_arith) crowded_ga 1 50
      crowded_state = (Ok (parents, idxs), s') /\
    length idxs = 50 /\
    on_wheel (ar := binary64_arith) [1 # 1]%Q
      (fmul (ar := binary64_arith) (49 # 1)
         (fdiv (ar := binary64_arith) 1 (49 # 1))).
Proof.
  destruct (sus_selects_what_lies_on_the_wheel (ar := binary64_arith)
              crowded_ga 1 50 crowded_state [1 # 1]%Q
              (Matrix DInt 1 [Some [7%Z]]))
    as (parents & idxs & s' & Hrun & Hidx & _ & _ & Hr).
  - reflexivity.
  - reflexivity.
  - intros _. discriminate.
  - vm_compute. discriminate.
  - simpl. lia.
  - simpl. lia.
  - repeat constructor; by vm_compute.
  - destruct (Hr binary64_rounding) as [_ Hfull].
    assert (length idxs = 50) as Hlen
      by (rewrite Hidx; vm_compute; reflexivity).
    exists parents, idxs, s'. split; [exact Hrun|]. split; [exact Hlen|].
    pose proof (proj1 Hfull Hlen 49 ltac:(lia)) as H49.
    vm_compute in H49 |- *. exact H49.
Defined.

(** X4: random selection draws all its indices in one call, the next
    [num_parents] integers of the generator, and returns them as they were
    drawn, repeats included and however [num_parents] compares with the size
    of the population; parent [i] is the population row at the [i]-th draw,
    in a fresh array that has the population's number of columns; no float
    is drawn. *)
Theorem random_selection_returns_its_draws self fitness num_parents s fs pop :
  heap s !! fitness = Some (AFloat fs) ->
  heap s !! population self = Some (AGenes pop) -> wf_ga self ->
  (forall k, r_ints (gen s) k < length fs) ->
  length fs <= length (m_rows pop) ->
  exists parents idxs s' par,
    random_selection self fitness num_parents s = (Ok (parents, idxs), s') /\
    idxs = map (fun j => r_ints (gen s) (r_icount (gen s) + j))
               (seq 0 num_parents) /\
    r_icount (gen s') = r_icount (gen s) + num_parents /\
    r_fcount (gen s') = r_fcount (gen s) /\
    heap s !! parents = None /\
    heap s' !! parents = Some (AGenes par) /\
    length (m_rows par) = num_parents /\ m_cols par = m_cols pop /\
    m_dtype par = parents_dtype self /\
    aligned pop (m_rows par) idxs.
Proof.
  intros Hfit Hpop Hwf Hdraws Hrows.
  pose proof (random_run self fitness num_parents s fs pop Hfit Hpop Hwf Hdraws
                Hrows) as Hrun.
  apply wp_tot_run in Hrun
    as ([parents idxs] & s' & Hrun & Hout & Hg & _ & rows & Hh & Hrl & Hal).
  injection Hout as -> ->.
  eexists (length (heap s)), _, s',
    (Matrix (parents_dtype self) (m_cols pop) rows).
  split; [done|]. split; [done|]. rewrite Hg. split; [done|]. split; [done|].
  split; [by apply lookup_ge_None|].
  split; [by rewrite Hh, list_lookup_middle|]. done.
Qed.

Lemma random_selection_returns_its_draws_witness :
  exists parents idxs s',
    random_selection demo_ga 1 7 demo_state = (Ok (parents, idxs), s') /\
    idxs = [0; 0; 0; 0; 0; 0; 0].
Proof.
  destruct (random_selection_returns_its_draws demo_ga 1 7 demo_state
              [3 # 1; 1 # 1; 4 # 1; 1 # 1; 5 # 1]%Q demo_population)
    as (parents & idxs & s' & par & Hrun & Hidx & _).
  - reflexivity.
  - reflexivity.
  - intros _. discriminate.
  - intros k. simpl. lia.
  - simpl. lia.
  - exists parents, idxs, s'. split; [exact Hrun|exact Hidx].
Defined.

(** X5: the indices that NSGA-II front-based selection returns, when it
    returns: at most [num_parents]; every front that fits whole within what
    is still wanted contributes all its solutions, in front order and in the
    order the front lists them; the first front that does not fit
    contributes the first entries of its crowding-distance order, as many as
    are still wanted, and ends the list. *)
Theorem nsga2_selection_walks_the_fronts nds cd self fitness num_parents s fit
    parents idxs s' :
  heap s !! fitness = Some (AFloat2 fit) ->
  nsga2_selection nds cd self fitness num_parents s = (Ok (parents, idxs), s') ->
  let fronts := (nds fit).1 in
  let taken j := concat (take j fronts) in
  idxs = front_walk cd fit fronts num_parents /\
  length idxs <= num_parents /\
  (forall j, length (taken j) <= num_parents ->
     map fst (taken j) `prefix_of` idxs) /\
  (forall j f, fronts !! j = Some f ->
     length (taken j) < num_parents ->
     num_parents - length (taken j) < length f ->
     idxs = map fst (taken j)
              ++ take (num_parents - length (taken j))
                      (cd_pop_sorted (cd f fit))).
Proof.
  intros Hfit Hrun fronts taken.
  pose proof (nsga2_selection_walk nds cd self fitness num_parents s fit Hfit) as H.
  apply (wp_run _ _ _ _ _ H) in Hrun. simpl in Hrun. fold fronts in Hrun.
  rewrite Hrun. split; [done|].
  split; [apply front_walk_length|].
  split; [intros j Hj; by apply front_walk_whole|].
  intros j f Hf Hlt Hpart. by apply front_walk_partial.
Qed.

Lemma nsga2_selection_walks_the_fronts_witness :
  [0; 1; 2; 3] = front_walk listing_crowding six_fitness six_fronts 4 /\
  length [0; 1; 2; 3] <= 4.
Proof.
  destruct (nsga2_selection_walks_the_fronts six_sorting listing_crowding
              two_way_ga 1 4 six_state six_fitness 2 [0; 1; 2; 3]
              (nsga2_selection six_sorting listing_crowding two_way_ga 1 4
                 six_state).2)
    as (Hwalk & Hlen & _).
  - reflexivity.
  - vm_compute. reflexivity.
  - split; [exact Hwalk|exact Hlen].
Defined.

(** X6: whenever the first front alone holds more solutions than parents are
    wanted (and its crowding-distance order names a solution of the
    population first), NSGA-II front-based selection fails with
    [UnboundLocalError]: the row it would write is the loop variable of the
    branch for whole fronts, which has not run.  The random generator is
    left as it was. *)
Theorem nsga2_selection_fails_on_a_large_first_front nds cd self fitness
    num_parents s fit pop f0 rest sfi x more :
  heap s !! fitness = Some (AFloat2 fit) ->
  heap s !! population self = Some (AGenes pop) -> wf_ga self ->
  nds fit = (f0 :: rest, sfi) ->
  0 < num_parents -> num_parents < length f0 ->
  cd_pop_sorted (cd f0 fit) = x :: more -> x < length (m_rows pop) ->
  exists s',
    nsga2_selection nds cd self fitness num_parents s
      = (Raise UnboundLocalError, s') /\
    gen s' = gen s /\ log s' = log s.
Proof.
  intros Hfit Hpop Hwf Hnds Hn Hlt Hcd Hx.
  pose proof (nsga2_first_front_too_large nds cd self fitness num_parents s fit
                pop f0 rest sfi x more Hfit Hpop Hwf Hnds Hn Hlt Hcd Hx) as H.
  unfold wp in H.
  destruct (nsga2_selection nds cd self fitness num_parents s) as [r s'].
  simpl in H. destruct H as (-> & Hg & Hl). by exists s'.
Qed.

Lemma nsga2_selection_fails_on_a_large_first_front_witness :
  exists s',
    nsga2_selection trio_sorting listing_crowding trio_ga 1 2 trio_state
      = (Raise UnboundLocalError, s') /\
    gen s' = gen trio_state /\ log s' = log trio_state.
Proof.
  apply (nsga2_selection_fails_on_a_large_first_front trio_sorting
           listing_crowding trio_ga 1 2 trio_state trio_fitness trio_population
           [(0, [3 # 1; 1 # 1]%Q); (1, [2 # 1; 2 # 1]%Q); (2, [1 # 1; 3 # 1]%Q)]
           [] [0; 0; 0] 0 [1; 2]).
  - reflexivity.
  - reflexivity.
  - intros _. discriminate.
  - reflexivity.
  - lia.
  - simpl. lia.
  - reflexivity.
  - simpl. lia.
Defined.

(** X7: steady-state selection asked for more parents than there are fitness
    values fails with an [IndexError], having drawn no random number and
    logged nothing: the ranking has one entry per fitness value and is
    indexed once per parent. *)
Theorem steady_state_cannot_overdraw self fitness num_parents s fs pop :
  heap s !! fitness = Some (AFloat fs) ->
  heap s !! population self = Some (AGenes pop) -> wf_ga self ->
  length fs < num_parents ->
  exists s',
    steady_state_selection self fitness num_parents s = (Raise IndexError, s') /\
    gen s' = gen s /\ log s' = log s.
Proof.
  intros Hfit Hpop Hwf Hn.
  pose proof (steady_state_overdrawn self fitness num_parents s fs pop
                Hfit Hpop Hwf Hn) as H.
  unfold wp in H.
  destruct (steady_state_selection self fitness num_parents s) as [r s'].
  simpl in H. destruct H as (-> & Hg & Hl). by exists s'.
Qed.

Lemma steady_state_cannot_overdraw_witness :
  exists s',
    steady_state_selection demo_ga 1 6 demo_state = (Raise IndexError, s') /\
    gen s' = gen demo_state /\ log s' = log demo_state.
Proof.
  apply (steady_state_cannot_overdraw demo_ga 1 6 demo_state
           [3 # 1; 1 # 1; 4 # 1; 1 # 1; 5 # 1]%Q demo_population).
  - reflexivity.
  - reflexivity.
  - intros _. discriminate.
  - simpl. lia.
Defined.

(** X8: NSGA-II tournament selection needs two candidates per parent.  With
    [K_tournament] below 2 and at least one parent wanted it fails with an
    [IndexError] at the first parent, when it reads the front of a candidate
    that was not drawn; it has then logged nothing, computed no crowding
    distance and drawn no float.  (With one candidate per parent this
    supposes a solution to draw from.) *)
Theorem nsga2_tournament_needs_two_candidates {ar : arith} nds cd self fitness
    num_parents s fit pop fronts sfi :
  heap s !! fitness = Some (AFloat2 fit) ->
  heap s !! population self = Some (AGenes pop) -> wf_ga self ->
  nds fit = (fronts, sfi) ->
  0 < num_parents -> K_tournament self < 2 ->
  K_tournament self = 0 \/ sfi <> [] ->
  exists s',
    tournament_selection_nsga2 nds cd self fitness num_parents s
      = (Raise IndexError, s') /\
    log s' = log s /\ cd_calls s' = cd_calls s /\
    r_fcount (gen s') = r_fcount (gen s).
Proof.
  intros Hfit Hpop Hwf Hnds Hn HK Hcase.
  pose proof (tournament_nsga2_short nds cd self fitness num_parents s fit pop
                fronts sfi Hfit Hpop Hwf Hnds Hn HK Hcase) as H.
  unfold wp in H.
  destruct (tournament_selection_nsga2 nds cd self fitness num_parents s)
    as [r s'].
  simpl in H. destruct H as (-> & Hl & Hc & Hf). by exists s'.
Qed.

Lemma nsga2_tournament_needs_two_candidates_witness :
  exists s',
    tournament_selection_nsga2 (ar := binary64_arith) six_sorting
      listing_crowding one_way_ga 1 3 six_state = (Raise IndexError, s') /\
    log s' = log six_state /\ cd_calls s' = cd_calls six_state /\
    r_fcount (gen s') = r_fcount (gen six_state).
Proof.
  apply (nsga2_tournament_needs_two_candidates (ar := binary64_arith)
           six_sorting listing_crowding one_way_ga 1 3 six_state six_fitness six_population six_fronts
           [0; 0; 1; 1; 1; 2]).
  - reflexivity.
  - reflexivity.
  - intros _. discriminate.
  - reflexivity.
  - lia.
  - simpl. lia.
  - right. discriminate.
Defined.

(** X9: with at least one parent wanted, random selection on an empty
    fitness array fails with a [ValueError] (there is no index to draw), and
    so does tournament selection, which fails in the same way when
    [K_tournament] is 0 (the maximum of no fitness value).  No random number
    has been drawn and nothing logged. *)
Theorem selection_from_nothing_is_a_value_error self fitness num_parents s fs
    pop :
  heap s !! fitness = Some (AFloat fs) ->
  heap s !! population self = Some (AGenes pop) -> wf_ga self ->
  0 < num_parents ->
  (fs = [] ->
   exists s',
     random_selection self fitness num_parents s = (Raise ValueError, s') /\
     gen s' = gen s /\ log s' = log s) /\
  (K_tournament self = 0 \/ fs = [] ->
   exists s',
     tournament_selection self fitness num_parents s = (Raise ValueError, s') /\
     gen s' = gen s /\ log s' = log s).
Proof.
  intros Hfit Hpop Hwf Hn. split.
  - intros ->.
    pose proof (random_nothing_to_draw self fitness num_parents s pop
                  Hfit Hpop Hwf Hn) as H.
    unfold wp in H.
    destruct (random_selection self fitness num_parents s) as [r s'].
    simpl in H. destruct H as (-> & Hg & Hl). by exists s'.
  - intros Hcase.
    pose proof (tournament_nothing_to_compare self fitness num_parents s fs pop
                  Hfit Hpop Hwf Hn Hcase) as H.
    unfold wp in H.
    destruct (tournament_selection self fitness num_parents s) as [r s'].
    simpl in H. destruct H as (-> & Hg & Hl). by exists s'.
Qed.

Lemma selection_from_nothing_is_a_value_error_witness :
  (exists s',
     random_selection demo_ga 1 1 barren_state = (Raise ValueError, s') /\
     gen s' = gen barren_state /\ log s' = log barren_state) /\
  (exists s',
     tournament_selection demo_ga 1 1 barren_state = (Raise ValueError, s') /\
     gen s' = gen barren_state /\ log s' = log barren_state).
Proof.
  destruct (selection_from_nothing_is_a_value_error demo_ga 1 1 barren_state []
              (Matrix DInt 1 [])) as [Hrandom Htournament].
  - reflexivity.
  - reflexivity.
  - intros _. discriminate.
  - lia.
  - split; [by apply Hrandom | apply Htournament; by right].
Defined.

(** X10: NSGA-II front-based selection, whatever its input and however it
    ends, itself draws no random number and logs nothing (the sorting and
    the crowding distance are the collaborators' business), and it calls
    the crowding distance at most once; when no parent is wanted it does not
    call it at all. *)
Theorem nsga2_selection_draws_nothing nds cd self fitness num_parents s :
  let s' := (nsga2_selection nds cd self fitness num_parents s).2 in
  gen s' = gen s /\ log s' = log s /\
  cd_calls s <= cd_calls s' <= S (cd_calls s) /\
  (num_parents = 0 -> cd_calls s' = cd_calls s).
Proof.
  change (wp (nsga2_selection nds cd self fitness num_parents) s (fun _ s' =>
            gen s' = gen s /\ log s' = log s /\
            cd_calls s <= cd_calls s' <= S (cd_calls s) /\
            (num_parents = 0 -> cd_calls s' = cd_calls s))).
  unfold nsga2_selection.
  apply wp_bind, wp_calm; [apply calm_empty_parents|].
  intros [parents|e] s1 Hg1 Hl1 Hc1; [|repeat split; try done; lia].
  apply wp_bind, wp_calm; [apply calm_load_floats2|].
  intros [fit|e] s2 Hg2 Hl2 Hc2; [|repeat split; try congruence; lia].
  destruct (nds fit) as [fronts sfi].
  apply wp_bind. eapply wp_mono; [apply nsga2_while_effects|]. simpl.
  intros r s3 (Hg3 & Hl3 & Hlo & Hhi).
  assert (gen s3 = gen s /\ log s3 = log s /\
          cd_calls s <= cd_calls s3 <= S (cd_calls s) /\
          (num_parents = 0 -> cd_calls s3 = cd_calls s)) as Hall.
  { split; [congruence|]. split; [congruence|].
    split; [destruct (num_parents =? 0); lia|].
    intros ->. simpl in Hhi. lia. }
  destruct r as [st|e]; [by apply wp_ret | done].
Qed.
